(** * Legged odometry: contact registry, contact selection and pose fusion

    A shallow embedding of
    - [include/mc_state_observation/measurements/ContactsManager.h]
      (the contact registry and the detection-mode table), and
    - [src/observersTools/leggedOdometryTools.cpp] with its header
      (selection of the contacts used for the yaw, fusion of the floating-base
      pose, anchoring of the newly set contacts),
    followed by the properties proved about them.

    Conventions.
    - The arithmetic of C++ [double] is a parameter (class [Double]).  The
      statements on the values that the code computes hold for every
      instance, in particular for the IEEE 754 binary64 numbers
      ([binary64]), with which the code is run on concrete inputs.  The real
      numbers ([real]) are the exact arithmetic; they only serve the
      statements on the order of the forces and on the weight of the blend
      of two orientations.
    - C++ [int] is [Z]; [std::vector::at] and [std::unordered_map::at] throw
      [std::out_of_range] when the index or the key is absent, which is written
      out with the [Result] type below.
    - A C++ reference to a contact stored in [listContacts_] is the key of that
      contact in the map: reading or writing through the reference reads or
      writes the map at that key, so that every alias sees the same contact.
    - [std::set<int>] is the list of its elements in iteration order
      (ascending). *)

From Stdlib Require Import PrimFloat Reals Lra ZArith String List.
From stdpp Require Import base option list sorting gmap strings.

Local Open Scope string_scope.
Local Open Scope list_scope.
Local Open Scope Z_scope.

(** ** Exceptions *)

Inductive Exception : Type :=
  | out_of_range
  | runtime_error (msg : string).

Inductive Result (A : Type) : Type :=
  | Ok (a : A)
  | Throw (e : Exception).
Arguments Ok {A} a.
Arguments Throw {A} e.

#[global] Instance Result_ret : MRet Result := fun A a => Ok a.
#[global] Instance Result_bind : MBind Result := fun A B f r =>
  match r with
  | Ok a => f a
  | Throw e => Throw e
  end.

(** [for (x : l) body], with the loop state threaded through the iterations and
    an exception leaving the loop. *)
Fixpoint forEach {A S : Type} (body : A -> S -> Result S) (l : list A) (s : S)
  : Result S :=
  match l with
  | [] => Ok s
  | x :: l' => s' ← body x s; forEach body l' s'
  end.

(** ** The contact registry ([ContactsManager.h]) *)

Module ContactsManager.

(** [enum ContactsDetection] *)
Inductive ContactsDetection : Type := Solver | Surfaces | Sensors | Undefined.

(** [typedef std::set<int> ContactsSet] *)
Definition ContactsSet : Type := list Z.

(** [strToContactsDetection] *)
Definition strToContactsDetection : gmap string ContactsDetection :=
  list_to_map
    [("Solver", Solver); ("Surfaces", Surfaces); ("Sensors", Sensors);
     ("Undefined", Undefined)].

(** [std::unordered_map::count] *)
Definition count {V} (m : gmap string V) (k : string) : Z :=
  match m !! k with Some _ => 1 | None => 0 end.

(** [std::unordered_map::at] *)
Definition map_at {V} (m : gmap string V) (k : string) : Result V :=
  match m !! k with Some v => Ok v | None => Throw out_of_range end.

(** [std::vector::at]: the [int] index is converted to [size_t], so that a
    negative index is out of range as well. *)
Definition vector_at {V} (v : list V) (idx : Z) : Result V :=
  if idx <? 0 then Throw out_of_range
  else match v !! Z.to_nat idx with
       | Some x => Ok x
       | None => Throw out_of_range
       end.

Definition notAllowedMessage : string :=
  "Contacts detection type not allowed. Please pick among : [Surfaces, Sensors, Solver] or initialize a list of surfaces with the variable surfacesForContactDetection".

(** [stringToContactsDetection] *)
Definition stringToContactsDetection (str : string) : Result ContactsDetection :=
  if count strToContactsDetection str =? 0
  then Throw (runtime_error notAllowedMessage)
  else map_at strToContactsDetection str.


Section Registry.

(** The template parameter [ContactT], with the constructor
    [ContactT(id, name, surface)] and the accessor [getID()] that the
    registry uses. *)
Context {ContactT : Type}.
Variable newContact : Z -> string -> string -> ContactT.
Variable getID : ContactT -> Z.

(** The data members of [ContactsManager<ContactT>] (the detection
    threshold, the observer name and the verbosity flag play no role
    below). *)
Record t : Type := mk {
  listContacts_ : gmap string ContactT;
  insertOrder_ : list string;
  idx_ : Z;
  contactsDetectionMethod_ : ContactsDetection;
  contactsFound_ : ContactsSet;
  oldContacts_ : ContactsSet;
  removedContacts_ : ContactsSet
}.

(** A freshly constructed manager. *)
Definition empty : t :=
  mk ∅ [] 0 Undefined [] [] [].

Definition set_listContacts (f : gmap string ContactT -> gmap string ContactT)
    (m : t) : t :=
  mk (f (listContacts_ m)) (insertOrder_ m) (idx_ m)
     (contactsDetectionMethod_ m) (contactsFound_ m) (oldContacts_ m)
     (removedContacts_ m).

(** [addContactToManager(forceSensorName, surface)].  The returned
    [ContactT &] refers to the mapped value of the element that the
    iterator [it] designates, that is to the key [forceSensorName]. *)
Definition addContactToManager (m : t) (forceSensorName surface : string)
  : t * string :=
  match listContacts_ m !! forceSensorName with
  | Some _ => (* !inserted *) (m, forceSensorName)
  | None =>
      (mk (<[forceSensorName := newContact (idx_ m) forceSensorName surface]>
             (listContacts_ m))
          (insertOrder_ m ++ [forceSensorName])
          (idx_ m + 1)
          (contactsDetectionMethod_ m) (contactsFound_ m) (oldContacts_ m)
          (removedContacts_ m),
       forceSensorName)
  end.

(** [addContactToManager(forceSensorName)] *)
Definition addContactToManager1 (m : t) (forceSensorName : string)
  : t * string :=
  addContactToManager m forceSensorName "".

(** [getNameFromIdx] *)
Definition getNameFromIdx (m : t) (idx : Z) : Result string :=
  vector_at (insertOrder_ m) idx.

(** [contact(name)]: the reference returned is the key itself. *)
Definition contact (m : t) (name : string) : Result string :=
  _ ← map_at (listContacts_ m) name; Ok name.

(** [contact(idx)] *)
Definition contactByIdx (m : t) (idx : Z) : Result string :=
  name ← getNameFromIdx m idx; contact m name.

(** [getIdxFromName] *)
Definition getIdxFromName (m : t) (name : string) : Result Z :=
  c ← map_at (listContacts_ m) name; Ok (getID c).

(** [getList], [contactsFound], [removedContacts] *)
Definition getList (m : t) : list string := insertOrder_ m.
Definition contactsFound (m : t) : ContactsSet := contactsFound_ m.
Definition removedContacts (m : t) : ContactsSet := removedContacts_ m.

(** The managers that a sequence of [addContactToManager] calls builds from
    the freshly constructed one. *)
Inductive reachable : t -> Prop :=
  | reachable_empty : reachable empty
  | reachable_add m name surface :
      reachable m -> reachable (addContactToManager m name surface).1.

End Registry.

Arguments t ContactT : clear implicits.

End ContactsManager.

(** ** The classification of the contacts

    [ContactsManager::updateContacts] is declared in [ContactsManager.h]; its
    body lives in [ContactsManager.hpp], which is included by the header. *)

Module Classifier.
Import ContactsManager.

(** The three callbacks, applied to the identifier of a contact. *)
Inductive Callback : Type :=
  | OnNewContact (id : Z)
  | OnMaintainedContact (id : Z)
  | OnRemovedContact (id : Z).

(** Modelled from the spec: the body of [ContactsManager::updateContacts]
    (file [ContactsManager.hpp]).  Given the previous active set [P] and the
    new active set [N], [newContacts = N \ P], [maintainedContacts = N ∩ P]
    and [removedContacts = P \ N]; each list keeps the iteration order of the
    set it is taken from. *)
Definition newContacts (P N : ContactsSet) : ContactsSet :=
  list_difference N P.
Definition maintainedContacts (P N : ContactsSet) : ContactsSet :=
  list_intersection N P.
Definition removedContacts (P N : ContactsSet) : ContactsSet :=
  list_difference P N.

(** Modelled from the spec: the callbacks that
    [ContactsManager::updateContacts] invokes, in the order of invocation:
    the new-contact callback for each new contact, then the
    maintained-contact callback for each maintained contact, then the
    removed-contact callback for each removed contact. *)
Definition updateContacts_calls (P N : ContactsSet) : list Callback :=
  (OnNewContact <$> newContacts P N)
  ++ (OnMaintainedContact <$> maintainedContacts P N)
  ++ (OnRemovedContact <$> removedContacts P N).

(** One invocation of a callback on the state [S] that the callbacks act
    on. *)
Definition invoke {S : Type}
    (onNewContact onMaintainedContact onRemovedContact : Z -> S -> S)
    (s : S) (call : Callback) : S :=
  match call with
  | OnNewContact id => onNewContact id s
  | OnMaintainedContact id => onMaintainedContact id s
  | OnRemovedContact id => onRemovedContact id s
  end.

(** Modelled from the spec: [ContactsManager::updateContacts] run with
    callbacks acting on a state [S]; [onNewContact], [onMaintainedContact]
    and [onRemovedContact] are the three template arguments. *)
Definition updateContacts {S : Type}
    (onNewContact onMaintainedContact onRemovedContact : Z -> S -> S)
    (P N : ContactsSet) (s : S) : S :=
  let s1 := foldl (fun s id => onNewContact id s) s (newContacts P N) in
  let s2 := foldl (fun s id => onMaintainedContact id s) s1
              (maintainedContacts P N) in
  foldl (fun s id => onRemovedContact id s) s2 (removedContacts P N).

End Classifier.

(** ** The arithmetic of [double] *)

Class Double : Type := mkDouble {
  double : Type;
  d0 : double;
  d1 : double;
  dadd : double -> double -> double;
  dsub : double -> double -> double;
  dmul : double -> double -> double;
  ddiv : double -> double -> double;
  (** [x < y] *)
  dltb : double -> double -> bool;
  dsqrt : double -> double
}.

Declare Scope double_scope.
Delimit Scope double_scope with D.
Notation "x + y" := (dadd x y) : double_scope.
Notation "x - y" := (dsub x y) : double_scope.
Notation "x * y" := (dmul x y) : double_scope.
Notation "x / y" := (ddiv x y) : double_scope.

(** Real numbers: the exact arithmetic that [double] approximates, without
    rounding, overflow or NaN.  The statements on the values that the code
    computes are made for every arithmetic, or for [binary64]; the real
    numbers only serve the statements on the order of the forces of the
    selected contacts and on the weight of the blend of two orientations. *)
Definition real : Double :=
  mkDouble R 0%R 1%R Rplus Rminus Rmult Rdiv
    (fun x y => if Rlt_dec x y then true else false) sqrt.

(** IEEE 754 binary64 numbers, rounding to nearest. *)
Definition binary64 : Double :=
  mkDouble float 0%float 1%float PrimFloat.add PrimFloat.sub PrimFloat.mul
    PrimFloat.div PrimFloat.ltb PrimFloat.sqrt.

(** ** Eigen: vectors and matrices of dimension 3 *)

Module Eigen.
Section WithDouble.
Context {K : Double}.
Local Open Scope double_scope.

Record Vector3 : Type := V3 { vx : double; vy : double; vz : double }.
(** Row-major 3x3 matrix. *)
Record Matrix3 : Type := M3 { row0 : Vector3; row1 : Vector3; row2 : Vector3 }.

Definition Zero : Vector3 := V3 d0 d0 d0.
Definition Identity : Matrix3 := M3 (V3 d1 d0 d0) (V3 d0 d1 d0) (V3 d0 d0 d1).

(** [a + b], [a - b], [v * s], [v / s], [s * v] *)
Definition vadd (a b : Vector3) : Vector3 :=
  V3 (vx a + vx b) (vy a + vy b) (vz a + vz b).
Definition vsub (a b : Vector3) : Vector3 :=
  V3 (vx a - vx b) (vy a - vy b) (vz a - vz b).
Definition vscale (v : Vector3) (s : double) : Vector3 :=
  V3 (vx v * s) (vy v * s) (vz v * s).
Definition vdiv (v : Vector3) (s : double) : Vector3 :=
  V3 (vx v / s) (vy v / s) (vz v / s).
Definition smul (s : double) (v : Vector3) : Vector3 :=
  V3 (s * vx v) (s * vy v) (s * vz v).

Definition dot (a b : Vector3) : double :=
  vx a * vx b + vy a * vy b + vz a * vz b.
(** [v.norm()] *)
Definition norm (v : Vector3) : double := dsqrt (dot v v).

Definition col0 (m : Matrix3) : Vector3 :=
  V3 (vx (row0 m)) (vx (row1 m)) (vx (row2 m)).
Definition col1 (m : Matrix3) : Vector3 :=
  V3 (vy (row0 m)) (vy (row1 m)) (vy (row2 m)).
Definition col2 (m : Matrix3) : Vector3 :=
  V3 (vz (row0 m)) (vz (row1 m)) (vz (row2 m)).

(** [m.transpose()], [m * v], [a * b] *)
Definition transpose (m : Matrix3) : Matrix3 := M3 (col0 m) (col1 m) (col2 m).
Definition mvmul (m : Matrix3) (v : Vector3) : Vector3 :=
  V3 (dot (row0 m) v) (dot (row1 m) v) (dot (row2 m) v).
Definition mmul (a b : Matrix3) : Matrix3 :=
  M3 (V3 (dot (row0 a) (col0 b)) (dot (row0 a) (col1 b)) (dot (row0 a) (col2 b)))
     (V3 (dot (row1 a) (col0 b)) (dot (row1 a) (col1 b)) (dot (row1 a) (col2 b)))
     (V3 (dot (row2 a) (col0 b)) (dot (row2 a) (col1 b)) (dot (row2 a) (col2 b))).

(** [v(2) = z] *)
Definition set_z (z : double) (v : Vector3) : Vector3 := V3 (vx v) (vy v) z.

End WithDouble.
Arguments Vector3 K : clear implicits.
Arguments Matrix3 K : clear implicits.
End Eigen.

(** ** The collaborators of the odometry *)

Section Collaborators.
Context {K : Double}.

(** [sva::PTransformd] and [sva::MotionVecd] *)
Record PTransformd : Type := mkPTransformd {
  rotation : Eigen.Matrix3 K;
  translation : Eigen.Vector3 K
}.
Record MotionVecd : Type := mkMotionVecd {
  angular : Eigen.Vector3 K;
  linear : Eigen.Vector3 K
}.

(** [so::kine::Kinematics], restricted to the pose; [so::kine::Orientation]
    is its rotation matrix. *)
Record Kinematics : Type := mkKinematics {
  position : Eigen.Vector3 K;
  orientation : Eigen.Matrix3 K
}.

(** [so::kine::Kinematics::Flags] *)
Inductive Flags : Type := Flags_position | Flags_pose | Flags_vels.

(** The functions of the state-observation library ([so::kine]) and of
    [kinematicsTools.h] that the odometry calls.  They are not part of the
    files embedded here and stay abstract. *)
Class StateObservation : Type := mkStateObservation {
  AngleAxis : Type;
  (** [Kinematics::operator*] and [Kinematics::getInverse] *)
  kine_mul : Kinematics -> Kinematics -> Kinematics;
  kine_getInverse : Kinematics -> Kinematics;
  skewSymmetricToRotationVector : Eigen.Matrix3 K -> Eigen.Vector3 K;
  rotationVectorToAngleAxis : Eigen.Vector3 K -> AngleAxis;
  (** [so::kine::Orientation(angleAxis).toMatrix3()] *)
  angleAxisToMatrix3 : AngleAxis -> Eigen.Matrix3 K;
  mergeRoll1Pitch1WithYaw2AxisAgnostic :
    Eigen.Matrix3 K -> Eigen.Matrix3 K -> Eigen.Matrix3 K;
  (** [kinematicsTools::poseFromSva] *)
  poseFromSva : PTransformd -> Flags -> Kinematics
}.

(** [mc_rbdyn::ForceSensor] *)
Record ForceSensor : Type := mkForceSensor {
  fs_name : string;
  parentBody : string;
  X_p_f : PTransformd
}.

(** What the odometry reads from the controller during one cycle: the force
    sensors of [ctl.robot(robotName_)], the floating base of
    [ctl.realRobot(robotName_)], and the kinematic model shared by the real
    robot and its copy, the odometry robot (the joint configuration is copied
    at the beginning of the cycle). *)
Record MCController : Type := mkMCController {
  sensor_parentBody : string -> string;
  sensor_X_p_f : string -> PTransformd;
  (** [fs.wrenchWithoutGravity(odometryRobot()).force()], for the sensor
      [fs] of the given name and the body poses of the odometry robot *)
  sensor_forceWithoutGravity : string -> PTransformd -> Eigen.Vector3 K;
  realRobot_posW : PTransformd;
  realRobot_velW : MotionVecd;
  realRobot_accW : MotionVecd;
  (** the world pose of a body, resp. of a surface, that forward kinematics
      yields for a given pose of the floating base *)
  fk_bodyPosW : PTransformd -> string -> PTransformd;
  fk_surfacePose : PTransformd -> string -> PTransformd
}.

(** [robot.forceSensor(name)]: the sensor of that name. *)
Definition forceSensor (ctl : MCController) (name : string) : ForceSensor :=
  mkForceSensor name (sensor_parentBody ctl name) (sensor_X_p_f ctl name).

(** The odometry robot ([mc_rbdyn::Robot]): the pose of its floating base,
    and the floating-base pose for which [mbc().bodyPosW] was last
    computed. *)
Record Robot : Type := mkRobot {
  posW : PTransformd;
  mbc_base : PTransformd
}.

(** [robot.posW(pose)] and [robot.forwardKinematics()] *)
Definition set_posW (pose : PTransformd) (r : Robot) : Robot :=
  mkRobot pose (mbc_base r).
Definition forwardKinematics (r : Robot) : Robot :=
  mkRobot (posW r) (posW r).

(** [robot.mbc().bodyPosW[robot.bodyIndexByName(body)]] and
    [robot.surfacePose(surface)] *)
Definition bodyPosW (ctl : MCController) (r : Robot) (body : string)
  : PTransformd :=
  fk_bodyPosW ctl (mbc_base r) body.
Definition surfacePose (ctl : MCController) (r : Robot) (surface : string)
  : PTransformd :=
  fk_surfacePose ctl (mbc_base r) surface.

End Collaborators.
Arguments PTransformd K : clear implicits.
Arguments MotionVecd K : clear implicits.
Arguments Kinematics K : clear implicits.
Arguments StateObservation K : clear implicits.
Arguments ForceSensor K : clear implicits.
Arguments MCController K : clear implicits.
Arguments Robot K : clear implicits.

(** ** The legged odometry ([leggedOdometryTools.h], [leggedOdometryTools.cpp]) *)

Module LeggedOdometry.
Import Eigen.

Section WithDouble.
Context {K : Double}.

(** [LoContactWithSensor]: the members inherited from
    [measurements::ContactWithSensor] that the odometry reads or writes,
    followed by its own. *)
Record LoContactWithSensor : Type := mkContact {
  id_ : Z;
  name_ : string;
  surface : string;
  isSet_ : bool;
  wasAlreadySet_ : bool;
  worldRefKine_ : Kinematics K;
  useForOrientation_ : bool;
  forceNorm_ : double;
  currentWorldOrientation_ : Matrix3 K
}.

(** [ContactT(id, name, surface)]: the flags are reset, the force is zero and
    the kinematics, not yet set, are given neutral values. *)
Definition newContact (id : Z) (name surface : string) : LoContactWithSensor :=
  mkContact id name surface false false (mkKinematics Zero Identity) false d0
    Identity.

#[global] Instance LoContactWithSensor_inhabited : Inhabited LoContactWithSensor :=
  populate (newContact 0 "" "").

Definition set_isSet (b : bool) (c : LoContactWithSensor) :=
  mkContact (id_ c) (name_ c) (surface c) b (wasAlreadySet_ c) (worldRefKine_ c)
    (useForOrientation_ c) (forceNorm_ c) (currentWorldOrientation_ c).
Definition set_worldRefKine (k : Kinematics K) (c : LoContactWithSensor) :=
  mkContact (id_ c) (name_ c) (surface c) (isSet_ c) (wasAlreadySet_ c) k
    (useForOrientation_ c) (forceNorm_ c) (currentWorldOrientation_ c).
Definition set_useForOrientation (b : bool) (c : LoContactWithSensor) :=
  mkContact (id_ c) (name_ c) (surface c) (isSet_ c) (wasAlreadySet_ c)
    (worldRefKine_ c) b (forceNorm_ c) (currentWorldOrientation_ c).
Definition set_forceNorm (f : double) (c : LoContactWithSensor) :=
  mkContact (id_ c) (name_ c) (surface c) (isSet_ c) (wasAlreadySet_ c)
    (worldRefKine_ c) (useForOrientation_ c) f (currentWorldOrientation_ c).
Definition set_currentWorldOrientation (o : Matrix3 K) (c : LoContactWithSensor) :=
  mkContact (id_ c) (name_ c) (surface c) (isSet_ c) (wasAlreadySet_ c)
    (worldRefKine_ c) (useForOrientation_ c) (forceNorm_ c) o.

Definition set_position (p : Vector3 K) (k : Kinematics K) : Kinematics K :=
  mkKinematics p (orientation k).
Definition set_orientation (o : Matrix3 K) (k : Kinematics K) : Kinematics K :=
  mkKinematics (position k) o.

(** [LeggedOdometryContactsManager]: the registry, and the contacts used for
    the orientation.  [oriOdometryContacts_] is a [std::set] of references
    ordered by [sortByForce]: the list of the keys of the referenced
    contacts, in iteration order. *)
Record LeggedOdometryContactsManager : Type := mkManager {
  registry : ContactsManager.t LoContactWithSensor;
  oriOdometryContacts_ : list string
}.

(** [struct sortByForce] *)
Definition sortByForce (contact1 contact2 : LoContactWithSensor) : bool :=
  dltb (forceNorm_ contact1) (forceNorm_ contact2).

(** The data members of [LeggedOdometryManager]. *)
Record t : Type := mk {
  odometryName_ : string;
  odometry6d_ : bool;
  withNaiveYawEstimation_ : bool;
  fbPose_ : PTransformd K;
  contactsManager_ : LeggedOdometryContactsManager;
  odometryRobot_ : Robot K;
  detectionFromThreshold_ : bool
}.

Definition listContacts (st : t) : gmap string LoContactWithSensor :=
  ContactsManager.listContacts_ (registry (contactsManager_ st)).
Definition contactsFound (st : t) : ContactsManager.ContactsSet :=
  ContactsManager.contactsFound (registry (contactsManager_ st)).
Definition removedContacts (st : t) : ContactsManager.ContactsSet :=
  ContactsManager.removedContacts (registry (contactsManager_ st)).
Definition oriOdometryContacts (st : t) : list string :=
  oriOdometryContacts_ (contactsManager_ st).

Definition set_fbPose (p : PTransformd K) (st : t) : t :=
  mk (odometryName_ st) (odometry6d_ st) (withNaiveYawEstimation_ st) p
     (contactsManager_ st) (odometryRobot_ st) (detectionFromThreshold_ st).
Definition set_odometryRobot (r : Robot K) (st : t) : t :=
  mk (odometryName_ st) (odometry6d_ st) (withNaiveYawEstimation_ st) (fbPose_ st)
     (contactsManager_ st) r (detectionFromThreshold_ st).
Definition set_contactsManager (m : LeggedOdometryContactsManager) (st : t) : t :=
  mk (odometryName_ st) (odometry6d_ st) (withNaiveYawEstimation_ st) (fbPose_ st)
     m (odometryRobot_ st) (detectionFromThreshold_ st).
Definition set_oriOdometryContacts (s : list string) (st : t) : t :=
  set_contactsManager (mkManager (registry (contactsManager_ st)) s) st.

(** Reading and writing a contact through a reference. *)
Definition get (st : t) (ref : string) : LoContactWithSensor :=
  listContacts st !!! ref.
Definition update (ref : string) (f : LoContactWithSensor -> LoContactWithSensor)
    (st : t) : t :=
  set_contactsManager
    (mkManager (ContactsManager.set_listContacts (alter f ref)
                  (registry (contactsManager_ st)))
               (oriOdometryContacts st)) st.

(** [contactsManager().contactWithSensor(idx)] and
    [contactsManager().contactWithSensor(name)]: the accessors [contact(idx)]
    and [contact(name)] of the registry. *)
Definition contactWithSensor (st : t) (idx : Z) : Result string :=
  ContactsManager.contactByIdx (registry (contactsManager_ st)) idx.
Definition contactWithSensorByName (st : t) (name : string) : Result string :=
  ContactsManager.contact (registry (contactsManager_ st)) name.

(** *** [selectForOrientationOdometry] *)

(** [std::set::insert] on the set ordered by [sortByForce]: the new reference
    goes before the first element that is not less than it, unless that
    element is equivalent to it (neither is less than the other), in which
    case nothing is inserted. *)
Fixpoint set_insert (contacts : gmap string LoContactWithSensor) (ref : string)
    (s : list string) : list string :=
  match s with
  | [] => [ref]
  | ref' :: s' =>
      if sortByForce (contacts !!! ref) (contacts !!! ref') then ref :: ref' :: s'
      else if sortByForce (contacts !!! ref') (contacts !!! ref)
           then ref' :: set_insert contacts ref s'
           else ref' :: s'
  end.

(** The body of the [for] loop over [contactsFound()]. *)
Definition selectContact (idx : Z) (st : t) : Result t :=
  contact ← contactWithSensor st idx;
  match String.index 0 "Hand" (name_ (get st contact)) with
  | None => (* find("Hand") == npos *)
      let st := update contact (set_useForOrientation true) st in
      Ok (set_oriOdometryContacts
            (set_insert (listContacts st) contact (oriOdometryContacts st)) st)
  | Some _ => Ok st
  end.

(** The [while] loop: as long as the set holds more than two references, the
    flag of the first one is cleared and the reference is erased. *)
Fixpoint evictLowestForces (s : list string) (st : t) : t :=
  match s with
  | [] => set_oriOdometryContacts [] st
  | ref :: s' =>
      if 2 <? Z.of_nat (length s)
      then evictLowestForces s' (update ref (set_useForOrientation false) st)
      else set_oriOdometryContacts s st
  end.

Definition selectForOrientationOdometry (st : t) : Result t :=
  let st := set_oriOdometryContacts [] st in
  st ← forEach selectContact (contactsFound st) st;
  Ok (evictLowestForces (oriOdometryContacts st) st).

(** The calls that [updateContacts] makes on the odometry robot and on the
    logger, and its calls of [setNewContact], recorded with the odometry
    robot as it is when the call is made. *)
Inductive Call : Type :=
  | Robot_posW (pose : PTransformd K)
  | Robot_forwardKinematics
  | SetNewContact (sensor : string) (odometryRobot : Robot K)
  | Logger_addLogEntry (entry : string)
  | Logger_removeLogEntry (entry : string).

(** [addContactLogEntries] and [removeContactLogEntries] *)
Definition logEntries (st : t) (contactName : string) : list string :=
  [odometryName_ st +:+ "_" +:+ contactName +:+ "_ref_position";
   odometryName_ st +:+ "_" +:+ contactName +:+ "_ref_orientation";
   odometryName_ st +:+ "_" +:+ contactName +:+ "_ref_orientation_RollPitchYaw"].
Definition addContactLogEntries (st : t) (contactName : string) : list Call :=
  Logger_addLogEntry <$> logEntries st contactName.
Definition removeContactLogEntries (st : t) (contactName : string) : list Call :=
  Logger_removeLogEntry <$> logEntries st contactName.

(** The local variables of [updateContacts] that the first loop updates. *)
Record Sums : Type := mkSums {
  sumForces_position : double;
  sumForces_orientation : double;
  positionUpdatable : bool;
  orientationUpdatable : bool;
  totalFbPosition : Vector3 K
}.
Definition initialSums : Sums := mkSums d0 d0 false false Zero.

(** [pose], [vels] and [accs], the outputs of [updateFbKinematics]. *)
Record FbKinematics : Type := mkFbKinematics {
  pose : PTransformd K;
  vels : MotionVecd K;
  accs : MotionVecd K
}.

Section WithStateObservation.
Context {so : StateObservation K}.

(** *** [getContactKinematics]
    The argument [contact] is a reference; the force norm is written
    through it when the detection relies on surfaces. *)
Definition getContactKinematics (ctl : MCController K) (contact : string) (st : t)
  : Kinematics K * t :=
  let fs := forceSensor ctl (name_ (get st contact)) in
  let bodyContactSensorPose := X_p_f fs in
  let bodyContactSensorKine := poseFromSva bodyContactSensorPose Flags_vels in
  let worldBodyKineOdometryRobot :=
    poseFromSva (bodyPosW ctl (odometryRobot_ st) (parentBody fs)) Flags_pose in
  let worldSensorKineOdometryRobot :=
    kine_mul worldBodyKineOdometryRobot bodyContactSensorKine in
  if detectionFromThreshold_ st then (worldSensorKineOdometryRobot, st)
  else
    let worldSurfacePoseOdometryRobot :=
      surfacePose ctl (odometryRobot_ st) (surface (get st contact)) in
    let worldContactKineOdometryRobot :=
      poseFromSva worldSurfacePoseOdometryRobot Flags_pose in
    let contactSensorKine :=
      kine_mul (kine_getInverse worldContactKineOdometryRobot)
        worldSensorKineOdometryRobot in
    let force :=
      sensor_forceWithoutGravity ctl (fs_name fs) (mbc_base (odometryRobot_ st)) in
    (worldContactKineOdometryRobot,
     update contact
       (set_forceNorm (norm (mvmul (orientation contactSensorKine) force))) st).

(** *** [setNewContact] *)

(** One statement
    [contactsManager().contactWithSensor(name).worldRefKine_... = ...]. *)
Definition assignRefKine (name : string) (f : Kinematics K -> Kinematics K) (st : t)
  : Result t :=
  contact ← contactWithSensorByName st name;
  Ok (update contact (fun c => set_worldRefKine (f (worldRefKine_ c)) c) st).

Definition setNewContact (ctl : MCController K) (forceSensor : ForceSensor K) (st : t)
  : Result t :=
  st ← (if detectionFromThreshold_ st then
          let bodyNewContactPoseRobot := X_p_f forceSensor in
          let bodyNewContactKine :=
            mkKinematics (translation bodyNewContactPoseRobot)
              (transpose (rotation bodyNewContactPoseRobot)) in
          let worldBodyKineOdometryRobot :=
            mkKinematics
              (translation
                 (bodyPosW ctl (odometryRobot_ st) (parentBody forceSensor)))
              (transpose
                 (rotation
                    (bodyPosW ctl (odometryRobot_ st) (parentBody forceSensor)))) in
          let worldNewContactKineOdometryRobot :=
            kine_mul worldBodyKineOdometryRobot bodyNewContactKine in
          st ← assignRefKine (fs_name forceSensor)
                 (set_position (position worldNewContactKineOdometryRobot)) st;
          assignRefKine (fs_name forceSensor)
            (set_orientation (orientation worldNewContactKineOdometryRobot)) st
        else
          contact ← contactWithSensorByName st (fs_name forceSensor);
          let worldSurfacePoseOdometryRobot :=
            surfacePose ctl (odometryRobot_ st) (surface (get st contact)) in
          st ← assignRefKine (fs_name forceSensor)
                 (set_position (translation worldSurfacePoseOdometryRobot)) st;
          assignRefKine (fs_name forceSensor)
            (set_orientation (transpose (rotation worldSurfacePoseOdometryRobot)))
            st);
  if negb (odometry6d_ st)
  then assignRefKine (fs_name forceSensor)
         (fun k => set_position (set_z d0 (position k)) k) st
  else Ok st.

(** *** [updateContacts] *)

(** The body of the first loop, over [contactsFound()]. *)
Definition fuseContact (ctl : MCController K) (setContactIndex : Z) (s : t * Sums)
  : Result (t * Sums) :=
  let '(st, sums) := s in
  setContact ← contactWithSensor st setContactIndex;
  if wasAlreadySet_ (get st setContact) then
    let '(worldContactKineOdometryRobot, st) :=
      getContactKinematics ctl setContact st in
    let worldFbPositionOdometryRobot := translation (posW (odometryRobot_ st)) in
    let worldFbPositionOdometry :=
      vadd (position (worldRefKine_ (get st setContact)))
        (vsub worldFbPositionOdometryRobot
           (position worldContactKineOdometryRobot)) in
    let sumForces_position' :=
      (sumForces_position sums + forceNorm_ (get st setContact))%D in
    let totalFbPosition' :=
      vadd (totalFbPosition sums)
        (vscale worldFbPositionOdometry (forceNorm_ (get st setContact))) in
    if withNaiveYawEstimation_ st && useForOrientation_ (get st setContact) then
      let st :=
        update setContact
          (set_currentWorldOrientation
             (mmul
                (mmul (orientation (worldRefKine_ (get st setContact)))
                   (transpose (orientation worldContactKineOdometryRobot)))
                (transpose (rotation (posW (odometryRobot_ st)))))) st in
      Ok (st,
          mkSums sumForces_position'
            (sumForces_orientation sums + forceNorm_ (get st setContact))%D
            true true totalFbPosition')
    else
      Ok (st,
          mkSums sumForces_position' (sumForces_orientation sums) true
            (orientationUpdatable sums) totalFbPosition')
  else Ok (st, sums).

(** The orientation obtained from two contacts, before its yaw is merged
    with the tilt: [force1] is the force norm of the first contact of the
    set and [sumForces] is [sumForces_orientation]. *)
Definition meanOri (R1 R2 : Matrix3 K) (force1 sumForces : double) : Matrix3 K :=
  let u := (force1 / sumForces)%D in
  let diffRot := mmul (transpose R1) R2 in
  let diffRotVector := smul (d1 - u)%D (skewSymmetricToRotationVector diffRot) in
  let diffRotAngleAxis := rotationVectorToAngleAxis diffRotVector in
  let diffRotMatrix := angleAxisToMatrix3 diffRotAngleAxis in
  mmul R1 diffRotMatrix.

(** The update of [fbPose_] that follows the first loop. *)
Definition updatePose (ctl : MCController K) (sums : Sums) (st : t) : t :=
  if positionUpdatable sums then
    let st :=
      set_fbPose
        (mkPTransformd (rotation (fbPose_ st))
           (vdiv (totalFbPosition sums) (sumForces_position sums))) st in
    if orientationUpdatable sums then
      let realRobotOri := transpose (rotation (realRobot_posW ctl)) in
      match oriOdometryContacts st with
      | [contact] => (* size() == 1 *)
          set_fbPose
            (mkPTransformd
               (transpose
                  (mergeRoll1Pitch1WithYaw2AxisAgnostic realRobotOri
                     (currentWorldOrientation_ (get st contact))))
               (translation (fbPose_ st))) st
      | [contact1; contact2] => (* size() == 2 *)
          let R1 := currentWorldOrientation_ (get st contact1) in
          let R2 := currentWorldOrientation_ (get st contact2) in
          set_fbPose
            (mkPTransformd
               (transpose
                  (mergeRoll1Pitch1WithYaw2AxisAgnostic realRobotOri
                     (meanOri R1 R2 (forceNorm_ (get st contact1))
                        (sumForces_orientation sums))))
               (translation (fbPose_ st))) st
      | _ => st
      end
    else st
  else st.

(** The body of the second loop, over [contactsFound()]. *)
Definition setFoundContact (ctl : MCController K) (foundContactIndex : Z)
    (s : t * list Call) : Result (t * list Call) :=
  let '(st, calls) := s in
  foundContact ← contactWithSensor st foundContactIndex;
  if negb (wasAlreadySet_ (get st foundContact)) then
    let fs := forceSensor ctl (name_ (get st foundContact)) in
    let st := update foundContact (set_isSet true) st in
    st' ← setNewContact ctl fs st;
    Ok (st',
        (calls ++ SetNewContact (fs_name fs) (odometryRobot_ st)
                  :: addContactLogEntries st' (fs_name fs))%list)
  else Ok (st, calls).

(** The body of the third loop, over [removedContacts()]. *)
Definition logRemovedContact (removedContactIndex : Z) (s : t * list Call)
  : Result (t * list Call) :=
  let '(st, calls) := s in
  removedContact ← contactWithSensor st removedContactIndex;
  Ok (st,
      (calls ++ removeContactLogEntries st (name_ (get st removedContact)))%list).

Definition updateContacts (ctl : MCController K) (st : t) : Result (t * list Call) :=
  st ← selectForOrientationOdometry st;
  '(st, sums) ← forEach (fuseContact ctl) (contactsFound st) (st, initialSums);
  let st := updatePose ctl sums st in
  let st := set_odometryRobot (set_posW (fbPose_ st) (odometryRobot_ st)) st in
  let st := set_odometryRobot (forwardKinematics (odometryRobot_ st)) st in
  let calls := [Robot_posW (fbPose_ st); Robot_forwardKinematics] in
  s ← forEach (setFoundContact ctl) (contactsFound st) (st, calls);
  forEach logRemovedContact (removedContacts s.1) s.

(** *** [updateFbKinematics] *)
Definition updateFbKinematics (ctl : MCController K) (st : t) : FbKinematics :=
  let R_real := rotation (realRobot_posW ctl) in
  let realLocalLinVel := mvmul R_real (linear (realRobot_velW ctl)) in
  let realLocalAngVel := mvmul R_real (angular (realRobot_velW ctl)) in
  let realLocalLinAcc := mvmul R_real (linear (realRobot_accW ctl)) in
  let realLocalAngAcc := mvmul R_real (angular (realRobot_accW ctl)) in
  let Rt := transpose (rotation (posW (odometryRobot_ st))) in
  mkFbKinematics
    (mkPTransformd (rotation (posW (odometryRobot_ st)))
       (translation (posW (odometryRobot_ st))))
    (mkMotionVecd (mvmul Rt realLocalAngVel) (mvmul Rt realLocalLinVel))
    (mkMotionVecd (mvmul Rt realLocalAngAcc) (mvmul Rt realLocalLinAcc)).

(** *** [run]
    [findContacts] is the detection of the contacts by the registry, whose
    body is not part of the files embedded here. *)
Definition run
    (findContacts : MCController K -> LeggedOdometryContactsManager ->
                    LeggedOdometryContactsManager)
    (ctl : MCController K) (st : t) : Result (t * list Call * FbKinematics) :=
  let st :=
    set_odometryRobot (mkRobot (realRobot_posW ctl) (realRobot_posW ctl)) st in
  let st := set_odometryRobot (forwardKinematics (odometryRobot_ st)) st in
  let st := set_contactsManager (findContacts ctl (contactsManager_ st)) st in
  '(st, calls) ← updateContacts ctl st;
  Ok (st, calls, updateFbKinematics ctl st).

End WithStateObservation.
End WithDouble.

Arguments LoContactWithSensor K : clear implicits.
Arguments LeggedOdometryContactsManager K : clear implicits.
Arguments t K : clear implicits.
Arguments Call K : clear implicits.
Arguments Sums K : clear implicits.
Arguments FbKinematics K : clear implicits.

End LeggedOdometry.

(** ** Notions used in the statements *)

Module Odometry.
Import Eigen LeggedOdometry.

Section WithDouble.
Context {K : Double}.

(** The identifier [idx] designates a contact of the registry, and the
    name of that contact designates a contact of the registry as well (the
    contacts are registered under their own name). *)
Definition resolved (st : t K) (idx : Z) : Prop :=
  exists ref, contactWithSensor st idx = Ok ref
              /\ is_Some (listContacts st !! name_ (get st ref)).

(** Every identifier of [contactsFound_] and of [removedContacts_]
    designates a contact. *)
Definition wellFormed (st : t K) : Prop :=
  forall idx, idx ∈ (contactsFound st ++ removedContacts st)%list ->
              resolved st idx.

(** The references to the contacts found during this cycle, in the order
    of [contactsFound_]. *)
Definition foundContacts (st : t K) : list string :=
  omap (fun idx => match contactWithSensor st idx with
                   | Ok ref => Some ref
                   | Throw _ => None
                   end)
       (contactsFound st).

(** The maintained contacts: found during this cycle and already set
    during the previous one. *)
Definition maintainedContacts (st : t K) : list string :=
  filter (fun ref => wasAlreadySet_ (get st ref) = true) (foundContacts st).

(** The references, among the identifiers [l], to the contacts whose name does
    not contain [Hand]: the contacts that the selection inserts. *)
Definition eligibleAmong (st : t K) (l : list Z) : list string :=
  filter (fun ref => String.index 0 "Hand" (name_ (get st ref)) = None)
    (omap (fun idx => match contactWithSensor st idx with
                      | Ok ref => Some ref
                      | Throw _ => None
                      end) l).
Definition eligibleContacts (st : t K) : list string :=
  eligibleAmong st (contactsFound st).

(** The contacts of [s] are registered and have their flag
    [useForOrientation_] set. *)
Definition flagged (st : t K) (s : list string) : Prop :=
  forall ref, ref ∈ s ->
    is_Some (listContacts st !! ref) /\ useForOrientation_ (get st ref) = true.

(** *** The registry *)

(** The identifier of a contact is its position in the insertion order. *)
Definition sequentialIds (m : ContactsManager.t (LoContactWithSensor K)) : Prop :=
  ContactsManager.idx_ m = Z.of_nat (length (ContactsManager.insertOrder_ m))
  /\ (forall name c,
        ContactsManager.listContacts_ m !! name = Some c ->
        0 <= id_ c
        /\ ContactsManager.insertOrder_ m !! Z.to_nat (id_ c) = Some name)
  /\ (forall (i : nat) name,
        ContactsManager.insertOrder_ m !! i = Some name ->
        exists c, ContactsManager.listContacts_ m !! name = Some c
                  /\ id_ c = Z.of_nat i).

(** *** States that differ by the contents of their contacts only *)

(** The two states have the same configuration, the same registered names
    and the same sets of found and removed contacts, and their contacts bear
    the same names. *)
Record sameRegistry (st st' : t K) : Prop := mkSameRegistry {
  same_odometryName : odometryName_ st' = odometryName_ st;
  same_odometry6d : odometry6d_ st' = odometry6d_ st;
  same_withNaiveYawEstimation :
    withNaiveYawEstimation_ st' = withNaiveYawEstimation_ st;
  same_detectionFromThreshold :
    detectionFromThreshold_ st' = detectionFromThreshold_ st;
  same_insertOrder :
    ContactsManager.insertOrder_ (registry (contactsManager_ st'))
    = ContactsManager.insertOrder_ (registry (contactsManager_ st));
  same_contactsFound : contactsFound st' = contactsFound st;
  same_removedContacts : removedContacts st' = removedContacts st;
  same_domain :
    forall k, is_Some (listContacts st' !! k) <-> is_Some (listContacts st !! k);
  same_names : forall k, name_ (get st' k) = name_ (get st k)
}.
(** The two states have the same floating-base pose and odometry robot. *)
Definition samePose (st st' : t K) : Prop :=
  fbPose_ st' = fbPose_ st /\ odometryRobot_ st' = odometryRobot_ st.
(** The field [g] of every contact is the same in the two states. *)
Definition agree {A} (g : LoContactWithSensor K -> A) (st st' : t K) : Prop :=
  forall k, g (get st' k) = g (get st k).
(** A contact without its reference kinematics. *)
Definition withoutRefKine (c : LoContactWithSensor K) : LoContactWithSensor K :=
  set_worldRefKine (mkKinematics Zero Identity) c.
(** The effect of one assignment to [worldRefKine_]. *)
Definition assigned (name : string) (f : Kinematics K -> Kinematics K)
    (st : t K) : t K :=
  update name (fun c => set_worldRefKine (f (worldRefKine_ c)) c) st.
(** A contact without its flag [useForOrientation_]. *)
Definition withoutFlag (c : LoContactWithSensor K) : LoContactWithSensor K :=
  set_useForOrientation false c.
(** What the selection leaves untouched. *)
Definition selectionFrame (st st' : t K) : Prop :=
  sameRegistry st st' /\ samePose st st' /\ agree withoutFlag st st'.
(** The two states offer the same sources to the fusion of the positions:
    same odometry robot, same names, surfaces, flags [wasAlreadySet_] and
    reference kinematics of the contacts and, when the detection relies on
    thresholds, same force norms. *)
Definition sameSources (st st' : t K) : Prop :=
  sameRegistry st st' /\ samePose st st'
  /\ agree name_ st st' /\ agree surface st st' /\ agree wasAlreadySet_ st st'
  /\ agree worldRefKine_ st st'
  /\ (detectionFromThreshold_ st = true -> agree forceNorm_ st st').
(** *** The contacts that a loop goes through *)

(** The contacts among the identifiers [l] that were already set. *)
Definition maintainedAmong (st : t K) (l : list Z) : list string :=
  filter (fun ref => wasAlreadySet_ (get st ref) = true)
    (omap (fun idx => match contactWithSensor st idx with
                      | Ok ref => Some ref
                      | Throw _ => None
                      end) l).
(** The maintained contacts, among the identifiers [l], whose flag
    [useForOrientation_] is set: the contacts whose orientation the first loop
    of [updateContacts] computes. *)
Definition orientationSources (st : t K) (l : list Z) : list string :=
  filter (fun ref => useForOrientation_ (get st ref) = true) (maintainedAmong st l).
(** The sensor of a call of [setNewContact]. *)
Definition setNewContactSensor (call : Call K) : option string :=
  match call with
  | SetNewContact sensor _ => Some sensor
  | _ => None
  end.
(** The names of the contacts among the identifiers [l] that were not
    already set. *)
Definition newlySetAmong (st : t K) (l : list Z) : list string :=
  (fun ref => name_ (get st ref))
    <$> filter (fun ref => wasAlreadySet_ (get st ref) = false)
          (omap (fun idx => match contactWithSensor st idx with
                            | Ok ref => Some ref
                            | Throw _ => None
                            end) l).
(** What the second and third loops leave untouched. *)
Definition anchoringFrame (st st' : t K) : Prop :=
  sameRegistry st st' /\ samePose st st' /\ agree wasAlreadySet_ st st'.
(** A contact without its reference kinematics and its flag [isSet_]. *)
Definition withoutAnchor (c : LoContactWithSensor K) : LoContactWithSensor K :=
  set_isSet false (withoutRefKine c).
(** The names of the contacts that the identifiers [l] designate. *)
Definition namesAmong (st : t K) (l : list Z) : list string :=
  (fun ref => name_ (get st ref))
    <$> omap (fun idx => match contactWithSensor st idx with
                         | Ok ref => Some ref
                         | Throw _ => None
                         end) l.
(** The calls made for the newly set contacts [names]: [setNewContact], then
    the three log entries, contact after contact. *)
Definition anchoringCalls (st : t K) (odometryRobot : Robot K) (names : list string)
  : list (Call K) :=
  names ≫= fun name => SetNewContact name odometryRobot :: addContactLogEntries st name.
(** The calls made for the removed contacts [names]. *)
Definition removalCalls (st : t K) (names : list string) : list (Call K) :=
  names ≫= removeContactLogEntries st.
Section WithStateObservation.
Context {so : StateObservation K}.

(** The position of the floating base that a contact yields:
    [worldRefKine_.position() + (worldFbPositionOdometryRobot -
    worldContactKineOdometryRobot.position())]. *)
Definition candidate (ctl : MCController K) (st : t K) (ref : string)
  : Vector3 K :=
  vadd (position (worldRefKine_ (get st ref)))
    (vsub (translation (posW (odometryRobot_ st)))
       (position (getContactKinematics ctl ref st).1)).

(** The orientation of the floating base that a contact yields:
    [worldRefKine_.orientation * worldContactKine.orientation^T
     * posW.rotation^T]. *)
Definition orientationCandidate (ctl : MCController K) (st : t K) (ref : string)
  : Matrix3 K :=
  mmul
    (mmul (orientation (worldRefKine_ (get st ref)))
       (transpose (orientation (getContactKinematics ctl ref st).1)))
    (transpose (rotation (posW (odometryRobot_ st)))).

(** The force norm of a contact once [getContactKinematics] has been
    called on it. *)
Definition measuredForce (ctl : MCController K) (st : t K) (ref : string)
  : double :=
  forceNorm_ (get (getContactKinematics ctl ref st).2 ref).

(** What one iteration of the first loop adds to the sums. *)
Definition accumulate (ctl : MCController K) (st : t K) (ref : string)
    (acc : Vector3 K * double) : Vector3 K * double :=
  (vadd acc.1 (vscale (candidate ctl st ref) (measuredForce ctl st ref)),
   dadd acc.2 (measuredForce ctl st ref)).
(** The contact [ref] of the state [s] holds the orientation and the force
    norm that the first loop of [updateContacts] computes for it from the
    state [st]. *)
Definition fused (ctl : MCController K) (st s : t K) (ref : string) : Prop :=
  currentWorldOrientation_ (get s ref) = orientationCandidate ctl st ref
  /\ forceNorm_ (get s ref) = measuredForce ctl st ref.

(** [Σ candidate · force] and [Σ force] over a list of contacts, summed
    from zero in the order of the list. *)
Definition sumOfWeightedCandidates (ctl : MCController K) (st : t K)
    (refs : list string) : Vector3 K :=
  foldl (fun acc ref =>
           vadd acc (vscale (candidate ctl st ref) (measuredForce ctl st ref)))
    Zero refs.
Definition sumOfForces (ctl : MCController K) (st : t K)
    (refs : list string) : double :=
  foldl (fun acc ref => dadd acc (measuredForce ctl st ref)) d0 refs.


(** The reference kinematics that [setNewContact] gives to the contact of
    the sensor [forceSensor]: the kinematics of the sensor frame (detection
    from thresholds) or of the surface of the contact (detection from
    surfaces) in the odometry robot, with height zero in flat odometry. *)
Definition anchor (ctl : MCController K) (forceSensor : ForceSensor K) (st : t K)
  : Kinematics K :=
  let worldNewContactKine :=
    if detectionFromThreshold_ st then
      let worldBody := bodyPosW ctl (odometryRobot_ st) (parentBody forceSensor) in
      let worldNewContactKineOdometryRobot :=
        kine_mul
          (mkKinematics (translation worldBody) (transpose (rotation worldBody)))
          (mkKinematics (translation (X_p_f forceSensor))
             (transpose (rotation (X_p_f forceSensor)))) in
      mkKinematics (position worldNewContactKineOdometryRobot)
        (orientation worldNewContactKineOdometryRobot)
    else
      let worldSurfacePoseOdometryRobot :=
        surfacePose ctl (odometryRobot_ st) (surface (get st (fs_name forceSensor))) in
      mkKinematics (translation worldSurfacePoseOdometryRobot)
        (transpose (rotation worldSurfacePoseOdometryRobot)) in
  if odometry6d_ st then worldNewContactKine
  else set_position (set_z d0 (position worldNewContactKine)) worldNewContactKine.

End WithStateObservation.
End WithDouble.

(** With real numbers: the force norm of a contact, and the lists of contacts
    whose force norms strictly increase. *)
Definition force (st : t real) (ref : string) : R := forceNorm_ (get st ref).
Definition ascendingForces (st : t real) (s : list string) : Prop :=
  StronglySorted (fun ref1 ref2 => (force st ref1 < force st ref2)%R) s.

End Odometry.

(** ** Concrete inputs

    The inputs are built from the numbers 0, 1 and 2 by the operations of the
    arithmetic, so that they exist for every arithmetic; they are run with
    binary64 numbers. *)

Module Inputs.
Import Eigen LeggedOdometry.

Section WithDouble.
Context {K : Double}.

Definition two : double := dadd d1 d1.

Definition leftFoot : string := "LeftFootForceSensor".
Definition rightFoot : string := "RightFootForceSensor".
Definition leftHand : string := "LeftHandForceSensor".
Definition torso : string := "TorsoForceSensor".

Definition identityPose : PTransformd K := mkPTransformd Identity Zero.

(** A stand-in for the state-observation library, with which the odometry
    can be run: kinematics are composed by adding the positions and
    multiplying the orientations, the rotation vector of a matrix is its
    diagonal, a rotation vector is turned into the diagonal matrix of its
    components, and merging a tilt with a yaw returns the second
    orientation. *)
Definition standIn : StateObservation K :=
  mkStateObservation (Vector3 K)
    (fun a b => mkKinematics (vadd (position a) (position b))
                  (mmul (orientation a) (orientation b)))
    (fun a => mkKinematics (vsub Zero (position a)) (transpose (orientation a)))
    (fun m => V3 (vx (row0 m)) (vy (row1 m)) (vz (row2 m)))
    (fun v => v)
    (fun v => M3 (V3 (vx v) d0 d0) (V3 d0 (vy v) d0) (V3 d0 d0 (vz v)))
    (fun _ yaw => yaw)
    (fun p _ => mkKinematics (translation p) (transpose (rotation p))).

(** A robot standing still: every sensor is attached to the body [body] at
    the origin of that body, every body and every surface is at the pose
    of the floating base, which is at height 1, and no sensor measures a
    force besides gravity. *)
Definition basePose : PTransformd K := mkPTransformd Identity (V3 d0 d0 d1).
Definition ctl : MCController K :=
  mkMCController (fun _ => "body") (fun _ => identityPose) (fun _ _ => Zero)
    basePose (mkMotionVecd Zero Zero) (mkMotionVecd Zero Zero)
    (fun base _ => base) (fun base _ => base).

(** A contact named [name], anchored at [ref], with the given flag
    [wasAlreadySet_] and force norm. *)
Definition contact (id : Z) (name : string) (wasAlreadySet : bool)
    (ref : Vector3 K) (force : double) : LoContactWithSensor K :=
  mkContact id name "" true wasAlreadySet (mkKinematics ref Identity) false
    force Identity.

Definition manager (contacts : list (LoContactWithSensor K))
    (found removed : list Z) : LeggedOdometryContactsManager K :=
  mkManager
    (ContactsManager.mk
       (list_to_map ((fun c => (name_ c, c)) <$> contacts))
       (name_ <$> contacts) (Z.of_nat (length contacts))
       ContactsManager.Sensors found found removed)
    [].

Definition odometry (odometry6d : bool)
    (contacts : list (LoContactWithSensor K)) (found removed : list Z) : t K :=
  mk "odometry" odometry6d true basePose (manager contacts found removed)
     (mkRobot basePose basePose) true.

(** Two feet: the left one is maintained and measures a force of 2, the
    right one is set during this very cycle and measures a force of 1. *)
Definition freshRightFoot : t K :=
  odometry true
    [contact 0 leftFoot true (V3 d0 d1 d0) two;
     contact 1 rightFoot false Zero d1]
    [0; 1] [].

(** One foot, set during this very cycle. *)
Definition freshLeftFoot : t K :=
  odometry true [contact 0 leftFoot false Zero d1] [0] [].

(** Three maintained contacts with forces 1, 2 and 2. *)
Definition equalForces : t K :=
  odometry true
    [contact 0 leftFoot true Zero d1;
     contact 1 rightFoot true Zero two;
     contact 2 torso true Zero two]
    [0; 1; 2] [].

(** Two maintained feet that measure the same force, 2; the right foot was
    anchored with a yaw of a quarter turn. *)
Definition quarterTurn : Matrix3 K :=
  M3 (V3 d0 (dsub d0 d1) d0) (V3 d1 d0 d0) (V3 d0 d0 d1).
Definition equalFeet : t K :=
  odometry true
    [contact 0 leftFoot true Zero two;
     set_worldRefKine (mkKinematics Zero quarterTurn)
       (contact 1 rightFoot true Zero two)]
    [0; 1] [].

(** Two maintained feet with forces 2 and 1, a removed hand, and flat
    odometry. *)
Definition twoFeet : t K :=
  odometry false
    [contact 0 leftFoot true (V3 d1 d0 d0) two;
     contact 1 rightFoot true (V3 d0 d1 d0) d1;
     contact 2 leftHand false Zero d0]
    [0; 1] [2].

(** No maintained contact: a foot set during this very cycle and a
    removed hand, in flat odometry. *)
Definition noMaintainedContact : t K :=
  odometry false
    [contact 0 leftFoot false Zero two;
     contact 1 leftHand false Zero d0]
    [0] [1].

(** One maintained foot that measures a force of 1. *)
Definition oneFoot : t K :=
  odometry true [contact 0 leftFoot true (V3 d1 d0 d0) d1] [0] [].


(** One maintained foot, without yaw estimation. *)
Definition withoutYaw : t K :=
  mk "odometry" true false basePose
     (manager [contact 0 leftFoot true (V3 d1 d0 d0) d1] [0] [])
     (mkRobot basePose basePose) true.

End WithDouble.
End Inputs.

(** * Properties *)

(** ** Loops *)

Lemma foldl_ext_elem {A B} (f g : A -> B -> A) (l : list B) (a : A) :
  (forall x acc, x ∈ l -> f acc x = g acc x) -> foldl f a l = foldl g a l.
Proof.
  revert a. induction l as [|x l IH]; intros a Hfg; simpl; [done|].
  rewrite (Hfg x a) by left. apply IH. intros y acc Hy. apply Hfg. by right.
Qed.

Lemma forEach_app {A S} (body : A -> S -> Result S) l1 l2 s :
  forEach body (l1 ++ l2) s = (s' ← forEach body l1 s; forEach body l2 s').
Proof.
  revert s; induction l1 as [|x l1 IH]; intros s; simpl; [done|].
  destruct (body x s); simpl; [apply IH|done].
Qed.

(** A loop whose body does not throw on the states that satisfy an invariant
    runs to completion and re-establishes the invariant. *)
Lemma forEach_invariant {A S} (body : A -> S -> Result S) (I : S -> Prop) l s :
  I s ->
  (forall x s0, x ∈ l -> I s0 -> exists s1, body x s0 = Ok s1 /\ I s1) ->
  exists s', forEach body l s = Ok s' /\ I s'.
Proof.
  revert s; induction l as [|x l IH]; intros s Hs Hbody; simpl.
  - eauto.
  - destruct (Hbody x s) as (s1 & -> & Hs1); [left|done|]. simpl.
    apply IH; [done|]. intros y s0 Hy. apply Hbody. by right.
Qed.

(** ** The detection modes *)

Section DetectionModes.
Import ContactsManager.

Lemma strToContactsDetection_lookup (str : string) :
  strToContactsDetection !! str =
    if decide (str = "Solver") then Some Solver
    else if decide (str = "Surfaces") then Some Surfaces
    else if decide (str = "Sensors") then Some Sensors
    else if decide (str = "Undefined") then Some Undefined
    else None.
Proof.
  unfold strToContactsDetection.
  repeat (destruct (decide _) as [->|?]; [reflexivity|]).
  apply not_elem_of_list_to_map_1. simpl. intros Hin.
  repeat (apply elem_of_cons in Hin as [->|Hin]; [done|]).
  by apply elem_of_nil in Hin.
Qed.

(** The conversion of every string: the four keys of the table
    [strToContactsDetection] are converted to their detection modes, and
    every other string raises [std::runtime_error] with the message that
    lists the modes Surfaces, Sensors and Solver. *)
Lemma stringToContactsDetection_spec (str : string) :
  (str = "Solver" /\ stringToContactsDetection str = Ok Solver)
  \/ (str = "Surfaces" /\ stringToContactsDetection str = Ok Surfaces)
  \/ (str = "Sensors" /\ stringToContactsDetection str = Ok Sensors)
  \/ (str = "Undefined" /\ stringToContactsDetection str = Ok Undefined)
  \/ ((str ∉ ["Solver"; "Surfaces"; "Sensors"; "Undefined"])
      /\ stringToContactsDetection str = Throw (runtime_error notAllowedMessage)).
Proof.
  unfold stringToContactsDetection, count, map_at.
  rewrite strToContactsDetection_lookup.
  repeat (destruct (decide _) as [->|?]; [simpl; tauto|]).
  simpl. do 4 right. split; [|done]. intros Hin.
  repeat (apply elem_of_cons in Hin as [->|Hin]; [done|]).
  by apply elem_of_nil in Hin.
Qed.


End DetectionModes.

(** ** The registry *)

Section RegistryFacts.
Import ContactsManager Odometry.
Context {K : Double}.

Local Abbreviation Contact := (LeggedOdometry.LoContactWithSensor K).
Local Abbreviation add :=
  (addContactToManager (ContactT:=Contact) LeggedOdometry.newContact).

Lemma sequentialIds_empty : sequentialIds ContactsManager.empty.
Proof.
  split; [done|]. split.
  - intros name c Hc. simpl in Hc. by rewrite lookup_empty in Hc.
  - intros i name Hi. simpl in Hi. by rewrite lookup_nil in Hi.
Qed.

Lemma sequentialIds_add m name surface :
  sequentialIds m -> sequentialIds (add m name surface).1.
Proof.
  intros (Hidx & Hid & Hpos). unfold addContactToManager.
  destruct (listContacts_ m !! name) as [c|] eqn:Hname; simpl; [done|].
  split; [|split]; simpl.
  - rewrite length_app, Nat2Z.inj_add. simpl. lia.
  - intros n c. destruct (decide (n = name)) as [->|Hn].
    + rewrite lookup_insert_eq. intros [= <-]. simpl. split; [lia|].
      rewrite Hidx, Nat2Z.id, lookup_app_r by lia.
      by rewrite Nat.sub_diag.
    + rewrite lookup_insert_ne by done. intros Hc.
      destruct (Hid n c Hc) as [H0 Hi]. split; [done|].
      by apply lookup_app_l_Some.
  - intros i n Hi. apply lookup_app_Some in Hi as [Hi|[Hlen Hi]].
    + destruct (Hpos i n Hi) as (c & Hc & Hci). exists c. split; [|done].
      rewrite lookup_insert_ne; [done|]. intros <-.
      rewrite Hname in Hc. discriminate.
    + apply list_lookup_singleton_Some in Hi as [Hi <-].
      rewrite lookup_insert_eq. eexists; split; [done|]. simpl. lia.
Qed.

Lemma reachable_sequentialIds m :
  reachable LeggedOdometry.newContact m -> sequentialIds m.
Proof.
  induction 1; [apply sequentialIds_empty|by apply sequentialIds_add].
Qed.

(** C8: adding a contact twice under the same name returns the same
    reference to the same contact and leaves the manager, hence the counter
    [idx_] and the insertion order, as the first call left it.  On the first
    insertion of a name the contact receives the identifier [idx_], the
    counter is incremented and the name is appended to the insertion order;
    in a manager built by such calls, the identifier of a contact is its
    position in the insertion order, so that identifiers follow the order of
    insertion and no two names share one. *)
Theorem addContactToManager_idempotent
    (m : ContactsManager.t Contact) (name surface surface' : string) :
  let first := add m name surface in
  let second := add first.1 name surface' in
  (second.2 = first.2
   /\ second.1 = first.1
   /\ is_Some (listContacts_ first.1 !! first.2)
   /\ listContacts_ second.1 !! second.2 = listContacts_ first.1 !! first.2
   /\ idx_ second.1 = idx_ first.1
   /\ insertOrder_ second.1 = insertOrder_ first.1)
  /\ (listContacts_ m !! name = None ->
      listContacts_ first.1 !! name
        = Some (LeggedOdometry.newContact (idx_ m) name surface)
      /\ LeggedOdometry.id_
           (LeggedOdometry.newContact (K:=K) (idx_ m) name surface) = idx_ m
      /\ idx_ first.1 = idx_ m + 1
      /\ insertOrder_ first.1 = (insertOrder_ m ++ [name])%list)
  /\ (listContacts_ m !! name <> None -> first.1 = m)
  /\ (reachable LeggedOdometry.newContact m ->
      sequentialIds first.1
      /\ forall n1 n2 c1 c2,
           listContacts_ first.1 !! n1 = Some c1 ->
           listContacts_ first.1 !! n2 = Some c2 ->
           LeggedOdometry.id_ c1 = LeggedOdometry.id_ c2 -> n1 = n2).
Proof.
  intros first second.
  assert (Hin : is_Some (listContacts_ first.1 !! name)).
  { subst first. unfold addContactToManager.
    destruct (listContacts_ m !! name) eqn:E; simpl; [by rewrite E|].
    by rewrite lookup_insert_eq. }
  assert (Hsecond : second = (first.1, name)).
  { subst second. unfold addContactToManager at 1.
    by destruct Hin as [c ->]. }
  assert (Hfirst : first.2 = name).
  { subst first. unfold addContactToManager.
    by destruct (listContacts_ m !! name). }
  split; [|split; [|split]].
  - rewrite Hsecond, Hfirst. simpl. by repeat split.
  - intros Hnone. subst first. unfold addContactToManager.
    rewrite Hnone. simpl. by rewrite lookup_insert_eq.
  - intros Hsome. subst first. unfold addContactToManager.
    by destruct (listContacts_ m !! name).
  - intros Hreach.
    pose proof (sequentialIds_add m name surface
                  (reachable_sequentialIds m Hreach)) as Hseq.
    split; [done|].
    intros n1 n2 c1 c2 H1 H2 Hid.
    destruct Hseq as (_ & Hseq & _).
    destruct (Hseq n1 c1 H1) as [_ Hn1].
    destruct (Hseq n2 c2 H2) as [_ Hn2].
    rewrite Hid in Hn1. congruence.
Qed.

End RegistryFacts.

(** ** The classification of the contacts *)

Section ClassifierFacts.
Import ContactsManager Classifier.

(** C6: for a previous active set [P] and a new active set [N], the
    classifier yields [new = N \ P], [maintained = N ∩ P] and
    [removed = P \ N]; the three are pairwise disjoint and cover [P ∪ N]
    exactly; and the callbacks are invoked for each new contact, then for
    each maintained contact, then for each removed contact (once per
    contact when [P] and [N] have no repetition). *)
Theorem classification_partition (P N : ContactsSet) :
  (forall id, id ∈ newContacts P N <-> id ∈ N /\ id ∉ P)
  /\ (forall id, id ∈ maintainedContacts P N <-> id ∈ N /\ id ∈ P)
  /\ (forall id, id ∈ Classifier.removedContacts P N <-> id ∈ P /\ id ∉ N)
  /\ (forall id, ~ (id ∈ newContacts P N /\ id ∈ maintainedContacts P N))
  /\ (forall id, ~ (id ∈ newContacts P N /\ id ∈ Classifier.removedContacts P N))
  /\ (forall id,
        ~ (id ∈ maintainedContacts P N /\ id ∈ Classifier.removedContacts P N))
  /\ (forall id,
        id ∈ newContacts P N \/ id ∈ maintainedContacts P N
        \/ id ∈ Classifier.removedContacts P N
        <-> id ∈ P \/ id ∈ N)
  /\ (forall S (onNew onMaintained onRemoved : Z -> S -> S) (s : S),
        updateContacts onNew onMaintained onRemoved P N s
        = foldl (invoke onNew onMaintained onRemoved) s
            ((OnNewContact <$> newContacts P N)
             ++ (OnMaintainedContact <$> maintainedContacts P N)
             ++ (OnRemovedContact <$> Classifier.removedContacts P N)))
  /\ updateContacts (fun id calls => calls ++ [OnNewContact id])
       (fun id calls => calls ++ [OnMaintainedContact id])
       (fun id calls => calls ++ [OnRemovedContact id]) P N []
     = updateContacts_calls P N
  /\ (NoDup P -> NoDup N -> NoDup (updateContacts_calls P N)).
Proof.
  unfold newContacts, maintainedContacts, Classifier.removedContacts.
  assert (Hnew := fun id => list_elem_of_difference N P id).
  assert (Hmaintained := fun id => list_elem_of_intersection N P id).
  assert (Hremoved := fun id => list_elem_of_difference P N id).
  assert (Hfold : forall S (onNew onMaintained onRemoved : Z -> S -> S) (s : S),
             updateContacts onNew onMaintained onRemoved P N s
             = foldl (invoke onNew onMaintained onRemoved) s
                 (updateContacts_calls P N)).
  { intros S onNew onMaintained onRemoved s.
    unfold updateContacts, updateContacts_calls.
    by rewrite !foldl_app, !foldl_fmap. }
  split; [done|]. split; [done|]. split; [done|].
  split; [intros id; rewrite Hnew, Hmaintained; tauto|].
  split; [intros id; rewrite Hnew, Hremoved; tauto|].
  split; [intros id; rewrite Hmaintained, Hremoved; tauto|].
  split.
  { intros id. rewrite Hnew, Hmaintained, Hremoved.
    destruct (decide (id ∈ P)), (decide (id ∈ N)); tauto. }
  split; [exact Hfold|]. split.
  - rewrite Hfold.
    assert (Hrecord : forall calls acc,
               foldl (invoke (fun id calls => calls ++ [OnNewContact id])
                        (fun id calls => calls ++ [OnMaintainedContact id])
                        (fun id calls => calls ++ [OnRemovedContact id]))
                 acc calls = acc ++ calls).
    { induction calls as [|c calls IH]; intros acc; simpl.
      - by rewrite app_nil_r.
      - rewrite IH. destruct c; simpl; by rewrite <- app_assoc. }
    by rewrite Hrecord.
  - intros HP HN. unfold updateContacts_calls.
    unfold newContacts, maintainedContacts, Classifier.removedContacts.
    apply NoDup_app. split; [|split].
    + apply NoDup_fmap_2_strong; [by intros ?? _ _ [=]|].
      by apply NoDup_list_difference.
    + intros c [id [-> Hid]]%list_elem_of_fmap Hc.
      apply elem_of_app in Hc as [Hc|Hc];
        apply list_elem_of_fmap in Hc as [id' [Heq _]]; discriminate.
    + apply NoDup_app. split; [|split].
      * apply NoDup_fmap_2_strong; [by intros ?? _ _ [=]|].
        by apply NoDup_list_intersection.
      * intros c [id [-> Hid]]%list_elem_of_fmap Hc.
        apply list_elem_of_fmap in Hc as [id' [Heq _]]; discriminate.
      * apply NoDup_fmap_2_strong; [by intros ?? _ _ [=]|].
        by apply NoDup_list_difference.
Qed.

End ClassifierFacts.

(** ** The odometry: contacts read and written through references *)

Section References.
Import Eigen LeggedOdometry Odometry.
Context {K : Double}.
Implicit Types (st : t K) (ref : string) (c : LoContactWithSensor K).

Lemma listContacts_update ref f st :
  listContacts (update ref f st) = alter f ref (listContacts st).
Proof. reflexivity. Qed.

Lemma lookup_update_is_Some ref f st k :
  is_Some (listContacts (update ref f st) !! k) <-> is_Some (listContacts st !! k).
Proof. rewrite listContacts_update. apply lookup_alter_is_Some. Qed.

Lemma get_update_eq ref f st :
  is_Some (listContacts st !! ref) -> get (update ref f st) ref = f (get st ref).
Proof.
  intros [c Hc]. unfold get. rewrite listContacts_update, lookup_total_alter_eq.
  rewrite Hc. simpl. by rewrite (lookup_total_correct _ _ _ Hc).
Qed.

Lemma get_update_ne ref f st k :
  ref <> k -> get (update ref f st) k = get st k.
Proof.
  intros Hne. unfold get. by rewrite listContacts_update, lookup_total_alter_ne.
Qed.

(** A field that [f] does not write is read the same after the update,
    through every reference. *)
Lemma get_update_field {A} (g : LoContactWithSensor K -> A) ref f st k :
  (forall c, g (f c) = g c) -> g (get (update ref f st) k) = g (get st k).
Proof.
  intros Hg. destruct (decide (ref = k)) as [->|Hne].
  - unfold get. rewrite listContacts_update, lookup_total_alter_eq.
    destruct (listContacts st !! k) as [c|] eqn:Hc; simpl.
    + by rewrite (lookup_total_correct _ _ _ Hc).
    + unfold lookup_total, map_lookup_total. by rewrite Hc.
  - by rewrite get_update_ne.
Qed.

Lemma contactWithSensorByName_Ok st name ref :
  contactWithSensorByName st name = Ok ref <->
  ref = name /\ is_Some (listContacts st !! name).
Proof.
  unfold contactWithSensorByName, ContactsManager.contact, ContactsManager.map_at.
  unfold listContacts.
  destruct (ContactsManager.listContacts_ _ !! name) as [c|]; simpl.
  - split; [intros [= <-]; eauto|intros [-> _]; done].
  - split; [done|intros [_ [? ?]]; done].
Qed.

Lemma contactWithSensor_Ok st idx ref :
  contactWithSensor st idx = Ok ref -> is_Some (listContacts st !! ref).
Proof.
  unfold contactWithSensor, ContactsManager.contactByIdx.
  destruct (ContactsManager.getNameFromIdx _ idx) as [name|]; simpl; [|done].
  intros H. by apply (contactWithSensorByName_Ok st name ref) in H as [-> ?].
Qed.

(** *** States that differ by the contents of their contacts only *)

Lemma sameRegistry_refl st : sameRegistry st st.
Proof. by constructor. Qed.

Lemma sameRegistry_trans st1 st2 st3 :
  sameRegistry st1 st2 -> sameRegistry st2 st3 -> sameRegistry st1 st3.
Proof.
  intros [] []. constructor; try congruence.
  all: intros k; etransitivity; eauto.
Qed.

Lemma samePose_refl st : samePose st st.
Proof. by split. Qed.

Lemma samePose_trans st1 st2 st3 :
  samePose st1 st2 -> samePose st2 st3 -> samePose st1 st3.
Proof. intros [] []. split; congruence. Qed.

Lemma agree_refl {A} (g : LoContactWithSensor K -> A) st : agree g st st.
Proof. by intros k. Qed.

Lemma agree_trans {A} (g : LoContactWithSensor K -> A) st1 st2 st3 :
  agree g st1 st2 -> agree g st2 st3 -> agree g st1 st3.
Proof. intros H1 H2 k. by rewrite H2, H1. Qed.

Lemma agree_compose {A B} (g : LoContactWithSensor K -> A) (h : A -> B) st st' :
  agree g st st' -> agree (fun c => h (g c)) st st'.
Proof. intros H k. simpl. by rewrite H. Qed.

Lemma sameRegistry_update ref f st :
  (forall c, name_ (f c) = name_ c) -> sameRegistry st (update ref f st).
Proof.
  intros Hf. constructor; try reflexivity.
  - intros k. apply lookup_update_is_Some.
  - intros k. by apply get_update_field.
Qed.

Lemma agree_update {A} (g : LoContactWithSensor K -> A) ref f st :
  (forall c, g (f c) = g c) -> agree g st (update ref f st).
Proof. intros Hg k. by apply get_update_field. Qed.

Lemma sameRegistry_set_oriOdometryContacts s st :
  sameRegistry st (set_oriOdometryContacts s st).
Proof. by constructor. Qed.

Lemma sameRegistry_contactWithSensor st st' idx :
  sameRegistry st st' -> contactWithSensor st' idx = contactWithSensor st idx.
Proof.
  intros H. unfold contactWithSensor, ContactsManager.contactByIdx.
  unfold ContactsManager.getNameFromIdx. rewrite (same_insertOrder _ _ H).
  destruct (ContactsManager.vector_at _ idx) as [name|]; simpl; [|done].
  pose proof (same_domain _ _ H name) as Hdom. unfold listContacts in Hdom.
  unfold ContactsManager.contact, ContactsManager.map_at.
  destruct (ContactsManager.listContacts_ (registry (contactsManager_ st')) !! name),
    (ContactsManager.listContacts_ (registry (contactsManager_ st)) !! name);
    simpl; try done; exfalso.
  - destruct Hdom as [Hdom _]. by destruct (Hdom ltac:(eauto)).
  - destruct Hdom as [_ Hdom]. by destruct (Hdom ltac:(eauto)).
Qed.

Lemma sameRegistry_contactWithSensorByName st st' name :
  sameRegistry st st' ->
  contactWithSensorByName st' name = contactWithSensorByName st name.
Proof.
  intros H. pose proof (same_domain _ _ H name) as Hdom.
  unfold listContacts in Hdom.
  unfold contactWithSensorByName, ContactsManager.contact, ContactsManager.map_at.
  destruct (ContactsManager.listContacts_ (registry (contactsManager_ st')) !! name),
    (ContactsManager.listContacts_ (registry (contactsManager_ st)) !! name);
    simpl; try done; exfalso.
  - destruct Hdom as [Hdom _]. by destruct (Hdom ltac:(eauto)).
  - destruct Hdom as [_ Hdom]. by destruct (Hdom ltac:(eauto)).
Qed.

Lemma sameRegistry_resolved st st' idx :
  sameRegistry st st' -> resolved st idx -> resolved st' idx.
Proof.
  intros H (ref & Href & Hname). exists ref.
  rewrite (sameRegistry_contactWithSensor st st' idx H). split; [done|].
  rewrite (same_names _ _ H). by apply (same_domain _ _ H).
Qed.

Lemma sameRegistry_foundContacts st st' :
  sameRegistry st st' -> foundContacts st' = foundContacts st.
Proof.
  intros H. unfold foundContacts. rewrite (same_contactsFound _ _ H).
  induction (contactsFound st) as [|idx l IH]; csimpl; [done|].
  by rewrite (sameRegistry_contactWithSensor st st' idx H), IH.
Qed.

End References.

(** ** Anchoring a newly set contact *)

Section NewContacts.
Import Eigen LeggedOdometry Odometry.
Context {K : Double} {so : StateObservation K}.
Implicit Types (st : t K) (ref : string) (c : LoContactWithSensor K).

Lemma assignRefKine_Ok name f st :
  is_Some (listContacts st !! name) ->
  assignRefKine name f st
  = Ok (update name (fun c => set_worldRefKine (f (worldRefKine_ c)) c) st).
Proof.
  intros Hname. unfold assignRefKine.
  assert (contactWithSensorByName st name = Ok name) as ->
    by by apply contactWithSensorByName_Ok.
  reflexivity.
Qed.

Lemma assigned_sameRegistry name f st : sameRegistry st (assigned name f st).
Proof. by apply sameRegistry_update. Qed.

Lemma assigned_agree name f st : agree withoutRefKine st (assigned name f st).
Proof. by apply agree_update. Qed.

Lemma assigned_get name f st :
  is_Some (listContacts st !! name) ->
  worldRefKine_ (get (assigned name f st) name) = f (worldRefKine_ (get st name)).
Proof. intros H. unfold assigned. by rewrite get_update_eq. Qed.

(** [setNewContact] does not throw when the sensor bears the name of a
    contact; it writes the reference kinematics of contacts and nothing
    else; in flat odometry the anchor of the contact has height zero. *)
Lemma setNewContact_Ok ctl (fs : ForceSensor K) st :
  is_Some (listContacts st !! fs_name fs) ->
  exists st',
    setNewContact ctl fs st = Ok st'
    /\ sameRegistry st st' /\ samePose st st' /\ agree withoutRefKine st st'
    /\ (odometry6d_ st = false ->
        vz (position (worldRefKine_ (get st' (fs_name fs)))) = d0).
Proof.
  intros Hname. unfold setNewContact.
  set (kept := fun st0 =>
                 sameRegistry st st0 /\ samePose st st0
                 /\ agree withoutRefKine st st0).
  assert (Hkept : kept st)
    by (split; [apply sameRegistry_refl|split; [apply samePose_refl|apply agree_refl]]).
  assert (Heq : forall f st0,
             kept st0 ->
             assignRefKine (fs_name fs) f st0 = Ok (assigned (fs_name fs) f st0)).
  { intros f st0 (Hreg & _). apply assignRefKine_Ok.
    by apply (same_domain _ _ Hreg). }
  assert (Hstep : forall f st0, kept st0 -> kept (assigned (fs_name fs) f st0)).
  { intros f st0 (Hreg & Hpose & Hagree). split; [|split].
    - eapply sameRegistry_trans; [done|apply assigned_sameRegistry].
    - done.
    - eapply agree_trans; [done|apply assigned_agree]. }
  match goal with
  | |- exists st', mbind _ ?first = Ok st' /\ _ =>
      assert (Hfirst : exists st1, first = Ok st1 /\ kept st1)
  end.
  { destruct (detectionFromThreshold_ st); cbv zeta.
    - rewrite Heq by done. simpl. rewrite Heq by by apply Hstep.
      eexists. split; [done|]. by do 2 apply Hstep.
    - assert (contactWithSensorByName st (fs_name fs) = Ok (fs_name fs)) as ->
        by by apply contactWithSensorByName_Ok.
      simpl. rewrite Heq by done. simpl. rewrite Heq by by apply Hstep.
      eexists. split; [done|]. by do 2 apply Hstep. }
  destruct Hfirst as (st1 & -> & Hkept1). simpl.
  pose proof Hkept1 as (Hreg & Hpose & Hagree).
  rewrite (same_odometry6d _ _ Hreg).
  destruct (odometry6d_ st) eqn:H6d; simpl.
  - exists st1. do 4 (split; [done|]). done.
  - rewrite Heq by done. eexists. split; [done|].
    destruct (Hstep (fun k => set_position (set_z d0 (position k)) k) st1 Hkept1)
      as (Hreg' & Hpose' & Hagree').
    do 3 (split; [done|]).
    intros _. rewrite assigned_get by by apply (same_domain _ _ Hreg).
    reflexivity.
Qed.

(** C7: in flat odometry ([odometry6d_] false), the reference kinematics
    that [setNewContact] computes for a contact has a vertical coordinate
    equal to zero, whatever the pose read from the kinematic model, and
    whether the detection relies on thresholds or on surfaces
    ([detectionFromThreshold_] is any boolean). *)
Theorem setNewContact_flat ctl (fs : ForceSensor K) st :
  odometry6d_ st = false ->
  is_Some (listContacts st !! fs_name fs) ->
  exists st',
    setNewContact ctl fs st = Ok st'
    /\ is_Some (listContacts st' !! fs_name fs)
    /\ vz (position (worldRefKine_ (get st' (fs_name fs)))) = d0.
Proof.
  intros H6d Hname.
  destruct (setNewContact_Ok ctl fs st Hname) as (st' & Hst' & Hreg & _ & _ & Hz).
  exists st'. split; [done|]. split; [by apply (same_domain _ _ Hreg)|auto].
Qed.

End NewContacts.

(** ** The selection of the contacts used for the orientation *)

Section Selection.
Import Eigen LeggedOdometry Odometry.
Context {K : Double}.
Implicit Types (st : t K) (ref : string) (c : LoContactWithSensor K).

Lemma selectionFrame_refl st : selectionFrame st st.
Proof.
  split; [apply sameRegistry_refl|split; [apply samePose_refl|apply agree_refl]].
Qed.

Lemma selectionFrame_trans st1 st2 st3 :
  selectionFrame st1 st2 -> selectionFrame st2 st3 -> selectionFrame st1 st3.
Proof.
  intros (? & ? & ?) (? & ? & ?). split; [|split].
  - by eapply sameRegistry_trans.
  - by eapply samePose_trans.
  - by eapply agree_trans.
Qed.

Lemma selectionFrame_flag ref b st :
  selectionFrame st (update ref (set_useForOrientation b) st).
Proof.
  split; [|split].
  - by apply sameRegistry_update.
  - by split.
  - by apply agree_update.
Qed.

Lemma selectionFrame_set_oriOdometryContacts s st :
  selectionFrame st (set_oriOdometryContacts s st).
Proof.
  split; [apply sameRegistry_set_oriOdometryContacts|].
  split; [by split|by intros k].
Qed.

(** The fields of a contact other than the flag. *)
Lemma selectionFrame_fields st st' k :
  selectionFrame st st' ->
  name_ (get st' k) = name_ (get st k)
  /\ surface (get st' k) = surface (get st k)
  /\ wasAlreadySet_ (get st' k) = wasAlreadySet_ (get st k)
  /\ worldRefKine_ (get st' k) = worldRefKine_ (get st k)
  /\ forceNorm_ (get st' k) = forceNorm_ (get st k)
  /\ currentWorldOrientation_ (get st' k) = currentWorldOrientation_ (get st k).
Proof.
  intros (_ & _ & Hagree). specialize (Hagree k). unfold withoutFlag in Hagree.
  destruct (get st' k), (get st k). simpl in *. by injection Hagree as -> -> -> -> -> -> -> ->.
Qed.

Lemma evictLowestForces_spec s st :
  selectionFrame st (evictLowestForces s st)
  /\ oriOdometryContacts (evictLowestForces s st) = drop (length s - 2) s.
Proof.
  revert st. induction s as [|ref s IH]; intros st.
  - split; [apply selectionFrame_set_oriOdometryContacts|done].
  - cbn [evictLowestForces].
    destruct (Z.ltb_spec 2 (Z.of_nat (length (ref :: s)))) as [Hlt|Hle].
    + destruct (IH (update ref (set_useForOrientation false) st)) as [Hframe Hori].
      split.
      * eapply selectionFrame_trans; [apply selectionFrame_flag|done].
      * rewrite Hori. simpl in Hlt. simpl length.
        replace (S (length s) - 2)%nat with (S (length s - 2)) by lia.
        reflexivity.
    + split; [apply selectionFrame_set_oriOdometryContacts|].
      simpl in Hle. simpl length.
      replace (S (length s) - 2)%nat with 0%nat by lia. reflexivity.
Qed.

Lemma selectContact_Ok idx st :
  resolved st idx ->
  exists st', selectContact idx st = Ok st' /\ selectionFrame st st'.
Proof.
  intros (ref & Href & _). unfold selectContact. rewrite Href. simpl.
  destruct (index 0 "Hand" (name_ (get st ref))).
  - eexists. split; [done|apply selectionFrame_refl].
  - eexists. split; [done|].
    eapply selectionFrame_trans; [apply selectionFrame_flag|].
    apply selectionFrame_set_oriOdometryContacts.
Qed.

(** The selection does not throw when the found contacts are registered; it
    writes the flags [useForOrientation_] and the set of the contacts used
    for the orientation, which holds at most two contacts afterwards. *)
Lemma selectForOrientationOdometry_Ok st :
  (forall idx, idx ∈ contactsFound st -> resolved st idx) ->
  exists st',
    selectForOrientationOdometry st = Ok st'
    /\ selectionFrame st st'
    /\ (length (oriOdometryContacts st') <= 2)%nat.
Proof.
  intros Hfound. unfold selectForOrientationOdometry.
  destruct (forEach_invariant selectContact
              (selectionFrame (set_oriOdometryContacts [] st))
              (contactsFound (set_oriOdometryContacts [] st))
              (set_oriOdometryContacts [] st))
    as (st1 & -> & Hframe1).
  - apply selectionFrame_refl.
  - intros idx s0 Hidx Hs0.
    destruct (selectContact_Ok idx s0) as (s1 & Hs1 & Hframe).
    + destruct Hs0 as (Hreg & _).
      apply (sameRegistry_resolved _ _ _ Hreg). apply (Hfound idx Hidx).
    + exists s1. split; [done|]. by eapply selectionFrame_trans.
  - simpl.
    destruct (evictLowestForces_spec (oriOdometryContacts st1) st1) as [Hframe Hori].
    eexists. split; [done|]. split.
    + eapply selectionFrame_trans; [apply selectionFrame_set_oriOdometryContacts|].
      by eapply selectionFrame_trans.
    + rewrite Hori, length_drop. lia.
Qed.

End Selection.

(** ** The order of the selected contacts, with real numbers *)

Section SelectionOrder.
Import Eigen LeggedOdometry Odometry.
Local Existing Instance real.
Local Open Scope R_scope.
Implicit Types (st : t real) (ref : string) (s : list string).

Lemma sortByForce_lt (c1 c2 : LoContactWithSensor real) :
  sortByForce c1 c2 = true <-> forceNorm_ c1 < forceNorm_ c2.
Proof.
  unfold sortByForce. simpl. destruct (Rlt_dec _ _); split; (done || lra).
Qed.

Lemma set_insert_elem {K : Double} (contacts : gmap string (LoContactWithSensor K))
    ref s x :
  x ∈ set_insert contacts ref s -> x = ref \/ x ∈ s.
Proof.
  induction s as [|ref' s IH]; simpl.
  - intros ->%list_elem_of_singleton. by left.
  - destruct (sortByForce _ _); [|destruct (sortByForce _ _)].
    + intros [->|Hx]%elem_of_cons; [by left|by right].
    + intros [->|Hx]%elem_of_cons; [right; left|].
      destruct (IH Hx) as [->|?]; [by left|right; by right].
    + by right.
Qed.

Lemma set_insert_keeps {K : Double} (contacts : gmap string (LoContactWithSensor K))
    ref s x :
  x ∈ s -> x ∈ set_insert contacts ref s.
Proof.
  induction s as [|ref' s IH]; simpl; [by intros ?%elem_of_nil|].
  destruct (sortByForce _ _); [|destruct (sortByForce _ _)].
  - intros Hx. by right.
  - intros [->|Hx]%elem_of_cons; [left|right; auto].
  - done.
Qed.

(** Insertion keeps the forces strictly increasing; [f] gives the force norm
    of the contacts of [contacts]. *)
Lemma set_insert_ascending (contacts : gmap string (LoContactWithSensor real))
    (f : string -> R) ref s :
  (forall k, f k = forceNorm_ (K:=real) (contacts !!! k)) ->
  StronglySorted (fun a b => f a < f b) s ->
  StronglySorted (fun a b => f a < f b) (set_insert contacts ref s).
Proof.
  intros Hf. induction s as [|ref' s IH]; intros Hs; cbn [set_insert].
  - repeat constructor.
  - apply StronglySorted_inv in Hs as [Hs Hall].
    destruct (sortByForce (contacts !!! ref) (contacts !!! ref')) eqn:Hlt.
    + apply sortByForce_lt in Hlt. rewrite <- !Hf in Hlt.
      constructor; [by constructor|].
      constructor; [done|]. eapply Forall_impl; [exact Hall|].
      intros y Hy. simpl in Hy. lra.
    + destruct (sortByForce (contacts !!! ref') (contacts !!! ref)) eqn:Hgt.
      * apply sortByForce_lt in Hgt. rewrite <- !Hf in Hgt.
        constructor; [by apply IH|].
        apply Forall_forall. intros y Hy.
        apply set_insert_elem in Hy as [->|Hy]; [done|].
        rewrite Forall_forall in Hall. by apply Hall.
      * by constructor.
Qed.

(** A contact whose force differs from the forces of the set is inserted. *)
Lemma set_insert_adds (contacts : gmap string (LoContactWithSensor real))
    (f : string -> R) ref s :
  (forall k, f k = forceNorm_ (K:=real) (contacts !!! k)) ->
  (forall y, y ∈ s -> f ref <> f y) ->
  ref ∈ set_insert contacts ref s.
Proof.
  intros Hf. induction s as [|ref' s IH]; intros Hs; cbn [set_insert]; [left|].
  destruct (sortByForce (contacts !!! ref) (contacts !!! ref')) eqn:Hlt; [left|].
  destruct (sortByForce (contacts !!! ref') (contacts !!! ref)) eqn:Hgt.
  - right. apply IH. intros y Hy. apply Hs. by right.
  - exfalso. apply (Hs ref'); [left|].
    apply not_true_iff_false in Hlt, Hgt. rewrite sortByForce_lt in Hlt, Hgt.
    rewrite <- !Hf in Hlt, Hgt. lra.
Qed.

End SelectionOrder.

Section SelectionLoop.
Import Eigen LeggedOdometry Odometry.
Local Existing Instance real.
Local Open Scope R_scope.
Implicit Types (st s : t real) (ref : string) (l : list Z).

Lemma selectionFrame_force st s k : selectionFrame st s -> force s k = force st k.
Proof.
  intros Hframe. unfold force.
  by destruct (selectionFrame_fields st s k Hframe) as (_ & _ & _ & _ & -> & _).
Qed.

Lemma ascendingForces_frame st s (refs : list string) :
  selectionFrame st s -> ascendingForces st refs -> ascendingForces s refs.
Proof.
  intros Hframe. unfold ascendingForces. induction 1 as [|x refs Hl IH Hall].
  - constructor.
  - constructor; [done|]. eapply Forall_impl; [done|].
    intros y Hy. simpl in *. by rewrite !(selectionFrame_force st s).
Qed.

Lemma eligibleAmong_frame st s l :
  selectionFrame st s -> eligibleAmong s l = eligibleAmong st l.
Proof.
  intros (Hreg & _). unfold eligibleAmong.
  replace (omap (fun idx => match contactWithSensor s idx with
                            | Ok ref => Some ref
                            | Throw _ => None
                            end) l)
    with (omap (fun idx => match contactWithSensor st idx with
                            | Ok ref => Some ref
                            | Throw _ => None
                            end) l).
  - apply list_filter_iff. intros ref. by rewrite (same_names _ _ Hreg).
  - induction l as [|idx l IH]; csimpl; [done|].
    by rewrite (sameRegistry_contactWithSensor st s idx Hreg), IH.
Qed.

Lemma eligibleAmong_cons st idx l :
  eligibleAmong st (idx :: l) = eligibleAmong st [idx] ++ eligibleAmong st l.
Proof.
  unfold eligibleAmong. csimpl. destruct (contactWithSensor st idx); simpl; [|done].
  rewrite !filter_cons, filter_nil. by destruct (decide _).
Qed.

Lemma eligibleAmong_registered st l ref :
  ref ∈ eligibleAmong st l -> is_Some (listContacts st !! ref).
Proof.
  unfold eligibleAmong. rewrite list_elem_of_filter, list_elem_of_omap.
  intros (_ & idx & _ & Hidx).
  destruct (contactWithSensor st idx) as [ref'|] eqn:Href; [|done].
  injection Hidx as ->. by apply (contactWithSensor_Ok st idx).
Qed.

(** One iteration of the first loop of the selection. *)
Lemma selectContact_ascending idx st s :
  resolved s idx -> selectionFrame st s ->
  ascendingForces st (oriOdometryContacts s) -> flagged s (oriOdometryContacts s) ->
  exists s',
    selectContact idx s = Ok s' /\ selectionFrame st s'
    /\ ascendingForces st (oriOdometryContacts s')
    /\ flagged s' (oriOdometryContacts s')
    /\ (forall x, x ∈ oriOdometryContacts s' ->
                  x ∈ oriOdometryContacts s \/ x ∈ eligibleAmong st [idx])
    /\ (forall x, x ∈ oriOdometryContacts s -> x ∈ oriOdometryContacts s')
    /\ ((forall x y, x ∈ eligibleAmong st [idx] -> y ∈ oriOdometryContacts s ->
                     force st x <> force st y) ->
        forall x, x ∈ eligibleAmong st [idx] -> x ∈ oriOdometryContacts s').
Proof.
  intros (ref & Href & _) Hframe Hsorted Hflagged.
  pose proof (contactWithSensor_Ok s idx ref Href) as Hdom.
  rewrite <- (eligibleAmong_frame st s [idx] Hframe).
  unfold selectContact, eligibleAmong. csimpl. rewrite Href. simpl.
  rewrite filter_cons, filter_nil.
  destruct (index 0 "Hand" (name_ (get s ref))) as [n|] eqn:Hname.
  - rewrite decide_False by done. exists s. split; [done|].
    do 3 (split; [done|]). split; [by left|]. split; [done|].
    by intros _ x ?%elem_of_nil.
  - rewrite decide_True by done.
    set (s1 := update ref (set_useForOrientation true) s).
    assert (Hframe1 : selectionFrame st s1)
      by (eapply selectionFrame_trans; [done|apply selectionFrame_flag]).
    assert (Hforce : forall k, force st k = forceNorm_ (K:=real) (listContacts s1 !!! k))
      by (intros k; symmetry; apply (selectionFrame_force st s1 k Hframe1)).
    eexists. split; [done|]. split; [|split; [|split; [|split; [|split]]]].
    + eapply selectionFrame_trans; [done|].
      apply selectionFrame_set_oriOdometryContacts.
    + by apply set_insert_ascending.
    + intros x Hx. cbn in Hx.
      change (is_Some (listContacts s1 !! x)
              /\ useForOrientation_ (get s1 x) = true).
      assert (Hreg : is_Some (listContacts s1 !! x)).
      { apply lookup_update_is_Some.
        apply set_insert_elem in Hx as [->|Hx]; [done|]. by apply Hflagged. }
      split; [done|]. destruct (decide (x = ref)) as [->|Hne].
      * unfold s1. by rewrite get_update_eq.
      * unfold s1. rewrite get_update_ne by done.
        apply set_insert_elem in Hx as [->|Hx]; [done|]. by apply Hflagged.
    + intros x Hx. cbn in Hx.
      apply set_insert_elem in Hx as [->|Hx]; [right; left|by left].
    + intros x Hx. cbn. by apply set_insert_keeps.
    + intros Hdistinct x ->%list_elem_of_singleton. cbn.
      apply (set_insert_adds _ (force st)); [done|].
      intros y Hy. apply Hdistinct; [left|done].
Qed.

(** The first loop of the selection: the set holds contacts that are found,
    whose name does not contain [Hand] and whose flag is set, by strictly
    increasing force; it holds all such contacts when their forces are
    pairwise distinct. *)
Lemma selectContacts_ascending l st s :
  (forall idx, idx ∈ l -> resolved s idx) -> selectionFrame st s ->
  ascendingForces st (oriOdometryContacts s) -> flagged s (oriOdometryContacts s) ->
  exists s',
    forEach selectContact l s = Ok s' /\ selectionFrame st s'
    /\ ascendingForces st (oriOdometryContacts s')
    /\ flagged s' (oriOdometryContacts s')
    /\ (forall x, x ∈ oriOdometryContacts s' ->
                  x ∈ oriOdometryContacts s \/ x ∈ eligibleAmong st l)
    /\ (forall x, x ∈ oriOdometryContacts s -> x ∈ oriOdometryContacts s')
    /\ (NoDup (force st <$> eligibleAmong st l) ->
        (forall x y, x ∈ eligibleAmong st l -> y ∈ oriOdometryContacts s ->
                     force st x <> force st y) ->
        forall x, x ∈ eligibleAmong st l -> x ∈ oriOdometryContacts s').
Proof.
  revert s. induction l as [|idx l IH]; intros s Hl Hframe Hsorted Hflagged.
  - exists s. split; [done|]. do 3 (split; [done|]). split; [by left|].
    split; [done|]. by intros _ _ x ?%elem_of_nil.
  - destruct (selectContact_ascending idx st s)
      as (s1 & Hstep & Hframe1 & Hsorted1 & Hflagged1 & Hfrom1 & Hkeep1 & Hadd1);
      [apply Hl; left|done..|].
    destruct (IH s1)
      as (s2 & Hloop & Hframe2 & Hsorted2 & Hflagged2 & Hfrom2 & Hkeep2 & Hadd2);
      [|done..|].
    { intros idx' Hidx'.
      assert (Hreg : sameRegistry s s1).
      { destruct Hframe as (Hreg & _), Hframe1 as (Hreg1 & _).
        constructor; etransitivity; solve [apply Hreg1|symmetry; apply Hreg]. }
      apply (sameRegistry_resolved _ _ _ Hreg), Hl. by right. }
    exists s2. cbn [forEach]. rewrite Hstep. cbn [mbind Result_bind].
    split; [done|]. do 3 (split; [done|]).
    rewrite eligibleAmong_cons. split; [|split].
    + intros x Hx. rewrite elem_of_app.
      destruct (Hfrom2 x Hx) as [Hx1|?]; [|tauto].
      destruct (Hfrom1 x Hx1); tauto.
    + auto.
    + rewrite fmap_app. intros Hnodup Hdistinct x Hx.
      apply NoDup_app in Hnodup as (_ & Hcross & Hnodup).
      apply elem_of_app in Hx as [Hx|Hx].
      * apply Hkeep2, Hadd1; [|done].
        intros x' y Hx' Hy. apply Hdistinct; [|done]. apply elem_of_app. by left.
      * apply Hadd2; [done| |done].
        intros x' y Hx' Hy Heq. destruct (Hfrom1 y Hy) as [Hy0|Hy0].
        -- apply (Hdistinct x' y); [|done..]. apply elem_of_app. by right.
        -- apply (Hcross (force st y)); [by apply list_elem_of_fmap_2|].
           rewrite <- Heq. by apply list_elem_of_fmap_2.
Qed.

(** The second loop of the selection clears the flags of the contacts that it
    erases, and of these only. *)
Lemma evictLowestForces_flags (refs : list string) st :
  ascendingForces st refs -> flagged st refs ->
  flagged (evictLowestForces refs st) (drop (length refs - 2) refs)
  /\ (forall x, x ∈ take (length refs - 2) refs ->
                useForOrientation_ (get (evictLowestForces refs st) x) = false)
  /\ (forall x, x ∉ refs ->
                useForOrientation_ (get (evictLowestForces refs st) x)
                = useForOrientation_ (get st x)).
Proof.
  revert st. induction refs as [|ref refs IH]; intros st Hsorted Hflagged.
  - split; [by intros x ?%elem_of_nil|]. split; [by intros x ?%elem_of_nil|done].
  - cbn [evictLowestForces].
    destruct (Z.ltb_spec 2 (Z.of_nat (length (ref :: refs)))) as [Hlt|Hle].
    + apply StronglySorted_inv in Hsorted as [Hsorted Hall].
      rewrite Forall_forall in Hall.
      assert (Hne : forall x, x ∈ refs -> ref <> x).
      { intros x Hx ->. specialize (Hall x Hx). simpl in Hall. lra. }
      set (st1 := update ref (set_useForOrientation false) st).
      destruct (IH st1) as (Hkept & Hdropped & Hother).
      { apply (ascendingForces_frame st); [apply selectionFrame_flag|done]. }
      { intros x Hx. destruct (Hflagged x) as [Hreg Hflag]; [by right|].
        split; [by apply lookup_update_is_Some|].
        unfold st1. rewrite get_update_ne; [done|by apply Hne]. }
      simpl in Hlt. simpl length.
      replace (S (length refs) - 2)%nat with (S (length refs - 2)) by lia.
      split; [done|]. split.
      * intros x [->|Hx]%elem_of_cons; [|by apply Hdropped].
        rewrite Hother.
        -- unfold st1. rewrite get_update_eq; [done|]. apply Hflagged. left.
        -- intros Hin. by apply (Hne ref).
      * intros x Hx. apply not_elem_of_cons in Hx as [Hx1 Hx2].
        rewrite Hother by done. unfold st1. by rewrite get_update_ne.
    + simpl in Hle. simpl length.
      replace (S (length refs) - 2)%nat with 0%nat by lia.
      split; [done|]. split; [by intros x ?%elem_of_nil|done].
Qed.

(** The true part of C4 and C5: after [selectForOrientationOdometry] the set
    holds at most two contacts, by strictly increasing force; each of them is
    found during this cycle, has a name without [Hand], and has its flag
    [useForOrientation_] set.  When the forces of the found contacts without
    [Hand] in their name are pairwise distinct, the set holds the two of them
    with the highest forces (all of them when there are less than two), and
    the flag of the others is cleared. *)
Lemma selectForOrientationOdometry_ascending st :
  (forall idx, idx ∈ contactsFound st -> resolved st idx) ->
  exists st',
    selectForOrientationOdometry st = Ok st'
    /\ (length (oriOdometryContacts st') <= 2)%nat
    /\ ascendingForces st' (oriOdometryContacts st')
    /\ flagged st' (oriOdometryContacts st')
    /\ (forall x, x ∈ oriOdometryContacts st' -> x ∈ eligibleContacts st)
    /\ (NoDup (force st <$> eligibleContacts st) ->
        length (oriOdometryContacts st')
        = Nat.min 2 (length (eligibleContacts st))
        /\ forall x, x ∈ eligibleContacts st -> x ∉ oriOdometryContacts st' ->
             useForOrientation_ (get st' x) = false
             /\ forall y, y ∈ oriOdometryContacts st' -> force st x < force st y).
Proof.
  intros Hfound. unfold selectForOrientationOdometry.
  set (s0 := set_oriOdometryContacts [] st).
  assert (Hframe0 : selectionFrame st s0) by apply selectionFrame_set_oriOdometryContacts.
  destruct (selectContacts_ascending (contactsFound s0) st s0)
    as (s1 & -> & Hframe1 & Hsorted1 & Hflagged1 & Hfrom1 & _ & Hadd1).
  { intros idx Hidx. destruct Hframe0 as (Hreg & _).
    apply (sameRegistry_resolved _ _ _ Hreg), Hfound, Hidx. }
  { done. }
  { constructor. }
  { by intros x ?%elem_of_nil. }
  cbn [mbind Result_bind].
  destruct (evictLowestForces_spec (oriOdometryContacts s1) s1) as [Hframe2 Hori].
  destruct (evictLowestForces_flags (oriOdometryContacts s1) s1)
    as (Hkept & Hdropped & _);
    [by apply (ascendingForces_frame st)|done|].
  set (st' := evictLowestForces (oriOdometryContacts s1) s1) in *.
  set (refs := oriOdometryContacts s1) in *.
  assert (Hframe : selectionFrame st st') by by eapply selectionFrame_trans.
  assert (Hsplit : refs = take (length refs - 2) refs ++ oriOdometryContacts st')
    by by rewrite Hori, take_drop.
  exists st'. split; [done|]. split; [rewrite Hori, length_drop; lia|].
  split; [|split; [|split]].
  - apply (ascendingForces_frame st); [done|].
    unfold ascendingForces in *. rewrite Hsplit in Hsorted1.
    by apply StronglySorted_app_1_r in Hsorted1.
  - by rewrite Hori.
  - intros x Hx. destruct (Hfrom1 x) as [Hx0|Hx0]; [|by apply elem_of_nil in Hx0|done].
    rewrite Hsplit. apply elem_of_app. by right.
  - intros Hnodup.
    assert (Hall : forall x, x ∈ eligibleContacts st -> x ∈ refs).
    { intros x Hx. apply Hadd1; [done| |done]. by intros ?? _ ?%elem_of_nil. }
    split.
    + assert (Hperm : refs ≡ₚ eligibleContacts st).
      { apply NoDup_Permutation.
        - unfold ascendingForces in Hsorted1. clear -Hsorted1.
          induction Hsorted1 as [|x l Hl IH Hx]; constructor; [|done].
          rewrite Forall_forall in Hx. intros Hin. specialize (Hx x Hin).
          simpl in Hx. lra.
        - by apply NoDup_fmap_1 in Hnodup.
        - intros x. split; [|by apply Hall].
          intros Hx. destruct (Hfrom1 x Hx) as [Hx0|Hx0]; [|done].
          by apply elem_of_nil in Hx0. }
      rewrite Hori, length_drop, <- (Permutation_length Hperm). lia.
    + intros x Hx Hnot. assert (Hxd : x ∈ take (length refs - 2) refs).
      { specialize (Hall x Hx). rewrite Hsplit in Hall.
        apply elem_of_app in Hall as [?|?]; done. }
      split; [by apply Hdropped|].
      intros y Hy. unfold ascendingForces in Hsorted1. rewrite Hsplit in Hsorted1.
      by apply (StronglySorted_app_1_elem_of _ _ _ x y) in Hsorted1.
Qed.

End SelectionLoop.

(** ** The fusion of the positions *)

Section Fusion.
Import Eigen LeggedOdometry Odometry.
Context {K : Double} {so : StateObservation K}.
Implicit Types (st : t K) (ref : string) (c : LoContactWithSensor K).

Lemma sameSources_refl st : sameSources st st.
Proof.
  split; [apply sameRegistry_refl|]. split; [apply samePose_refl|].
  by repeat split.
Qed.

Lemma sameSources_trans st1 st2 st3 :
  sameSources st1 st2 -> sameSources st2 st3 -> sameSources st1 st3.
Proof.
  intros (Hreg & Hpose & Hn & Hs & Hw & Hr & Hf)
         (Hreg' & Hpose' & Hn' & Hs' & Hw' & Hr' & Hf').
  split; [by eapply sameRegistry_trans|]. split; [by eapply samePose_trans|].
  do 4 (split; [by eapply agree_trans|]).
  intros Hthr. eapply agree_trans; [by apply Hf|].
  apply Hf'. by rewrite (same_detectionFromThreshold _ _ Hreg).
Qed.

Lemma selectionFrame_sameSources st st' : selectionFrame st st' -> sameSources st st'.
Proof.
  intros Hframe. pose proof Hframe as (Hreg & Hpose & _).
  split; [done|]. split; [done|].
  do 4 (split;
        [intros k;
         by destruct (selectionFrame_fields st st' k Hframe)
           as (? & ? & ? & ? & ? & ?)|]).
  intros _ k.
  by destruct (selectionFrame_fields st st' k Hframe) as (? & ? & ? & ? & ? & ?).
Qed.

(** The kinematics that [getContactKinematics] returns depend on the sources
    only. *)
Lemma getContactKinematics_sources ctl ref st st' :
  sameSources st st' ->
  (getContactKinematics ctl ref st').1 = (getContactKinematics ctl ref st).1.
Proof.
  intros (Hreg & [_ Hrobot] & Hn & Hs & _). unfold getContactKinematics.
  rewrite (same_detectionFromThreshold _ _ Hreg), Hrobot, (Hn ref), (Hs ref).
  by destruct (detectionFromThreshold_ st).
Qed.

Lemma getContactKinematics_frame ctl ref st :
  sameSources st (getContactKinematics ctl ref st).2
  /\ agree useForOrientation_ st (getContactKinematics ctl ref st).2
  /\ oriOdometryContacts (getContactKinematics ctl ref st).2
     = oriOdometryContacts st.
Proof.
  unfold getContactKinematics.
  destruct (detectionFromThreshold_ st) eqn:Hthr; simpl.
  - split; [apply sameSources_refl|by split].
  - split; [|by split; [apply agree_update|]].
    split; [by apply sameRegistry_update|]. split; [by split|].
    do 4 (split; [by apply agree_update|]).
    by rewrite Hthr.
Qed.

Lemma measuredForce_sources ctl ref st st' :
  sameSources st st' -> is_Some (listContacts st !! ref) ->
  measuredForce ctl st' ref = measuredForce ctl st ref.
Proof.
  intros (Hreg & [_ Hrobot] & Hn & Hs & _ & _ & Hf) Href.
  unfold measuredForce, getContactKinematics.
  rewrite (same_detectionFromThreshold _ _ Hreg), Hrobot, (Hn ref), (Hs ref).
  destruct (detectionFromThreshold_ st) eqn:Hthr; simpl.
  - by apply Hf.
  - rewrite !get_update_eq; [done|done|by apply (same_domain _ _ Hreg)].
Qed.

Lemma candidate_sources ctl ref st st' :
  sameSources st st' -> candidate ctl st' ref = candidate ctl st ref.
Proof.
  intros Hsrc. unfold candidate.
  rewrite (getContactKinematics_sources ctl ref st st' Hsrc).
  destruct Hsrc as (_ & [_ Hrobot] & _ & _ & _ & Hr & _).
  by rewrite Hrobot, (Hr ref).
Qed.

Lemma maintainedContacts_sources st st' :
  sameSources st st' -> maintainedContacts st' = maintainedContacts st.
Proof.
  intros (Hreg & _ & _ & _ & Hw & _). unfold maintainedContacts.
  rewrite (sameRegistry_foundContacts _ _ Hreg).
  apply list_filter_iff. intros ref. by rewrite (Hw ref).
Qed.

Lemma maintainedAmong_registered st l ref :
  ref ∈ maintainedAmong st l -> is_Some (listContacts st !! ref).
Proof.
  unfold maintainedAmong. rewrite list_elem_of_filter, list_elem_of_omap.
  intros (_ & idx & _ & Hidx).
  destruct (contactWithSensor st idx) as [ref'|] eqn:Href; [|done].
  injection Hidx as ->. by apply (contactWithSensor_Ok st idx).
Qed.

Lemma maintainedAmong_sources st st' l :
  sameSources st st' -> maintainedAmong st' l = maintainedAmong st l.
Proof.
  intros (Hreg & _ & _ & _ & Hw & _). unfold maintainedAmong.
  replace (omap (fun idx => match contactWithSensor st' idx with
                            | Ok ref => Some ref
                            | Throw _ => None
                            end) l)
    with (omap (fun idx => match contactWithSensor st idx with
                            | Ok ref => Some ref
                            | Throw _ => None
                            end) l).
  - apply list_filter_iff. intros ref. by rewrite (Hw ref).
  - induction l as [|idx l IH]; csimpl; [done|].
    by rewrite (sameRegistry_contactWithSensor st st' idx Hreg), IH.
Qed.

Lemma fuseContact_Ok ctl idx st sums :
  resolved st idx ->
  exists st' sums',
    fuseContact ctl idx (st, sums) = Ok (st', sums')
    /\ sameSources st st'
    /\ (totalFbPosition sums', sumForces_position sums')
       = foldl (fun acc ref => accumulate ctl st ref acc)
           (totalFbPosition sums, sumForces_position sums)
           (maintainedAmong st [idx])
    /\ positionUpdatable sums'
       = positionUpdatable sums
         || bool_decide (maintainedAmong st [idx] <> []).
Proof.
  intros (ref & Href & _). unfold fuseContact, maintainedAmong. csimpl.
  rewrite Href. simpl. rewrite filter_cons, filter_nil.
  pose proof (contactWithSensor_Ok st idx ref Href) as Hdom.
  destruct (wasAlreadySet_ (get st ref)) eqn:Hwas.
  - rewrite decide_True by done.
    destruct (getContactKinematics_frame ctl ref st) as (Hsrc & _ & _).
    assert (Hforce : forceNorm_ (get (getContactKinematics ctl ref st).2 ref)
                     = measuredForce ctl st ref) by done.
    assert (Hcandidate :
             vadd (position (worldRefKine_ (get (getContactKinematics ctl ref st).2 ref)))
               (vsub (translation (posW (odometryRobot_ (getContactKinematics ctl ref st).2)))
                  (position (getContactKinematics ctl ref st).1))
             = candidate ctl st ref).
    { unfold candidate. destruct Hsrc as (_ & [_ ->] & _ & _ & _ & Hr & _).
      by rewrite (Hr ref). }
    destruct (getContactKinematics ctl ref st) as [kine st1] eqn:Hkine.
    simpl in Hsrc, Hforce, Hcandidate. rewrite Hcandidate, Hforce.
    destruct (withNaiveYawEstimation_ st1 && useForOrientation_ (get st1 ref)).
    + eexists _, _. split; [done|]. split; [|split].
      * eapply sameSources_trans; [done|].
        split; [by apply sameRegistry_update|]. split; [by split|].
        do 4 (split; [by apply agree_update|]).
        intros _. by apply agree_update.
      * done.
      * simpl. by rewrite orb_true_r.
    + eexists _, _. split; [done|]. split; [done|]. split; [done|].
      simpl. by rewrite orb_true_r.
  - rewrite decide_False by done.
    eexists _, _. split; [done|]. split; [apply sameSources_refl|].
    split; [done|]. simpl. by rewrite orb_false_r.
Qed.

(** The first loop of [updateContacts]: it does not throw when the found
    contacts are registered, and it accumulates, over the maintained
    contacts, the candidates weighted by the forces and the forces. *)
Lemma fuseContacts_Ok ctl l st sums :
  (forall idx, idx ∈ l -> resolved st idx) ->
  exists st' sums',
    forEach (fuseContact ctl) l (st, sums) = Ok (st', sums')
    /\ sameSources st st'
    /\ (totalFbPosition sums', sumForces_position sums')
       = foldl (fun acc ref => accumulate ctl st ref acc)
           (totalFbPosition sums, sumForces_position sums)
           (maintainedAmong st l)
    /\ positionUpdatable sums'
       = positionUpdatable sums || bool_decide (maintainedAmong st l <> []).
Proof.
  revert st sums. induction l as [|idx l IH]; intros st sums Hl.
  - exists st, sums. split; [done|]. split; [apply sameSources_refl|].
    split; [done|]. simpl. by rewrite orb_false_r.
  - destruct (fuseContact_Ok ctl idx st sums) as (st1 & sums1 & Hstep & Hsrc1 & Hsum1 & Hpos1);
      [apply Hl; left|].
    destruct (IH st1 sums1) as (st2 & sums2 & Hloop & Hsrc2 & Hsum2 & Hpos2).
    { intros idx' Hidx'. destruct Hsrc1 as (Hreg & _).
      apply (sameRegistry_resolved _ _ _ Hreg), Hl. by right. }
    exists st2, sums2. cbn [forEach]. rewrite Hstep. simpl.
    split; [done|]. split; [by eapply sameSources_trans|].
    assert (Happ : maintainedAmong st (idx :: l)
                   = maintainedAmong st [idx] ++ maintainedAmong st l).
    { unfold maintainedAmong. csimpl.
      destruct (contactWithSensor st idx); simpl; [|done].
      rewrite !filter_cons, filter_nil. by destruct (decide _). }
    rewrite Happ, foldl_app, <- Hsum1.
    rewrite (maintainedAmong_sources st st1 l Hsrc1) in Hsum2, Hpos2.
    split.
    + rewrite Hsum2. apply foldl_ext_elem. intros ref acc Href.
      unfold accumulate.
      rewrite (candidate_sources ctl ref st st1 Hsrc1).
      by rewrite (measuredForce_sources ctl ref st st1 Hsrc1)
        by by eapply maintainedAmong_registered.
    + rewrite Hpos2, Hpos1, <- orb_assoc. f_equal.
      destruct (maintainedAmong st [idx]), (maintainedAmong st l); done.
Qed.

End Fusion.

(** ** The fusion of the orientations *)

Section OrientationFusion.
Import Eigen LeggedOdometry Odometry.
Context {K : Double} {so : StateObservation K}.
Implicit Types (st s : t K) (ref : string) (c : LoContactWithSensor K).

Lemma orientationCandidate_sources ctl ref st s :
  sameSources st s -> orientationCandidate ctl s ref = orientationCandidate ctl st ref.
Proof.
  intros Hsrc. unfold orientationCandidate.
  rewrite (getContactKinematics_sources ctl ref st s Hsrc).
  destruct Hsrc as (_ & [_ Hrobot] & _ & _ & _ & Hr & _).
  by rewrite Hrobot, (Hr ref).
Qed.

Lemma orientationSources_cons st idx l :
  orientationSources st (idx :: l)
  = orientationSources st [idx] ++ orientationSources st l.
Proof.
  unfold orientationSources, maintainedAmong. csimpl.
  destruct (contactWithSensor st idx); simpl; [|done].
  rewrite !filter_cons, !filter_nil. destruct (decide _); [|done].
  rewrite !filter_cons, filter_nil. by destruct (decide _).
Qed.

Lemma orientationSources_sources st s l :
  sameSources st s -> agree useForOrientation_ st s ->
  orientationSources s l = orientationSources st l.
Proof.
  intros Hsrc Hflags. unfold orientationSources.
  rewrite (maintainedAmong_sources st s l Hsrc).
  apply list_filter_iff. intros ref. by rewrite (Hflags ref).
Qed.

(** One iteration of the first loop, as far as the orientation goes. *)
Lemma fuseContact_orientation ctl idx st s sums s' sums' :
  withNaiveYawEstimation_ st = true ->
  sameSources st s -> agree useForOrientation_ st s ->
  fuseContact ctl idx (s, sums) = Ok (s', sums') ->
  sameSources st s' /\ agree useForOrientation_ st s'
  /\ oriOdometryContacts s' = oriOdometryContacts s
  /\ sumForces_orientation sums'
     = foldl (fun acc ref => dadd acc (measuredForce ctl st ref))
         (sumForces_orientation sums) (orientationSources st [idx])
  /\ orientationUpdatable sums'
     = orientationUpdatable sums || bool_decide (orientationSources st [idx] <> [])
  /\ (forall ref, ref ∈ orientationSources st [idx] -> fused ctl st s' ref)
  /\ (forall ref, is_Some (listContacts st !! ref) ->
                  fused ctl st s ref -> fused ctl st s' ref).
Proof.
  intros Hyaw Hsrc Hflags.
  rewrite <- (orientationSources_sources st s [idx] Hsrc Hflags).
  pose proof Hsrc as (Hreg & _).
  unfold fuseContact, orientationSources, maintainedAmong. csimpl.
  destruct (contactWithSensor s idx) as [ref|] eqn:Href; simpl; [|done].
  pose proof (contactWithSensor_Ok s idx ref Href) as Hdom.
  rewrite filter_cons, filter_nil.
  destruct (wasAlreadySet_ (get s ref)) eqn:Hwas.
  - rewrite decide_True by done. rewrite filter_cons, filter_nil.
    destruct (getContactKinematics_frame ctl ref s) as (Hsrc1 & Hflags1 & Hori1).
    assert (Hforce : forceNorm_ (get (getContactKinematics ctl ref s).2 ref)
                     = measuredForce ctl st ref)
      by (rewrite <- (measuredForce_sources ctl ref st s Hsrc);
          [done|by apply (same_domain _ _ Hreg)]).
    assert (Hcandidate :
             mmul
               (mmul (orientation (worldRefKine_ (get (getContactKinematics ctl ref s).2 ref)))
                  (transpose (orientation (getContactKinematics ctl ref s).1)))
               (transpose (rotation (posW (odometryRobot_ (getContactKinematics ctl ref s).2))))
             = orientationCandidate ctl st ref).
    { rewrite <- (orientationCandidate_sources ctl ref st s Hsrc).
      unfold orientationCandidate.
      destruct Hsrc1 as (_ & [_ ->] & _ & _ & _ & Hr & _). by rewrite (Hr ref). }
    assert (Hkept : forall k, is_Some (listContacts st !! k) -> fused ctl st s k ->
                      fused ctl st (getContactKinematics ctl ref s).2 k).
    { intros k Hk [Hk1 Hk2]. split.
      - rewrite <- Hk1. unfold getContactKinematics.
        destruct (detectionFromThreshold_ s); simpl; [done|].
        by apply (get_update_field currentWorldOrientation_).
      - destruct (decide (k = ref)) as [->|Hne]; [done|].
        rewrite <- Hk2. unfold getContactKinematics.
        destruct (detectionFromThreshold_ s); simpl; [done|].
        by rewrite get_update_ne. }
    assert (Hflag : useForOrientation_ (get (getContactKinematics ctl ref s).2 ref)
                    = useForOrientation_ (get s ref)) by apply Hflags1.
    assert (Hyaw1 : withNaiveYawEstimation_ (getContactKinematics ctl ref s).2 = true).
    { destruct Hsrc1 as (Hreg1 & _).
      by rewrite (same_withNaiveYawEstimation _ _ Hreg1),
        (same_withNaiveYawEstimation _ _ Hreg). }
    assert (Hdom1 : is_Some (listContacts (getContactKinematics ctl ref s).2 !! ref)).
    { destruct Hsrc1 as (Hreg1 & _). by apply (same_domain _ _ Hreg1). }
    destruct (getContactKinematics ctl ref s) as [kine s1] eqn:Hkine.
    simpl in Hsrc1, Hflags1, Hori1, Hforce, Hcandidate, Hkept, Hflag, Hyaw1, Hdom1.
    rewrite Hyaw1, Hflag, Hcandidate. simpl.
    destruct (useForOrientation_ (get s ref)) eqn:Huse.
    + rewrite decide_True by done. intros [= <- <-].
      set (s2 := update ref (set_currentWorldOrientation (orientationCandidate ctl st ref)) s1).
      assert (Hsrc2 : sameSources s1 s2).
      { split; [by apply sameRegistry_update|]. split; [by split|].
        do 4 (split; [by apply agree_update|]). intros _. by apply agree_update. }
      split; [eapply sameSources_trans; [done|]; by eapply sameSources_trans|].
      split; [|split; [|split; [|split; [|split]]]].
      * eapply agree_trans; [done|]. eapply agree_trans; [done|]. by apply agree_update.
      * done.
      * simpl. unfold s2.
        rewrite (get_update_field forceNorm_) by done. by rewrite Hforce.
      * simpl. by rewrite orb_true_r.
      * intros k ->%list_elem_of_singleton. split.
        -- unfold s2. by rewrite get_update_eq.
        -- unfold s2. by rewrite (get_update_field forceNorm_).
      * intros k Hk Hfused. destruct (Hkept k Hk Hfused) as [Hk1 Hk2]. split.
        -- destruct (decide (k = ref)) as [->|Hne].
           ++ unfold s2. by rewrite get_update_eq.
           ++ unfold s2. by rewrite get_update_ne.
        -- unfold s2. by rewrite (get_update_field forceNorm_).
    + rewrite decide_False by done. intros [= <- <-].
      split; [by eapply sameSources_trans|]. split; [by eapply agree_trans|].
      split; [done|]. split; [done|]. split; [simpl; by rewrite orb_false_r|].
      split; [by intros k ?%elem_of_nil|done].
  - rewrite decide_False by done. rewrite filter_nil. intros [= <- <-].
    do 3 (split; [done|]). split; [done|].
    split; [simpl; by rewrite orb_false_r|].
    split; [by intros k ?%elem_of_nil|done].
Qed.

(** The first loop of [updateContacts], as far as the orientation goes: it
    accumulates the forces of the maintained contacts whose flag
    [useForOrientation_] is set, and computes their orientations. *)
Lemma fuseContacts_orientation ctl l st s sums s' sums' :
  withNaiveYawEstimation_ st = true ->
  sameSources st s -> agree useForOrientation_ st s ->
  forEach (fuseContact ctl) l (s, sums) = Ok (s', sums') ->
  sameSources st s' /\ agree useForOrientation_ st s'
  /\ oriOdometryContacts s' = oriOdometryContacts s
  /\ sumForces_orientation sums'
     = foldl (fun acc ref => dadd acc (measuredForce ctl st ref))
         (sumForces_orientation sums) (orientationSources st l)
  /\ orientationUpdatable sums'
     = orientationUpdatable sums || bool_decide (orientationSources st l <> [])
  /\ (forall ref, ref ∈ orientationSources st l -> fused ctl st s' ref)
  /\ (forall ref, is_Some (listContacts st !! ref) ->
                  fused ctl st s ref -> fused ctl st s' ref).
Proof.
  intros Hyaw. revert s sums. induction l as [|idx l IH]; intros s sums Hsrc Hflags.
  - intros [= <- <-]. do 3 (split; [done|]). split; [done|].
    split; [simpl; by rewrite orb_false_r|]. split; [by intros k ?%elem_of_nil|done].
  - cbn [forEach].
    destruct (fuseContact ctl idx (s, sums)) as [[s1 sums1]|] eqn:Hstep; [|done].
    cbn [mbind Result_bind]. intros Hloop.
    destruct (fuseContact_orientation ctl idx st s sums s1 sums1 Hyaw Hsrc Hflags Hstep)
      as (Hsrc1 & Hflags1 & Hori1 & Hsum1 & Hupd1 & Hnew1 & Hkept1).
    destruct (IH s1 sums1 Hsrc1 Hflags1 Hloop)
      as (Hsrc2 & Hflags2 & Hori2 & Hsum2 & Hupd2 & Hnew2 & Hkept2).
    do 2 (split; [done|]). split; [congruence|].
    rewrite orientationSources_cons, foldl_app. split; [by rewrite <- Hsum1|].
    split; [|split].
    + rewrite Hupd2, Hupd1, <- orb_assoc. f_equal.
      by destruct (orientationSources st [idx]), (orientationSources st l).
    + intros ref [Href|Href]%elem_of_app; [|by apply Hnew2].
      apply Hkept2; [|by apply Hnew1].
      unfold orientationSources in Href. apply list_elem_of_filter in Href as [_ Href].
      by eapply maintainedAmong_registered.
    + auto.
Qed.

End OrientationFusion.

(** ** One cycle of [updateContacts] *)

Section Cycle.
Import Eigen LeggedOdometry Odometry.
Context {K : Double} {so : StateObservation K}.
Implicit Types (st : t K) (ref : string) (c : LoContactWithSensor K).

Lemma anchoringFrame_refl st : anchoringFrame st st.
Proof. split; [apply sameRegistry_refl|split; [apply samePose_refl|done]]. Qed.

Lemma anchoringFrame_trans st1 st2 st3 :
  anchoringFrame st1 st2 -> anchoringFrame st2 st3 -> anchoringFrame st1 st3.
Proof.
  intros (? & ? & ?) (? & ? & ?). split; [by eapply sameRegistry_trans|].
  split; [by eapply samePose_trans|by eapply agree_trans].
Qed.

Lemma newlySetAmong_frame st st' l :
  sameRegistry st st' -> agree wasAlreadySet_ st st' ->
  newlySetAmong st' l = newlySetAmong st l.
Proof.
  intros Hreg Hw. unfold newlySetAmong.
  replace (omap (fun idx => match contactWithSensor st' idx with
                            | Ok ref => Some ref
                            | Throw _ => None
                            end) l)
    with (omap (fun idx => match contactWithSensor st idx with
                            | Ok ref => Some ref
                            | Throw _ => None
                            end) l).
  - rewrite (list_filter_iff _ (fun ref => wasAlreadySet_ (get st ref) = false))
      by (intros ref; by rewrite (Hw ref)).
    apply list_fmap_ext. intros i ref _. apply (same_names _ _ Hreg).
  - induction l as [|idx l IH]; csimpl; [done|].
    by rewrite (sameRegistry_contactWithSensor st st' idx Hreg), IH.
Qed.

Lemma setFoundContact_Ok ctl idx st calls :
  resolved st idx ->
  exists st' new,
    setFoundContact ctl idx (st, calls) = Ok (st', calls ++ new)
    /\ anchoringFrame st st'
    /\ (forall sensor r, SetNewContact sensor r ∈ new -> r = odometryRobot_ st)
    /\ omap setNewContactSensor new = newlySetAmong st [idx]
    /\ (forall call, call ∈ new ->
          call <> Robot_forwardKinematics /\ forall p, call <> Robot_posW p).
Proof.
  intros (ref & Href & Hname). unfold setFoundContact, newlySetAmong. csimpl.
  rewrite Href. simpl. rewrite filter_cons, filter_nil.
  destruct (wasAlreadySet_ (get st ref)) eqn:Hwas.
  - rewrite decide_False by done. simpl. exists st, []. rewrite app_nil_r.
    split; [done|]. split; [apply anchoringFrame_refl|].
    split; [by intros ?? ?%elem_of_nil|]. split; [done|].
    by intros ? ?%elem_of_nil.
  - rewrite decide_True by done. simpl.
    set (st0 := update ref (set_isSet true) st).
    destruct (setNewContact_Ok ctl (forceSensor ctl (name_ (get st ref))) st0)
      as (st' & -> & Hreg & Hpose & Hagree & _).
    { simpl. by apply lookup_update_is_Some. }
    simpl. eexists _, _. split; [done|]. split; [|split; [|split]].
    + eapply (anchoringFrame_trans _ st0).
      * split; [by apply sameRegistry_update|]. split; [by split|].
        by apply agree_update.
      * split; [done|]. split; [done|].
        exact (agree_compose withoutRefKine wasAlreadySet_ _ _ Hagree).
    + intros sensor r [Hr|Hr]%elem_of_cons.
      * by injection Hr as _ ->.
      * unfold addContactLogEntries in Hr.
        by apply list_elem_of_fmap in Hr as (? & ? & _).
    + done.
    + intros call [->|Hcall]%elem_of_cons; [done|].
      unfold addContactLogEntries in Hcall.
      by apply list_elem_of_fmap in Hcall as (? & -> & _).
Qed.

(** The second loop of [updateContacts]: it does not throw when the found
    contacts are registered; it leaves the pose and the odometry robot as
    they are; it calls [setNewContact] for the found contacts that were not
    already set, and for them only, each time with the odometry robot of the
    beginning of the loop. *)
Lemma setFoundContacts_Ok ctl l st calls :
  (forall idx, idx ∈ l -> resolved st idx) ->
  exists st' new,
    forEach (setFoundContact ctl) l (st, calls) = Ok (st', calls ++ new)
    /\ anchoringFrame st st'
    /\ (forall sensor r, SetNewContact sensor r ∈ new -> r = odometryRobot_ st)
    /\ omap setNewContactSensor new = newlySetAmong st l
    /\ (forall call, call ∈ new ->
          call <> Robot_forwardKinematics /\ forall p, call <> Robot_posW p).
Proof.
  revert st calls. induction l as [|idx l IH]; intros st calls Hl.
  - exists st, []. rewrite app_nil_r. split; [done|].
    split; [apply anchoringFrame_refl|]. split; [by intros ?? ?%elem_of_nil|].
    split; [done|]. by intros ? ?%elem_of_nil.
  - destruct (setFoundContact_Ok ctl idx st calls)
      as (st1 & new1 & Hstep & Hframe1 & Hrobot1 & Hsensors1 & Hcalls1);
      [apply Hl; left|].
    destruct (IH st1 (calls ++ new1))
      as (st2 & new2 & Hloop & Hframe2 & Hrobot2 & Hsensors2 & Hcalls2).
    { intros idx' Hidx'. destruct Hframe1 as (Hreg & _).
      apply (sameRegistry_resolved _ _ _ Hreg), Hl. by right. }
    exists st2, (new1 ++ new2). cbn [forEach]. rewrite Hstep.
    cbn [mbind Result_bind].
    rewrite Hloop, app_assoc. split; [done|].
    split; [by eapply anchoringFrame_trans|]. split; [|split].
    + intros sensor r [Hr|Hr]%elem_of_app; [by eapply Hrobot1|].
      rewrite (Hrobot2 _ _ Hr). by destruct Hframe1 as (_ & [_ ->] & _).
    + rewrite omap_app, Hsensors1, Hsensors2.
      destruct Hframe1 as (Hreg1 & _ & Hwas1).
      rewrite (newlySetAmong_frame st st1 l Hreg1 Hwas1).
      unfold newlySetAmong. csimpl.
      destruct (contactWithSensor st idx); simpl; [|done].
      rewrite !filter_cons, filter_nil. by destruct (decide _).
    + intros call [Hcall|Hcall]%elem_of_app; auto.
Qed.

(** The third loop of [updateContacts]: it removes log entries, and does not
    throw when the removed contacts are registered. *)
Lemma logRemovedContacts_Ok l st calls :
  (forall idx, idx ∈ l -> resolved st idx) ->
  exists logs,
    forEach logRemovedContact l (st, calls) = Ok (st, calls ++ logs)
    /\ forall call, call ∈ logs -> exists entry, call = Logger_removeLogEntry entry.
Proof.
  revert calls. induction l as [|idx l IH]; intros calls Hl.
  - exists []. rewrite app_nil_r. split; [done|]. by intros ? ?%elem_of_nil.
  - destruct (Hl idx) as (ref & Href & _); [left|].
    destruct (IH (calls ++ removeContactLogEntries st (name_ (get st ref))))
      as (logs & Hloop & Hlogs); [intros; apply Hl; by right|].
    exists (removeContactLogEntries st (name_ (get st ref)) ++ logs).
    assert (Hstep : logRemovedContact idx (st, calls)
                    = Ok (st, calls ++ removeContactLogEntries st (name_ (get st ref))))
      by (unfold logRemovedContact; by rewrite Href).
    cbn [forEach]. rewrite Hstep. cbn [mbind Result_bind].
    rewrite Hloop, app_assoc. split; [done|].
    intros call [Hcall|Hcall]%elem_of_app; [|auto].
    unfold removeContactLogEntries in Hcall.
    apply list_elem_of_fmap in Hcall as (entry & -> & _). eauto.
Qed.


Lemma updatePose_held ctl sums st :
  positionUpdatable sums = false -> updatePose ctl sums st = st.
Proof. intros Hpos. unfold updatePose. by rewrite Hpos. Qed.

Lemma updatePose_sameRegistry ctl sums st :
  sameRegistry st (updatePose ctl sums st)
  /\ agree (fun c => c) st (updatePose ctl sums st).
Proof.
  unfold updatePose. destruct (positionUpdatable sums); [|by split; [apply sameRegistry_refl|]].
  destruct (orientationUpdatable sums); [|by split].
  unfold oriOdometryContacts. simpl.
  destruct (oriOdometryContacts_ (contactsManager_ st)) as [|? [|? [|? ?]]];
    by split.
Qed.

Lemma maintainedAmong_contactsFound st :
  maintainedAmong st (contactsFound st) = maintainedContacts st.
Proof. reflexivity. Qed.

Lemma foldl_accumulate ctl st refs :
  foldl (fun acc ref => accumulate ctl st ref acc) (Zero, d0) refs
  = (sumOfWeightedCandidates ctl st refs, sumOfForces ctl st refs).
Proof.
  unfold sumOfWeightedCandidates, sumOfForces.
  generalize (@Zero K) (@d0 K). induction refs as [|ref refs IH]; intros v f.
  - done.
  - simpl. by rewrite <- IH.
Qed.

(** One cycle, in full: [updateContacts] does not throw on a well-formed
    state; the pose is the one that [updatePose] computes from the sums of
    the first loop; it is written to the odometry robot, whose forward
    kinematics is computed, before anything else is called; and every call
    of [setNewContact] sees this odometry robot. *)
Lemma updateContacts_Ok ctl st :
  wellFormed st ->
  exists st2 sums st' rest,
    updateContacts ctl st
    = Ok (st', Robot_posW (fbPose_ st') :: Robot_forwardKinematics :: rest)
    /\ sameSources st st2
    /\ fbPose_ st' = fbPose_ (updatePose ctl sums st2)
    /\ odometryRobot_ st' = mkRobot (fbPose_ st') (fbPose_ st')
    /\ totalFbPosition sums = sumOfWeightedCandidates ctl st (maintainedContacts st)
    /\ sumForces_position sums = sumOfForces ctl st (maintainedContacts st)
    /\ positionUpdatable sums = bool_decide (maintainedContacts st <> [])
    /\ sameRegistry st st'
    /\ (forall sensor r, SetNewContact sensor r ∈ rest -> r = odometryRobot_ st')
    /\ omap setNewContactSensor rest = newlySetAmong st (contactsFound st)
    /\ (forall call, call ∈ rest ->
          call <> Robot_forwardKinematics /\ forall p, call <> Robot_posW p)
    /\ (st1 ← selectForOrientationOdometry st;
        forEach (fuseContact ctl) (contactsFound st1) (st1, initialSums))
       = Ok (st2, sums).
Proof.
  intros Hwf. unfold updateContacts.
  assert (Hfound : forall idx, idx ∈ contactsFound st -> resolved st idx)
    by (intros idx Hidx; apply Hwf, elem_of_app; by left).
  assert (Hremoved : forall idx, idx ∈ removedContacts st -> resolved st idx)
    by (intros idx Hidx; apply Hwf, elem_of_app; by right).
  destruct (selectForOrientationOdometry_Ok st Hfound) as (st1 & -> & Hsel & _).
  cbn [mbind Result_bind]. pose proof (selectionFrame_sameSources st st1 Hsel) as Hsrc1.
  pose proof Hsrc1 as (Hreg1 & _).
  destruct (fuseContacts_Ok ctl (contactsFound st1) st1 initialSums)
    as (st2 & sums & -> & Hsrc2 & Hsums & Hpos).
  { intros idx Hidx. apply (sameRegistry_resolved _ _ _ Hreg1), Hfound.
    by rewrite <- (same_contactsFound _ _ Hreg1). }
  cbn [mbind Result_bind]. cbv zeta.
  pose proof (sameSources_trans _ _ _ Hsrc1 Hsrc2) as Hsrc.
  pose proof Hsrc as (Hreg2 & _).
  destruct (updatePose_sameRegistry ctl sums st2) as (Hreg3 & Hagree3).
  set (st3 := updatePose ctl sums st2) in *.
  set (st4 := set_odometryRobot
                (forwardKinematics
                   (odometryRobot_
                      (set_odometryRobot (set_posW (fbPose_ st3) (odometryRobot_ st3))
                         st3)))
                (set_odometryRobot (set_posW (fbPose_ st3) (odometryRobot_ st3)) st3)).
  assert (Hreg4 : sameRegistry st st4).
  { eapply sameRegistry_trans; [done|]. eapply sameRegistry_trans; [done|].
    by constructor. }
  destruct (setFoundContacts_Ok ctl (contactsFound st4) st4
              [Robot_posW (fbPose_ st4); Robot_forwardKinematics])
    as (st5 & new & Hloop2 & Hframe5 & Hrobot5 & Hsensors5 & Hcalls5).
  { intros idx Hidx. apply (sameRegistry_resolved _ _ _ Hreg4), Hfound.
    by rewrite <- (same_contactsFound _ _ Hreg4). }
  change (forEach (setFoundContact ctl) (contactsFound st4)
            (st4, [Robot_posW (fbPose_ st4); Robot_forwardKinematics])
          = Ok (st5, [Robot_posW (fbPose_ st4); Robot_forwardKinematics] ++ new))
    in Hloop2.
  rewrite Hloop2. cbn [mbind Result_bind fst app].
  pose proof Hframe5 as (Hreg5 & [Hpose5 Hrobot5'] & Hwas5).
  pose proof (sameRegistry_trans _ _ _ Hreg4 Hreg5) as Hreg.
  destruct (logRemovedContacts_Ok (removedContacts st5) st5
              (Robot_posW (fbPose_ st4) :: Robot_forwardKinematics :: new))
    as (logs & -> & Hlogs).
  { intros idx Hidx. apply (sameRegistry_resolved _ _ _ Hreg), Hremoved.
    by rewrite <- (same_removedContacts _ _ Hreg). }
  exists st2, sums, st5, (new ++ logs).
  assert (Hfb : fbPose_ st5 = fbPose_ st3) by (by rewrite Hpose5).
  rewrite Hfb. split; [done|]. split; [done|]. split; [done|].
  split; [by rewrite Hrobot5'|].
  rewrite (maintainedAmong_sources st st1 _ Hsrc1) in Hsums, Hpos.
  rewrite (same_contactsFound _ _ Hreg1), maintainedAmong_contactsFound in Hsums, Hpos.
  assert (Hfold : foldl (fun acc ref => accumulate ctl st1 ref acc) (Zero, d0)
                    (maintainedContacts st)
                  = foldl (fun acc ref => accumulate ctl st ref acc) (Zero, d0)
                      (maintainedContacts st)).
  { apply foldl_ext_elem. intros ref acc Href. unfold accumulate.
    rewrite (candidate_sources ctl ref st st1 Hsrc1).
    by rewrite (measuredForce_sources ctl ref st st1 Hsrc1)
      by by eapply maintainedAmong_registered. }
  change (totalFbPosition initialSums, sumForces_position initialSums)
    with (@Zero K, @d0 K) in Hsums.
  rewrite Hfold, foldl_accumulate in Hsums. injection Hsums as Htotal Hforces.
  split; [done|]. split; [done|]. split; [done|]. split; [done|].
  split; [|split; [|split; [|done]]].
  - intros sensor r [Hr|Hr]%elem_of_app.
    + rewrite Hrobot5'. by eapply Hrobot5.
    + by destruct (Hlogs _ Hr).
  - rewrite omap_app, Hsensors5.
    replace (omap setNewContactSensor logs) with (@nil string).
    + rewrite app_nil_r, (same_contactsFound _ _ Hreg4).
      apply newlySetAmong_frame; [done|].
      destruct Hsrc as (_ & _ & _ & _ & Hwas2 & _).
      intros k. rewrite <- (Hwas2 k). exact (f_equal wasAlreadySet_ (Hagree3 k)).
    + clear -Hlogs. induction logs as [|call logs IH]; [done|]. csimpl.
      destruct (Hlogs call) as [entry ->]; [left|]. simpl. apply IH.
      intros. apply Hlogs. by right.
  - intros call [Hcall|Hcall]%elem_of_app; [auto|].
    by destruct (Hlogs _ Hcall) as [entry ->].
Qed.

End Cycle.

(** ** The pose after one cycle *)

Section CycleClaims.
Import Eigen LeggedOdometry Odometry.
Context {K : Double} {so : StateObservation K}.
Implicit Types (st : t K) (ref : string) (c : LoContactWithSensor K).



(** C3: in a cycle without maintained contact (no found contact has
    [wasAlreadySet_] set, which is the case in particular when no contact is
    found), [updateContacts] does not throw and leaves [fbPose_] as it was
    after the previous cycle; this pose is the one written to the odometry
    robot and the pose that [updateFbKinematics] outputs. *)
Theorem updateContacts_held ctl st :
  wellFormed st ->
  (forall ref, ref ∈ foundContacts st -> wasAlreadySet_ (get st ref) = false) ->
  exists st' calls,
    updateContacts ctl st = Ok (st', calls)
    /\ fbPose_ st' = fbPose_ st
    /\ posW (odometryRobot_ st') = fbPose_ st
    /\ pose (updateFbKinematics ctl st') = fbPose_ st.
Proof.
  intros Hwf Hfresh.
  assert (Hmaintained : maintainedContacts st = []).
  { unfold maintainedContacts. revert Hfresh.
    generalize (foundContacts st). induction l as [|ref l IH]; intros Hfresh.
    - done.
    - rewrite filter_cons, decide_False.
      + apply IH. intros ref' Href'. apply Hfresh. by right.
      + rewrite (Hfresh ref); [done|left]. }
  destruct (updateContacts_Ok ctl st Hwf)
    as (st2 & sums & st' & rest & Hrun & Hsrc & Hfb & Hrobot & _ & _ & Hpos & _).
  rewrite Hmaintained in Hpos.
  rewrite updatePose_held in Hfb by done.
  destruct Hsrc as (_ & [Hfb2 _] & _).
  assert (Hheld : fbPose_ st' = fbPose_ st) by congruence.
  eexists _, _. split; [done|]. split; [done|].
  unfold updateFbKinematics. rewrite Hrobot, Hheld. simpl.
  by destruct (fbPose_ st).
Qed.

(** The rotation that [updatePose] computes when a contact was used for the
    orientation. *)
Lemma updatePose_rotation ctl sums st :
  positionUpdatable sums = true -> orientationUpdatable sums = true ->
  rotation (fbPose_ (updatePose ctl sums st))
  = let realRobotOri := transpose (rotation (realRobot_posW ctl)) in
    match oriOdometryContacts st with
    | [contact] =>
        transpose
          (mergeRoll1Pitch1WithYaw2AxisAgnostic realRobotOri
             (currentWorldOrientation_ (get st contact)))
    | [contact1; contact2] =>
        transpose
          (mergeRoll1Pitch1WithYaw2AxisAgnostic realRobotOri
             (meanOri (currentWorldOrientation_ (get st contact1))
                (currentWorldOrientation_ (get st contact2))
                (forceNorm_ (get st contact1)) (sumForces_orientation sums)))
    | _ => rotation (fbPose_ st)
    end.
Proof.
  intros Hpos Hori. unfold updatePose. rewrite Hpos, Hori.
  unfold oriOdometryContacts. simpl.
  destruct (oriOdometryContacts_ (contactsManager_ st)) as [|? [|? [|? ?]]];
    reflexivity.
Qed.

(** In every arithmetic, the orientation after a cycle in which every contact
    of the set of the selection is a maintained contact: with one contact in
    the set, the yaw of its orientation merged with the tilt of the real
    robot; with two, the yaw of [meanOri], where [sumForces] is the sum of
    the forces of the maintained contacts whose flag is set. *)
Lemma updateContacts_orientation ctl st st1 :
  wellFormed st -> withNaiveYawEstimation_ st = true ->
  selectForOrientationOdometry st = Ok st1 ->
  oriOdometryContacts st1 <> [] ->
  (forall ref, ref ∈ oriOdometryContacts st1 ->
               ref ∈ orientationSources st1 (contactsFound st)) ->
  exists st' calls,
    updateContacts ctl st = Ok (st', calls)
    /\ rotation (fbPose_ st')
       = let realRobotOri := transpose (rotation (realRobot_posW ctl)) in
         let sumForces :=
           foldl (fun acc ref => dadd acc (measuredForce ctl st ref)) d0
             (orientationSources st1 (contactsFound st)) in
         match oriOdometryContacts st1 with
         | [contact] =>
             transpose
               (mergeRoll1Pitch1WithYaw2AxisAgnostic realRobotOri
                  (orientationCandidate ctl st contact))
         | [contact1; contact2] =>
             transpose
               (mergeRoll1Pitch1WithYaw2AxisAgnostic realRobotOri
                  (meanOri (orientationCandidate ctl st contact1)
                     (orientationCandidate ctl st contact2)
                     (measuredForce ctl st contact1) sumForces))
         | _ => rotation (fbPose_ st)
         end.
Proof.
  intros Hwf Hyaw Hsel Hset Hmaintained.
  assert (Hfound : forall idx, idx ∈ contactsFound st -> resolved st idx)
    by (intros idx Hidx; apply Hwf, elem_of_app; by left).
  destruct (selectForOrientationOdometry_Ok st Hfound) as (st1' & Hsel' & Hframe & _).
  rewrite Hsel in Hsel'. injection Hsel' as <-.
  pose proof (selectionFrame_sameSources st st1 Hframe) as Hsrc1.
  pose proof Hsrc1 as (Hreg1 & _).
  destruct (updateContacts_Ok ctl st Hwf)
    as (st2 & sums & st' & rest & Hrun & Hsrc & Hfb & _ & _ & _ & Hpos & _ & _ & _
        & _ & Hloop).
  rewrite Hsel in Hloop. cbn [mbind Result_bind] in Hloop.
  assert (Hyaw1 : withNaiveYawEstimation_ st1 = true)
    by by rewrite (same_withNaiveYawEstimation _ _ Hreg1).
  destruct (fuseContacts_orientation ctl (contactsFound st1) st1 st1 initialSums
              st2 sums Hyaw1 (sameSources_refl st1) (agree_refl _ st1) Hloop)
    as (_ & _ & Hori & Hsum & Hupd & Hfused & _).
  rewrite (same_contactsFound _ _ Hreg1) in Hsum, Hupd, Hfused.
  set (sources := orientationSources st1 (contactsFound st)) in *.
  assert (Hregistered : forall ref, ref ∈ sources -> is_Some (listContacts st !! ref)).
  { intros ref Href. apply list_elem_of_filter in Href as [_ Href].
    apply maintainedAmong_registered in Href. by apply (same_domain _ _ Hreg1). }
  assert (Hsources : sources <> []).
  { destruct (oriOdometryContacts st1) as [|ref ?]; [done|].
    intros Hnil. specialize (Hmaintained ref). rewrite Hnil in Hmaintained.
    eapply elem_of_nil, Hmaintained. left. }
  assert (Hforce : forall ref, ref ∈ sources ->
            measuredForce ctl st1 ref = measuredForce ctl st ref)
    by (intros ref Href; apply measuredForce_sources; [done|by apply Hregistered]).
  assert (Hsum' : sumForces_orientation sums
                  = foldl (fun acc ref => dadd acc (measuredForce ctl st ref)) d0 sources).
  { rewrite Hsum. apply foldl_ext_elem. intros ref acc Href. by rewrite Hforce. }
  assert (Hread : forall ref, ref ∈ oriOdometryContacts st1 ->
            currentWorldOrientation_ (get st2 ref) = orientationCandidate ctl st ref
            /\ forceNorm_ (get st2 ref) = measuredForce ctl st ref).
  { intros ref Href. specialize (Hmaintained ref Href).
    destruct (Hfused ref Hmaintained) as [-> ->].
    by rewrite (orientationCandidate_sources ctl ref st st1 Hsrc1), Hforce. }
  eexists _, _. split; [done|].
  rewrite Hfb, updatePose_rotation.
  - rewrite Hori. cbv zeta. rewrite <- Hsum'.
    destruct (oriOdometryContacts st1) as [|ref1 [|ref2 [|ref3 refs]]].
    + done.
    + destruct (Hread ref1) as [-> _]; [left|done].
    + destruct (Hread ref1) as [-> ->]; [left|].
      destruct (Hread ref2) as [-> _]; [right; left|done].
    + destruct Hsrc as (_ & [-> _] & _). done.
  - rewrite Hpos. apply bool_decide_eq_true. intros Hnil.
    destruct sources as [|ref ?] eqn:Hs; [done|].
    assert (Href : ref ∈ maintainedAmong st1 (contactsFound st)).
    { assert (Hin : ref ∈ sources) by (rewrite Hs; left).
      unfold sources in Hin. by apply list_elem_of_filter in Hin as [_ Hin]. }
    rewrite (maintainedAmong_sources st st1 _ Hsrc1), maintainedAmong_contactsFound,
      Hnil in Href.
    by apply elem_of_nil in Href.
  - rewrite Hupd. apply orb_true_iff. right. by apply bool_decide_eq_true.
Qed.

(** No contact is maintained when no found contact was already set. *)
Lemma maintainedContacts_fresh st :
  (forall ref, ref ∈ foundContacts st -> wasAlreadySet_ (get st ref) = false) ->
  maintainedContacts st = [].
Proof.
  unfold maintainedContacts. generalize (foundContacts st).
  induction l as [|ref l IH]; intros Hfresh; [done|].
  rewrite filter_cons, decide_False.
  - apply IH. intros ref' Href'. apply Hfresh. by right.
  - rewrite (Hfresh ref); [done|left].
Qed.

(** [run]: the pose that a cycle outputs is [fbPose_]; it is the pose of the
    previous cycle when the detection leaves no maintained contact. *)
Lemma run_held findContacts ctl st :
  let detected :=
    set_contactsManager (findContacts ctl (contactsManager_ st)) st in
  wellFormed detected ->
  exists st' calls out,
    run findContacts ctl st = Ok (st', calls, out)
    /\ pose out = fbPose_ st'
    /\ ((forall ref, ref ∈ foundContacts detected ->
                     wasAlreadySet_ (get detected ref) = false) ->
        fbPose_ st' = fbPose_ st).
Proof.
  intros detected Hwf. unfold run.
  set (st0 := set_contactsManager _ _).
  assert (Hwf0 : wellFormed st0) by exact Hwf.
  destruct (updateContacts_Ok ctl st0 Hwf0)
    as (st2 & sums & st' & rest & Hrun & Hsrc & Hfb & Hrobot & _ & _ & Hpos & _).
  rewrite Hrun. cbn [mbind Result_bind].
  eexists _, _, _. split; [done|]. split.
  - unfold updateFbKinematics. rewrite Hrobot. simpl. by destruct (fbPose_ st').
  - intros Hfresh. rewrite (maintainedContacts_fresh st0 Hfresh) in Hpos.
    rewrite updatePose_held in Hfb by done.
    destruct Hsrc as (_ & [Hfb2 _] & _). by rewrite Hfb, Hfb2.
Qed.

End CycleClaims.

(** ** The blend of two orientations, with real numbers *)

Section RealFusion.
Import Eigen LeggedOdometry Odometry.
Context {so : StateObservation real}.
Local Open Scope R_scope.


End RealFusion.

(** ** The code run on concrete inputs, with binary64 numbers *)

Section Runs.
Import Eigen LeggedOdometry Odometry.
Local Open Scope float_scope.

Import Inputs.

(** C5 fails on the code: a foot found for the first time during this cycle
    ([wasAlreadySet_] is false, there is no maintained contact) is placed in
    the set of the contacts used for the orientation. *)
Theorem selectForOrientationOdometry_selects_fresh_contact :
  exists st',
    selectForOrientationOdometry (Inputs.freshLeftFoot (K:=binary64)) = Ok st'
    /\ oriOdometryContacts st' = [leftFoot]
    /\ wasAlreadySet_ (get st' leftFoot) = false
    /\ useForOrientation_ (get st' leftFoot) = true
    /\ maintainedContacts (Inputs.freshLeftFoot (K:=binary64)) = [].
Proof. eexists. split; [vm_compute; reflexivity|]. by vm_compute. Qed.

(** C4 fails on the code: with three eligible contacts of forces 1, 2 and 2,
    the set keeps the contacts of forces 1 and 2, not the two contacts of
    force 2; the third contact, equivalent to the second one for the
    comparison, is never inserted, and its flag [useForOrientation_] stays
    set although it is not in the set. *)
Theorem selectForOrientationOdometry_equal_forces :
  exists st',
    selectForOrientationOdometry (Inputs.equalForces (K:=binary64)) = Ok st'
    /\ oriOdometryContacts st' = [leftFoot; rightFoot]
    /\ forceNorm_ (get st' leftFoot) = 1
    /\ forceNorm_ (get st' rightFoot) = 2
    /\ forceNorm_ (get st' torso) = 2
    /\ useForOrientation_ (get st' torso) = true.
Proof. eexists. split; [vm_compute; reflexivity|]. by vm_compute. Qed.

(** C2 fails on the code, in two ways.

    First run: the left foot is maintained with a force of 2, the right foot
    is found for the first time with a force of 1.  Both are in the set of
    the contacts used for the orientation, the right foot first; the
    orientation is the blend of weight [u = 1 / 2], the force of the right
    foot divided by the force of the left foot alone, and not the blend of
    weight [1 / (1 + 2)]; moreover the orientation [R1] of the right foot was
    not computed during this cycle.

    Second run: two maintained feet measure the same force.  The second one is
    not inserted in the set, which holds one contact, and the orientation is
    the one of the left foot alone: no blend takes place at equal forces. *)
Theorem updateContacts_blend_with_fresh_contact :
  (exists st' calls,
     updateContacts (so:=standIn) ctl (freshRightFoot (K:=binary64))
     = Ok (st', calls)
     /\ oriOdometryContacts st' = [rightFoot; leftFoot]
     /\ wasAlreadySet_ (get st' rightFoot) = false
     /\ (let R1 := currentWorldOrientation_ (get st' rightFoot) in
         let R2 := currentWorldOrientation_ (get st' leftFoot) in
         let f1 := forceNorm_ (get st' rightFoot) in
         let f2 := forceNorm_ (get st' leftFoot) in
         let tilt := transpose (rotation (realRobot_posW (ctl (K:=binary64)))) in
         let merge := mergeRoll1Pitch1WithYaw2AxisAgnostic (StateObservation:=standIn) in
         f1 = 1 /\ f2 = 2
         /\ R1 = currentWorldOrientation_ (get freshRightFoot rightFoot)
         /\ rotation (fbPose_ st')
            = transpose (merge tilt (meanOri (so:=standIn) R1 R2 f1 f2))
         /\ rotation (fbPose_ st')
            <> transpose (merge tilt (meanOri (so:=standIn) R1 R2 f1 (f1 + f2)))))
  /\ (exists st' calls,
        updateContacts (so:=standIn) ctl (equalFeet (K:=binary64))
        = Ok (st', calls)
        /\ maintainedContacts (equalFeet (K:=binary64)) = [leftFoot; rightFoot]
        /\ forceNorm_ (get st' leftFoot) = 2
        /\ forceNorm_ (get st' rightFoot) = 2
        /\ useForOrientation_ (get st' leftFoot) = true
        /\ useForOrientation_ (get st' rightFoot) = true
        /\ currentWorldOrientation_ (get st' rightFoot) = quarterTurn
        /\ oriOdometryContacts st' = [leftFoot]
        /\ rotation (fbPose_ st')
           = transpose
               (mergeRoll1Pitch1WithYaw2AxisAgnostic (StateObservation:=standIn)
                  (transpose (rotation (realRobot_posW (ctl (K:=binary64)))))
                  (currentWorldOrientation_ (get st' leftFoot)))).
Proof.
  split.
  - eexists _, _. split; [vm_compute; reflexivity|].
    split; [by vm_compute|]. split; [by vm_compute|].
    cbv zeta. split; [by vm_compute|]. split; [by vm_compute|].
    split; [by vm_compute|]. split; [by vm_compute|].
    vm_compute. discriminate.
  - eexists _, _. split; [vm_compute; reflexivity|].
    repeat (split; [by vm_compute|]). by vm_compute.
Qed.


(** The scenario of two maintained feet, with forces 2 and 1 and candidates
    [(1, 0, 0)] and [(0, 1, 0)], run with binary64 numbers: the position is
    [((1·2 + 0·1) / 3, (0·2 + 1·1) / 3, 0)]. *)
Lemma updateContacts_two_feet :
  exists st' calls,
    updateContacts (so:=standIn) ctl (twoFeet (K:=binary64)) = Ok (st', calls)
    /\ translation (fbPose_ st') = V3 (K:=binary64) (2 / 3) (1 / 3) 0.
Proof. eexists _, _. split; [vm_compute; reflexivity|]. by vm_compute. Qed.

End Runs.

(** * Further properties of the registry and of the odometry *)

(** ** The registry: accessors *)

Section RegistryAccessors.
Import ContactsManager Odometry.
Context {K : Double}.

Local Abbreviation Contact := (LeggedOdometry.LoContactWithSensor K).
Local Abbreviation add :=
  (addContactToManager (ContactT:=Contact) LeggedOdometry.newContact).
Local Abbreviation built :=
  (reachable (ContactT:=Contact) LeggedOdometry.newContact).

(** In a manager built by [addContactToManager], a contact is registered
    under its own name. *)
Lemma reachable_names (m : ContactsManager.t Contact) :
  built m ->
  forall name c, listContacts_ m !! name = Some c -> LeggedOdometry.name_ c = name.
Proof.
  induction 1 as [|m name surface Hm IH]; intros k c.
  - simpl. by rewrite lookup_empty.
  - unfold addContactToManager.
    destruct (listContacts_ m !! name) eqn:Hname; simpl; [apply IH|].
    destruct (decide (k = name)) as [->|Hne].
    + rewrite lookup_insert_eq. by intros [= <-].
    + rewrite lookup_insert_ne by done. apply IH.
Qed.

(** The insertion order of a manager built by [addContactToManager] lists
    the registered names, once each. *)
Lemma reachable_insertOrder (m : ContactsManager.t Contact) :
  built m ->
  NoDup (insertOrder_ m)
  /\ forall name, name ∈ insertOrder_ m <-> is_Some (listContacts_ m !! name).
Proof.
  intros Hm. destruct (reachable_sequentialIds m Hm) as (_ & Hid & Hpos). split.
  - apply NoDup_alt. intros i j name Hi Hj.
    destruct (Hpos i name Hi) as (c & Hc & Hci).
    destruct (Hpos j name Hj) as (c' & Hc' & Hcj).
    rewrite Hc in Hc'. injection Hc' as <-. lia.
  - intros name. split.
    + intros (i & Hi)%list_elem_of_lookup_1.
      destruct (Hpos i name Hi) as (c & Hc & _). eauto.
    + intros [c Hc]. destruct (Hid name c Hc) as [_ Hi].
      by eapply list_elem_of_lookup_2.
Qed.

(** X1: Round trip between names and identifiers: in a manager built by
    [addContactToManager], [getIdxFromName] and [getNameFromIdx] are inverse
    of each other, and [contact(idx)] designates the contact that
    [contact(name)] designates for the name of that identifier; its [getID()]
    is [idx]. *)
Theorem getNameFromIdx_getIdxFromName (m : ContactsManager.t Contact)
    (name : string) (idx : Z) :
  built m ->
  (getIdxFromName LeggedOdometry.id_ m name = Ok idx <-> getNameFromIdx m idx = Ok name)
  /\ (getNameFromIdx m idx = Ok name ->
      contactByIdx m idx = contact m name
      /\ contact m name = Ok name
      /\ exists c, listContacts_ m !! name = Some c
                   /\ LeggedOdometry.id_ c = idx /\ LeggedOdometry.name_ c = name).
Proof.
  intros Hm. destruct (reachable_sequentialIds m Hm) as (_ & Hid & Hpos).
  assert (Hback : getNameFromIdx m idx = Ok name ->
                  exists c, listContacts_ m !! name = Some c
                            /\ LeggedOdometry.id_ c = idx).
  { unfold getNameFromIdx, vector_at.
    destruct (Z.ltb_spec idx 0) as [|Hidx]; [done|].
    destruct (insertOrder_ m !! Z.to_nat idx) as [n|] eqn:Hn; [|done].
    intros [= ->]. destruct (Hpos _ _ Hn) as (c & Hc & Hci).
    exists c. split; [done|]. lia. }
  split; [split|].
  - unfold getIdxFromName, map_at.
    destruct (listContacts_ m !! name) as [c|] eqn:Hc; simpl; [|done].
    intros [= <-]. destruct (Hid name c Hc) as [H0 Hi].
    unfold getNameFromIdx, vector_at.
    destruct (Z.ltb_spec (LeggedOdometry.id_ c) 0) as [|_]; [lia|]. by rewrite Hi.
  - intros Hname. destruct (Hback Hname) as (c & Hc & Hci).
    unfold getIdxFromName, map_at. rewrite Hc. simpl. by rewrite Hci.
  - intros Hname. destruct (Hback Hname) as (c & Hc & Hci).
    assert (Hcontact : contact m name = Ok name)
      by (unfold contact, map_at; by rewrite Hc).
    split; [|split; [done|]].
    + unfold contactByIdx. by rewrite Hname.
    + exists c. split; [done|]. split; [done|]. by eapply reachable_names.
Qed.

(** X2: Bounds: in a manager built by [addContactToManager], the identifiers in
    use are [0 .. idx_ - 1]: [getNameFromIdx] and [contact(idx)] return for
    them and throw [std::out_of_range] for every other integer; [getList]
    has [idx_] names without repetition, which are the names for which
    [contact(name)] returns, and [contact(name)] throws [std::out_of_range]
    for every other name. *)
Theorem contactByIdx_bounds (m : ContactsManager.t Contact) :
  built m ->
  (forall idx, 0 <= idx < idx_ m ->
     exists name, getNameFromIdx m idx = Ok name /\ contactByIdx m idx = Ok name)
  /\ (forall idx, ~ (0 <= idx < idx_ m) ->
        getNameFromIdx m idx = Throw out_of_range
        /\ contactByIdx m idx = Throw out_of_range)
  /\ NoDup (getList m)
  /\ Z.of_nat (length (getList m)) = idx_ m
  /\ (forall name, name ∈ getList m -> contact m name = Ok name)
  /\ (forall name, name ∉ getList m ->
        contact m name = Throw out_of_range
        /\ getIdxFromName LeggedOdometry.id_ m name = Throw out_of_range).
Proof.
  intros Hm. destruct (reachable_sequentialIds m Hm) as (Hidx & Hid & Hpos).
  destruct (reachable_insertOrder m Hm) as [Hnodup Hdom].
  split; [|split; [|split; [done|split; [by rewrite Hidx|split]]]].
  - intros idx [H0 Hlt]. unfold contactByIdx, getNameFromIdx, vector_at.
    destruct (Z.ltb_spec idx 0) as [|_]; [lia|].
    destruct (lookup_lt_is_Some_2 (insertOrder_ m) (Z.to_nat idx)) as [name Hname];
      [lia|].
    rewrite Hname. exists name. split; [done|]. simpl.
    destruct (Hpos _ _ Hname) as (c & Hc & _).
    unfold contact, map_at. by rewrite Hc.
  - intros idx Hout. unfold contactByIdx, getNameFromIdx, vector_at.
    destruct (Z.ltb_spec idx 0) as [|H0]; [done|].
    rewrite (lookup_ge_None_2 (insertOrder_ m) (Z.to_nat idx)) by lia. done.
  - intros name [c Hc]%Hdom. unfold contact, map_at. by rewrite Hc.
  - intros name Hname. unfold contact, getIdxFromName, map_at.
    destruct (listContacts_ m !! name) as [c|] eqn:Hc; [|done].
    destruct Hname. apply Hdom. eauto.
Qed.

End RegistryAccessors.

Section RegistryFrame.
Import ContactsManager.
Context {ContactT : Type}.
Variable newContact : Z -> string -> string -> ContactT.

(** X3: [addContactToManager] never removes nor alters a registered contact: the
    contacts registered before the call are registered after it with the
    same contents, the only name that may become registered is the one
    given, the insertion order is extended at its end, the counter does not
    decrease, and the detection method and the sets of found, old and
    removed contacts are left as they are. *)
Theorem addContactToManager_keeps (m : ContactsManager.t ContactT)
    (name surface : string) :
  let m' := (addContactToManager newContact m name surface).1 in
  (forall k c, listContacts_ m !! k = Some c -> listContacts_ m' !! k = Some c)
  /\ (forall k, is_Some (listContacts_ m' !! k)
                <-> k = name \/ is_Some (listContacts_ m !! k))
  /\ getList m `prefix_of` getList m'
  /\ idx_ m <= idx_ m'
  /\ contactsDetectionMethod_ m' = contactsDetectionMethod_ m
  /\ contactsFound m' = contactsFound m
  /\ oldContacts_ m' = oldContacts_ m
  /\ removedContacts m' = removedContacts m.
Proof.
  unfold addContactToManager.
  destruct (listContacts_ m !! name) as [c0|] eqn:Hname; simpl.
  - split; [done|]. split.
    + intros k. split; [by right|]. intros [->|?]; [by rewrite Hname|done].
    + split; [done|]. split; [lia|done].
  - split; [|split].
    + intros k c Hc. rewrite lookup_insert_ne; [done|]. intros <-. congruence.
    + intros k. rewrite lookup_insert_is_Some. split.
      * intros [<-|[_ ?]]; [by left|by right].
      * intros [->|Hk]; [by left|].
        destruct (decide (name = k)); [by left|by right].
    + split; [by apply prefix_app_r|]. split; [lia|done].
Qed.

End RegistryFrame.

(** ** The log entries of a contact *)

Section LogEntries.
Import Eigen LeggedOdometry Odometry.
Context {K : Double}.
Implicit Types (st : t K).

Lemma list_ascii_of_string_app (a b : string) :
  list_ascii_of_string (a +:+ b) = list_ascii_of_string a ++ list_ascii_of_string b.
Proof. induction a as [|ch a IH]; simpl; [done|by rewrite IH]. Qed.

Lemma list_ascii_of_string_inj (a b : string) :
  list_ascii_of_string a = list_ascii_of_string b -> a = b.
Proof.
  intros H. rewrite <- (string_of_list_ascii_of_string a),
    <- (string_of_list_ascii_of_string b). by rewrite H.
Qed.

(** Two entries [odometry + "_" + name + suffix] that are equal have the same
    name when they have the same suffix, and suffixes that end alike in any
    case. *)
Lemma logEntry_inj (odometry name1 name2 suffix1 suffix2 : string) :
  odometry +:+ "_" +:+ name1 +:+ suffix1 = odometry +:+ "_" +:+ name2 +:+ suffix2 ->
  (suffix1 = suffix2 -> name1 = name2)
  /\ forall n : nat,
       (n <= String.length suffix1)%nat -> (n <= String.length suffix2)%nat ->
       take n (reverse (list_ascii_of_string suffix1))
       = take n (reverse (list_ascii_of_string suffix2)).
Proof.
  assert (Hlen : forall x, length (list_ascii_of_string x) = String.length x)
    by (induction x; simpl; congruence).
  intros H. apply (f_equal list_ascii_of_string) in H.
  rewrite !list_ascii_of_string_app in H. do 2 apply app_inv_head in H. split.
  - intros <-. apply app_inv_tail in H. by apply list_ascii_of_string_inj.
  - intros n H1 H2. apply (f_equal (fun l => take n (reverse l))) in H. simpl in H.
    rewrite !reverse_app, !take_app_le in H; [done|..];
      by rewrite length_reverse, Hlen.
Qed.

(** X4: The log entries of one odometry do not collide: the three entries of a
    contact are pairwise distinct, an entry of a contact is an entry of no
    contact of another name, and [removeContactLogEntries] removes the
    entries that [addContactLogEntries] adds, and these only. *)
Theorem logEntries_collision_free st (name1 name2 : string) :
  NoDup (logEntries st name1)
  /\ (forall entry, entry ∈ logEntries st name1 -> entry ∈ logEntries st name2 ->
                    name1 = name2)
  /\ (forall entry,
        Logger_removeLogEntry entry ∈ removeContactLogEntries st name1
        <-> Logger_addLogEntry entry ∈ addContactLogEntries st name1).
Proof.
  assert (Hcross : forall n1 n2 s1 s2 (k : nat),
             (k <= String.length s1)%nat -> (k <= String.length s2)%nat ->
             take k (reverse (list_ascii_of_string s1))
             <> take k (reverse (list_ascii_of_string s2)) ->
             odometryName_ st +:+ "_" +:+ n1 +:+ s1
             <> odometryName_ st +:+ "_" +:+ n2 +:+ s2).
  { intros n1 n2 s1 s2 k H1 H2 Hne Heq.
    destruct (logEntry_inj _ _ _ _ _ Heq) as [_ Hends]. by apply (Hne (Hends k H1 H2)). }
  assert (Hsame : forall n1 n2 s,
             odometryName_ st +:+ "_" +:+ n1 +:+ s
             = odometryName_ st +:+ "_" +:+ n2 +:+ s -> n1 = n2).
  { intros n1 n2 s Heq. by destruct (logEntry_inj _ _ _ _ _ Heq) as [Hn _]; auto. }
  assert (H12 : forall n1 n2,
             odometryName_ st +:+ "_" +:+ n1 +:+ "_ref_position"
             <> odometryName_ st +:+ "_" +:+ n2 +:+ "_ref_orientation")
    by (intros; apply (Hcross _ _ _ _ 5%nat); simpl; (lia || done)).
  assert (H13 : forall n1 n2,
             odometryName_ st +:+ "_" +:+ n1 +:+ "_ref_position"
             <> odometryName_ st +:+ "_" +:+ n2 +:+ "_ref_orientation_RollPitchYaw")
    by (intros; apply (Hcross _ _ _ _ 1%nat); simpl; (lia || done)).
  assert (H23 : forall n1 n2,
             odometryName_ st +:+ "_" +:+ n1 +:+ "_ref_orientation"
             <> odometryName_ st +:+ "_" +:+ n2 +:+ "_ref_orientation_RollPitchYaw")
    by (intros; apply (Hcross _ _ _ _ 1%nat); simpl; (lia || done)).
  unfold removeContactLogEntries, addContactLogEntries, logEntries.
  split; [|split].
  - repeat constructor; rewrite ?elem_of_cons, ?elem_of_nil; intros H.
    + destruct H as [H|[H|[]]]; [by apply H12 in H|by apply H13 in H].
    + destruct H as [H|[]]. by apply H23 in H.
    + done.
  - intros entry H1 H2.
    repeat (apply elem_of_cons in H1 as [->|H1]);
      try (by apply elem_of_nil in H1);
      repeat (apply elem_of_cons in H2 as [H2|H2]);
      try (by apply elem_of_nil in H2);
      try (by apply Hsame in H2);
      try (by apply H12 in H2); try (by apply H13 in H2); try (by apply H23 in H2);
      symmetry in H2;
      try (by apply H12 in H2); try (by apply H13 in H2); by apply H23 in H2.
  - intros entry. rewrite !list_elem_of_fmap. split.
    + intros (e & [= ->] & He). eauto.
    + intros (e & [= ->] & He). eauto.
Qed.

End LogEntries.

(** ** [setNewContact] in closed form *)

Section Anchors.
Import Eigen LeggedOdometry Odometry.
Context {K : Double} {so : StateObservation K}.
Implicit Types (st : t K) (ref : string) (c : LoContactWithSensor K).

Lemma update_update ref (f g : LoContactWithSensor K -> LoContactWithSensor K) st :
  update ref f (update ref g st) = update ref (f ∘ g) st.
Proof.
  unfold update, set_contactsManager, ContactsManager.set_listContacts. simpl.
  by rewrite alter_alter_eq.
Qed.

Lemma update_ext ref (f g : LoContactWithSensor K -> LoContactWithSensor K) st :
  (forall c, f c = g c) -> update ref f st = update ref g st.
Proof.
  intros Hfg. unfold update, set_contactsManager, ContactsManager.set_listContacts.
  simpl. by rewrite (alter_ext f g) by auto.
Qed.

(** [setNewContact] in closed form. *)
Lemma setNewContact_eq ctl (fs : ForceSensor K) st :
  setNewContact ctl fs st
  = match listContacts st !! fs_name fs with
    | Some _ => Ok (update (fs_name fs) (set_worldRefKine (anchor ctl fs st)) st)
    | None => Throw out_of_range
    end.
Proof.
  destruct (listContacts st !! fs_name fs) as [c|] eqn:Hc.
  - assert (Hname : is_Some (listContacts st !! fs_name fs)) by eauto.
    assert (Hassign : forall f g,
               assignRefKine (fs_name fs) f (update (fs_name fs) g st)
               = Ok (update (fs_name fs)
                       ((fun c => set_worldRefKine (f (worldRefKine_ c)) c) ∘ g) st)).
    { intros f g. rewrite assignRefKine_Ok by by apply lookup_update_is_Some.
      by rewrite update_update. }
    unfold setNewContact, anchor.
    destruct (detectionFromThreshold_ st); cbv zeta.
    + rewrite assignRefKine_Ok by done. cbn [mbind Result_bind].
      rewrite Hassign. cbn [mbind Result_bind].
      change (odometry6d_ (update _ _ st)) with (odometry6d_ st).
      destruct (odometry6d_ st); cbn [negb].
      * f_equal; by apply update_ext.
      * rewrite Hassign. f_equal; by apply update_ext.
    + assert (contactWithSensorByName st (fs_name fs) = Ok (fs_name fs)) as ->
        by by apply contactWithSensorByName_Ok.
      cbn [mbind Result_bind].
      rewrite assignRefKine_Ok by done. cbn [mbind Result_bind].
      rewrite Hassign. cbn [mbind Result_bind].
      change (odometry6d_ (update _ _ st)) with (odometry6d_ st).
      destruct (odometry6d_ st); cbn [negb].
      * f_equal; by apply update_ext.
      * rewrite Hassign. f_equal; by apply update_ext.
  - assert (Hthrow : contactWithSensorByName st (fs_name fs) = Throw out_of_range).
    { unfold contactWithSensorByName, ContactsManager.contact, ContactsManager.map_at.
      unfold listContacts in Hc. by rewrite Hc. }
    unfold setNewContact, assignRefKine. rewrite Hthrow.
    by destruct (detectionFromThreshold_ st).
Qed.

(** The anchor depends on the odometry robot, on the configuration and on
    the surface of the contact only. *)
Lemma anchor_frame ctl (fs : ForceSensor K) st s :
  sameRegistry st s -> samePose st s -> agree surface st s ->
  anchor ctl fs s = anchor ctl fs st.
Proof.
  intros Hreg [_ Hrobot] Hsurface. unfold anchor.
  by rewrite (same_detectionFromThreshold _ _ Hreg), (same_odometry6d _ _ Hreg),
    Hrobot, (Hsurface (fs_name fs)).
Qed.

(** X5: What [setNewContact] does: it throws [std::out_of_range] when no contact
    is registered under the name of the sensor; otherwise it returns, and
    the state differs by the reference kinematics of that contact only,
    which become the kinematics of the sensor frame (detection from
    thresholds) or of the surface of the contact (detection from surfaces)
    in the odometry robot, whatever they were before. *)
Theorem setNewContact_effect ctl (fs : ForceSensor K) st :
  (listContacts st !! fs_name fs = None ->
   setNewContact ctl fs st = Throw out_of_range)
  /\ (is_Some (listContacts st !! fs_name fs) ->
      exists st',
        setNewContact ctl fs st = Ok st'
        /\ worldRefKine_ (get st' (fs_name fs)) = anchor ctl fs st
        /\ get st' (fs_name fs)
           = set_worldRefKine (anchor ctl fs st) (get st (fs_name fs))
        /\ (forall k, k <> fs_name fs -> get st' k = get st k)
        /\ sameRegistry st st' /\ samePose st st'
        /\ oriOdometryContacts st' = oriOdometryContacts st).
Proof.
  rewrite setNewContact_eq. split.
  - by intros ->.
  - intros Hname. destruct Hname as [c Hc]. rewrite Hc.
    assert (Hname : is_Some (listContacts st !! fs_name fs)) by eauto.
    eexists. split; [done|]. rewrite get_update_eq by done.
    split; [done|]. split; [done|].
    split; [intros k Hk; by rewrite get_update_ne|].
    split; [by apply sameRegistry_update|]. by split.
Qed.

(** X6: Anchoring a contact twice in a row, with the odometry robot unchanged,
    is the same as anchoring it once. *)
Theorem setNewContact_idempotent ctl (fs : ForceSensor K) st st' :
  setNewContact ctl fs st = Ok st' -> setNewContact ctl fs st' = Ok st'.
Proof.
  rewrite !setNewContact_eq.
  destruct (listContacts st !! fs_name fs) as [c|] eqn:Hc; [|done].
  intros [= <-]. rewrite listContacts_update, lookup_alter_eq, Hc. simpl.
  rewrite update_update. f_equal.
  rewrite (anchor_frame ctl fs st).
  - by apply update_ext.
  - by apply sameRegistry_update.
  - by split.
  - by apply agree_update.
Qed.

End Anchors.

(** ** [getContactKinematics] *)

Section Measure.
Import Eigen LeggedOdometry Odometry.
Context {K : Double} {so : StateObservation K}.
Implicit Types (st s : t K) (ref : string) (c : LoContactWithSensor K).

(** X8: Measuring a contact twice in a row is the same as measuring it once:
    [getContactKinematics] returns the same kinematics and leaves the same
    state when it is called again on the state that it left.  It writes
    nothing when the detection relies on thresholds, and the force norm of
    the given contact only when it relies on surfaces. *)
Theorem getContactKinematics_idempotent ctl ref st :
  let measured := getContactKinematics ctl ref st in
  getContactKinematics ctl ref measured.2 = measured
  /\ (detectionFromThreshold_ st = true -> measured.2 = st)
  /\ (forall k, k <> ref -> get measured.2 k = get st k)
  /\ agree (set_forceNorm d0) st measured.2
  /\ sameRegistry st measured.2 /\ samePose st measured.2
  /\ oriOdometryContacts measured.2 = oriOdometryContacts st.
Proof.
  unfold getContactKinematics.
  destruct (detectionFromThreshold_ st) eqn:Hthr; cbv zeta.
  - cbn [fst snd]. rewrite Hthr. split; [done|]. split; [done|]. split; [done|].
    split; [done|]. split; [apply sameRegistry_refl|]. by split.
  - cbn [fst snd].
    change (detectionFromThreshold_ (update _ _ st)) with (detectionFromThreshold_ st).
    change (odometryRobot_ (update _ _ st)) with (odometryRobot_ st).
    rewrite Hthr, (get_update_field name_), (get_update_field surface) by done.
    split; [|split; [done|split; [|split; [|split; [|done]]]]].
    + f_equal. rewrite update_update. by apply update_ext.
    + intros k Hk. by rewrite get_update_ne.
    + by apply agree_update.
    + by apply sameRegistry_update.
Qed.

End Measure.

(** ** The selection: errors and frame *)

Section SelectionFrame.
Import Eigen LeggedOdometry Odometry.
Context {K : Double}.
Implicit Types (st s : t K) (ref : string) (l : list Z).

(** [contact(idx)] throws nothing but [std::out_of_range]. *)
Lemma contactWithSensor_Throw st idx e :
  contactWithSensor st idx = Throw e -> e = out_of_range.
Proof.
  unfold contactWithSensor, ContactsManager.contactByIdx,
    ContactsManager.getNameFromIdx, ContactsManager.vector_at,
    ContactsManager.contact, ContactsManager.map_at.
  destruct (idx <? 0); [by intros [= <-]|].
  destruct (_ !! Z.to_nat idx) as [name|]; simpl; [|by intros [= <-]].
  destruct (_ !! name); simpl; [done|by intros [= <-]].
Qed.

Lemma eligibleAmong_sameRegistry st s l :
  sameRegistry st s -> eligibleAmong s l = eligibleAmong st l.
Proof.
  intros Hreg. unfold eligibleAmong.
  replace (omap (fun idx => match contactWithSensor s idx with
                            | Ok ref => Some ref
                            | Throw _ => None
                            end) l)
    with (omap (fun idx => match contactWithSensor st idx with
                            | Ok ref => Some ref
                            | Throw _ => None
                            end) l).
  - apply list_filter_iff. intros ref. by rewrite (same_names _ _ Hreg).
  - induction l as [|idx l IH]; csimpl; [done|].
    by rewrite (sameRegistry_contactWithSensor st s idx Hreg), IH.
Qed.

Lemma eligibleAmong_app st idx l :
  eligibleAmong st (idx :: l) = eligibleAmong st [idx] ++ eligibleAmong st l.
Proof.
  unfold eligibleAmong. csimpl. destruct (contactWithSensor st idx); simpl; [|done].
  rewrite !filter_cons, filter_nil. by destruct (decide _).
Qed.

(** One iteration of the first loop of the selection: it throws when the
    identifier designates no contact, and writes nothing but the flag of
    the contact and the set otherwise. *)
Lemma selectContact_result idx s :
  match selectContact idx s with
  | Ok s' =>
      (exists ref, contactWithSensor s idx = Ok ref)
      /\ selectionFrame s s'
      /\ (forall x, x ∈ oriOdometryContacts s' ->
                    x ∈ oriOdometryContacts s \/ x ∈ eligibleAmong s [idx])
      /\ (forall x, x ∉ eligibleAmong s [idx] ->
                    useForOrientation_ (get s' x) = useForOrientation_ (get s x))
  | Throw e => e = out_of_range /\ contactWithSensor s idx = Throw out_of_range
  end.
Proof.
  unfold selectContact, eligibleAmong. csimpl.
  destruct (contactWithSensor s idx) as [ref|e] eqn:Href; simpl.
  - rewrite filter_cons, filter_nil.
    destruct (index 0 "Hand" (name_ (get s ref))) as [n|] eqn:Hname.
    + rewrite decide_False by done. split; [eauto|].
      split; [apply selectionFrame_refl|]. split; [by left|done].
    + rewrite decide_True by done. split; [eauto|]. split; [|split].
      * eapply selectionFrame_trans; [apply selectionFrame_flag|].
        apply selectionFrame_set_oriOdometryContacts.
      * intros x Hx. cbn in Hx.
        apply set_insert_elem in Hx as [->|Hx]; [right; left|by left].
      * intros x Hx. apply not_elem_of_cons in Hx as [Hx _].
        change (useForOrientation_
                  (get (update ref (set_useForOrientation true) s) x)
                = useForOrientation_ (get s x)).
        by rewrite get_update_ne.
  - apply contactWithSensor_Throw in Href as ->. done.
Qed.

(** The first loop of the selection. *)
Lemma selectContacts_result l s :
  match forEach selectContact l s with
  | Ok s' =>
      (forall idx, idx ∈ l -> exists ref, contactWithSensor s idx = Ok ref)
      /\ selectionFrame s s'
      /\ (forall x, x ∈ oriOdometryContacts s' ->
                    x ∈ oriOdometryContacts s \/ x ∈ eligibleAmong s l)
      /\ (forall x, x ∉ eligibleAmong s l ->
                    useForOrientation_ (get s' x) = useForOrientation_ (get s x))
  | Throw e =>
      e = out_of_range
      /\ exists idx, idx ∈ l /\ contactWithSensor s idx = Throw out_of_range
  end.
Proof.
  revert s. induction l as [|idx l IH]; intros s.
  - simpl. split; [by intros idx ?%elem_of_nil|].
    split; [apply selectionFrame_refl|]. split; [by left|done].
  - cbn [forEach]. pose proof (selectContact_result idx s) as Hstep.
    destruct (selectContact idx s) as [s1|e]; cbn [mbind Result_bind].
    + destruct Hstep as (Hidx & Hframe1 & Hfrom1 & Hflags1).
      pose proof Hframe1 as (Hreg1 & _).
      specialize (IH s1). rewrite (eligibleAmong_sameRegistry s s1 l Hreg1) in IH.
      destruct (forEach selectContact l s1) as [s2|e].
      * destruct IH as (Hl & Hframe2 & Hfrom2 & Hflags2).
        rewrite eligibleAmong_app. split; [|split; [|split]].
        -- intros idx' [->|Hidx']%elem_of_cons; [done|].
           rewrite <- (sameRegistry_contactWithSensor s s1 idx' Hreg1). by apply Hl.
        -- by eapply selectionFrame_trans.
        -- intros x Hx. rewrite elem_of_app.
           destruct (Hfrom2 x Hx) as [Hx1|?]; [|tauto].
           destruct (Hfrom1 x Hx1); tauto.
        -- intros x Hx. apply not_elem_of_app in Hx as [Hx1 Hx2].
           by rewrite Hflags2, Hflags1.
      * destruct IH as (-> & idx' & Hidx' & Hthrow). split; [done|].
        exists idx'. split; [by right|].
        by rewrite <- (sameRegistry_contactWithSensor s s1 idx' Hreg1).
    + destruct Hstep as [-> Hthrow]. split; [done|]. exists idx. split; [left|done].
Qed.

(** The second loop of the selection writes the flags of contacts of the set
    only. *)
Lemma evictLowestForces_others (refs : list string) st x :
  x ∉ refs ->
  useForOrientation_ (get (evictLowestForces refs st) x)
  = useForOrientation_ (get st x).
Proof.
  revert st. induction refs as [|ref refs IH]; intros st Hx; [done|].
  cbn [evictLowestForces]. apply not_elem_of_cons in Hx as [Hne Hx].
  destruct (2 <? Z.of_nat (length (ref :: refs))); [|done].
  rewrite IH by done. by rewrite get_update_ne.
Qed.

(** The first loop of the selection sets the flag of the contacts that it
    inserts, and clears none. *)
Lemma selectContacts_flagged l s s' :
  forEach selectContact l s = Ok s' ->
  flagged s (oriOdometryContacts s) -> flagged s' (oriOdometryContacts s').
Proof.
  revert s. induction l as [|idx l IH]; intros s; [by intros [= <-]|].
  cbn [forEach]. destruct (selectContact idx s) as [s1|] eqn:Hstep; [|done].
  cbn [mbind Result_bind]. intros Hloop Hflagged. apply (IH s1 Hloop).
  revert Hstep. unfold selectContact.
  destruct (contactWithSensor s idx) as [ref|] eqn:Href; simpl; [|done].
  pose proof (contactWithSensor_Ok s idx ref Href) as Hdom.
  destruct (index 0 "Hand" (name_ (get s ref))); [by intros [= <-]|].
  intros [= <-] x Hx. cbn in Hx.
  change (is_Some (listContacts (update ref (set_useForOrientation true) s) !! x)
          /\ useForOrientation_ (get (update ref (set_useForOrientation true) s) x)
             = true).
  destruct (decide (x = ref)) as [->|Hne].
  - split; [by apply lookup_update_is_Some|]. by rewrite get_update_eq.
  - apply set_insert_elem in Hx as [->|Hx]; [done|].
    destruct (Hflagged x Hx) as [Hreg Hflag].
    split; [by apply lookup_update_is_Some|]. by rewrite get_update_ne.
Qed.

(** When the selection leaves one contact in the set, nothing was erased
    from the set, and the flag of that contact is set. *)
Lemma selectForOrientationOdometry_single st st' ref :
  selectForOrientationOdometry st = Ok st' ->
  oriOdometryContacts st' = [ref] ->
  useForOrientation_ (get st' ref) = true.
Proof.
  unfold selectForOrientationOdometry.
  destruct (forEach selectContact (contactsFound (set_oriOdometryContacts [] st))
              (set_oriOdometryContacts [] st)) as [s1|] eqn:Hloop; [|done].
  cbn [mbind Result_bind]. intros [= <-] Hset.
  pose proof (selectContacts_flagged _ _ _ Hloop) as Hflagged.
  destruct (evictLowestForces_spec (oriOdometryContacts s1) s1) as [_ Hori].
  rewrite Hset in Hori.
  destruct (oriOdometryContacts s1) as [|c1 [|c2 refs]] eqn:Hrefs.
  - done.
  - injection Hori as ->. cbn [evictLowestForces]. simpl.
    apply Hflagged; [by intros x ?%elem_of_nil|left].
  - exfalso. apply (f_equal length) in Hori. rewrite length_drop in Hori.
    simpl in Hori. lia.
Qed.

(** X9: Error behaviour of the selection: [selectForOrientationOdometry] returns
    when every identifier of [contactsFound_] designates a registered
    contact, and throws [std::out_of_range], and nothing else, when one of
    them does not; in that case [updateContacts] throws it as well. *)
Theorem selectForOrientationOdometry_out_of_range st :
  ((exists st', selectForOrientationOdometry st = Ok st')
   <-> forall idx, idx ∈ contactsFound st -> exists ref, contactWithSensor st idx = Ok ref)
  /\ (selectForOrientationOdometry st = Throw out_of_range
      <-> exists idx, idx ∈ contactsFound st
                      /\ contactWithSensor st idx = Throw out_of_range)
  /\ (forall msg, selectForOrientationOdometry st <> Throw (runtime_error msg))
  /\ (forall (so : StateObservation K) (ctl : MCController K) e,
        selectForOrientationOdometry st = Throw e ->
        updateContacts ctl st = Throw e).
Proof.
  unfold selectForOrientationOdometry, updateContacts, selectForOrientationOdometry.
  pose proof (selectContacts_result (contactsFound (set_oriOdometryContacts [] st))
                (set_oriOdometryContacts [] st)) as Hloop.
  assert (Hcws : forall idx,
             contactWithSensor (set_oriOdometryContacts [] st) idx
             = contactWithSensor st idx) by done.
  change (contactsFound (set_oriOdometryContacts [] st)) with (contactsFound st) in *.
  destruct (forEach selectContact (contactsFound st) (set_oriOdometryContacts [] st))
    as [s1|e]; cbn [mbind Result_bind].
  - destruct Hloop as (Hl & _). split; [|split; [|split]].
    + split; [intros _ idx Hidx|eauto]. rewrite <- Hcws. by apply Hl.
    + split; [done|]. intros (idx & Hidx & Hthrow).
      destruct (Hl idx Hidx) as [ref Href]. rewrite Hcws in Href. congruence.
    + done.
    + done.
  - destruct Hloop as (-> & idx & Hidx & Hthrow). rewrite Hcws in Hthrow.
    split; [|split; [|split]].
    + split; [by intros [st' ?]|]. intros Hl. destruct (Hl idx Hidx). congruence.
    + split; [eauto|done].
    + done.
    + by intros ? ? e [= <-].
Qed.

(** X10: What the selection writes: when every found identifier designates a
    registered contact, [selectForOrientationOdometry] returns a state that
    differs from the given one by the flags [useForOrientation_] and by the
    set only; the set holds at most two contacts, all found during this
    cycle and without [Hand] in their name; and the flag of every other
    contact (one with [Hand] in its name, or one that is not found during
    this cycle) is left as it was. *)
Theorem selectForOrientationOdometry_writes_flags st :
  (forall idx, idx ∈ contactsFound st -> exists ref, contactWithSensor st idx = Ok ref) ->
  exists st',
    selectForOrientationOdometry st = Ok st'
    /\ selectionFrame st st'
    /\ (length (oriOdometryContacts st') <= 2)%nat
    /\ (forall x, x ∈ oriOdometryContacts st' -> x ∈ eligibleContacts st)
    /\ (forall x, x ∉ eligibleContacts st ->
                  useForOrientation_ (get st' x) = useForOrientation_ (get st x)).
Proof.
  intros Hfound. unfold selectForOrientationOdometry.
  pose proof (selectContacts_result (contactsFound (set_oriOdometryContacts [] st))
                (set_oriOdometryContacts [] st)) as Hloop.
  change (contactsFound (set_oriOdometryContacts [] st)) with (contactsFound st) in *.
  destruct (forEach selectContact (contactsFound st) (set_oriOdometryContacts [] st))
    as [s1|e]; cbn [mbind Result_bind].
  - destruct Hloop as (_ & Hframe1 & Hfrom1 & Hflags1).
    destruct (evictLowestForces_spec (oriOdometryContacts s1) s1) as [Hframe2 Hori].
    assert (Helig : eligibleAmong (set_oriOdometryContacts [] st) (contactsFound st)
                    = eligibleContacts st) by done.
    rewrite Helig in Hfrom1, Hflags1.
    assert (Hfrom : forall x, x ∈ oriOdometryContacts s1 -> x ∈ eligibleContacts st).
    { intros x Hx. destruct (Hfrom1 x Hx) as [Hx0|Hx0]; [|done].
      by apply elem_of_nil in Hx0. }
    eexists. split; [done|]. split; [|split; [|split]].
    + eapply selectionFrame_trans; [apply selectionFrame_set_oriOdometryContacts|].
      by eapply selectionFrame_trans.
    + rewrite Hori, length_drop. lia.
    + intros x Hx. rewrite Hori in Hx. apply Hfrom.
      by apply (subseteq_drop (length (oriOdometryContacts s1) - 2)).
    + intros x Hx. rewrite evictLowestForces_others; [by apply Hflags1|].
      intros Hin. by apply Hx, Hfrom.
  - destruct Hloop as (_ & idx & Hidx & Hthrow).
    destruct (Hfound idx Hidx) as [ref Href].
    change (contactWithSensor (set_oriOdometryContacts [] st) idx)
      with (contactWithSensor st idx) in Hthrow. congruence.
Qed.

End SelectionFrame.

(** ** One cycle: calls and anchors *)

Section CycleEffects.
Import Eigen LeggedOdometry Odometry.
Context {K : Double} {so : StateObservation K}.
Implicit Types (st s : t K) (ref : string) (c : LoContactWithSensor K).

(** What the second loop of [updateContacts] leaves untouched. *)
Local Abbreviation kept st s :=
  (sameRegistry st s /\ samePose st s /\ agree withoutAnchor st s
   /\ oriOdometryContacts s = oriOdometryContacts st).

Lemma kept_fields st s k :
  agree withoutAnchor st s ->
  surface (get s k) = surface (get st k)
  /\ wasAlreadySet_ (get s k) = wasAlreadySet_ (get st k).
Proof.
  intros Hagree. specialize (Hagree k). unfold withoutAnchor, withoutRefKine in Hagree.
  destruct (get s k), (get st k). simpl in *. by injection Hagree as -> -> -> -> -> -> ->.
Qed.

Lemma anchoringCalls_frame st s r names :
  sameRegistry st s -> anchoringCalls s r names = anchoringCalls st r names.
Proof.
  intros Hreg. unfold anchoringCalls, addContactLogEntries, logEntries.
  by rewrite (same_odometryName _ _ Hreg).
Qed.

Lemma newlySetAmong_cons st idx l :
  newlySetAmong st (idx :: l) = newlySetAmong st [idx] ++ newlySetAmong st l.
Proof.
  unfold newlySetAmong. csimpl. destruct (contactWithSensor st idx); simpl; [|done].
  rewrite !filter_cons, filter_nil. by destruct (decide _).
Qed.

(** One iteration of the second loop of [updateContacts]. *)
Lemma setFoundContact_effects ctl idx st calls :
  resolved st idx ->
  exists st',
    setFoundContact ctl idx (st, calls)
    = Ok (st', calls ++ anchoringCalls st (odometryRobot_ st) (newlySetAmong st [idx]))
    /\ kept st st'
    /\ (forall k, k ∈ newlySetAmong st [idx] ->
                  worldRefKine_ (get st' k) = anchor ctl (forceSensor ctl k) st)
    /\ (forall k, k ∉ newlySetAmong st [idx] ->
                  worldRefKine_ (get st' k) = worldRefKine_ (get st k)).
Proof.
  intros (ref & Href & Hname). unfold setFoundContact, newlySetAmong. csimpl.
  rewrite Href. simpl. rewrite filter_cons, filter_nil.
  destruct (wasAlreadySet_ (get st ref)) eqn:Hwas.
  - rewrite decide_False by done. simpl. exists st. rewrite app_nil_r.
    split; [done|]. split; [|split; [by intros k ?%elem_of_nil|done]].
    split; [apply sameRegistry_refl|]. by split.
  - rewrite decide_True by done. simpl.
    set (name := name_ (get st ref)) in *.
    set (st0 := update ref (set_isSet true) st).
    assert (Hreg0 : sameRegistry st st0) by by apply sameRegistry_update.
    assert (Hanchor : anchor ctl (forceSensor ctl name) st0
                      = anchor ctl (forceSensor ctl name) st).
    { apply anchor_frame; [done|by split|by apply agree_update]. }
    rewrite setNewContact_eq. simpl.
    destruct (proj2 (lookup_update_is_Some ref (set_isSet true) st name) Hname)
      as [c Hc].
    fold st0 in Hc. rewrite Hc, Hanchor. simpl.
    eexists. split; [done|]. split; [|split].
    + split; [|split; [|split]].
      * eapply sameRegistry_trans; [done|]. by apply sameRegistry_update.
      * by split.
      * eapply agree_trans; by apply agree_update.
      * done.
    + intros k ->%list_elem_of_singleton.
      rewrite get_update_eq; [done|]. unfold st0. by apply lookup_update_is_Some.
    + intros k Hk. apply not_elem_of_cons in Hk as [Hk _].
      rewrite get_update_ne by done. unfold st0. by apply get_update_field.
Qed.

(** The second loop of [updateContacts]: its calls, and the reference
    kinematics that it leaves. *)
Lemma setFoundContacts_effects ctl l st calls :
  (forall idx, idx ∈ l -> resolved st idx) ->
  exists st',
    forEach (setFoundContact ctl) l (st, calls)
    = Ok (st', calls ++ anchoringCalls st (odometryRobot_ st) (newlySetAmong st l))
    /\ kept st st'
    /\ (forall k, k ∈ newlySetAmong st l ->
                  worldRefKine_ (get st' k) = anchor ctl (forceSensor ctl k) st)
    /\ (forall k, k ∉ newlySetAmong st l ->
                  worldRefKine_ (get st' k) = worldRefKine_ (get st k)).
Proof.
  revert st calls. induction l as [|idx l IH]; intros st calls Hl.
  - exists st. cbn. rewrite app_nil_r. split; [done|].
    split; [|split; [by intros k ?%elem_of_nil|done]].
    split; [apply sameRegistry_refl|]. by split.
  - destruct (setFoundContact_effects ctl idx st calls)
      as (st1 & Hstep & (Hreg1 & Hpose1 & Hagree1 & Hori1) & Hnew1 & Hold1);
      [apply Hl; left|].
    assert (Hwas1 : agree wasAlreadySet_ st st1)
      by (intros k; by destruct (kept_fields st st1 k Hagree1)).
    assert (Hsurface1 : agree surface st st1)
      by (intros k; by destruct (kept_fields st st1 k Hagree1)).
    destruct (IH st1 (calls ++ anchoringCalls st (odometryRobot_ st)
                                 (newlySetAmong st [idx])))
      as (st2 & Hloop & (Hreg2 & Hpose2 & Hagree2 & Hori2) & Hnew2 & Hold2).
    { intros idx' Hidx'. apply (sameRegistry_resolved _ _ _ Hreg1), Hl. by right. }
    rewrite (newlySetAmong_frame st st1 l Hreg1 Hwas1) in Hloop, Hnew2, Hold2.
    rewrite (anchoringCalls_frame st st1) in Hloop by done.
    destruct Hpose1 as [Hfb1 Hrobot1]. rewrite Hrobot1 in Hloop.
    exists st2. cbn [forEach]. rewrite Hstep. cbn [mbind Result_bind].
    rewrite Hloop, (newlySetAmong_cons st idx l), <- app_assoc.
    split; [unfold anchoringCalls; by rewrite bind_app|]. split; [|split].
    + split; [by eapply sameRegistry_trans|].
      split; [eapply samePose_trans; [by split|done]|].
      split; [by eapply agree_trans|congruence].
    + intros k Hk. destruct (decide (k ∈ newlySetAmong st l)) as [Hin|Hout].
      * rewrite (Hnew2 k Hin). apply anchor_frame; [done|by split|done].
      * apply elem_of_app in Hk as [Hk|Hk]; [|done].
        by rewrite (Hold2 k Hout), (Hnew1 k Hk).
    + intros k Hk. apply not_elem_of_app in Hk as [Hk1 Hk2].
      by rewrite (Hold2 k Hk2), (Hold1 k Hk1).
Qed.

Lemma namesAmong_frame st s l :
  sameRegistry st s -> namesAmong s l = namesAmong st l.
Proof.
  intros Hreg. unfold namesAmong.
  replace (omap (fun idx => match contactWithSensor s idx with
                            | Ok ref => Some ref
                            | Throw _ => None
                            end) l)
    with (omap (fun idx => match contactWithSensor st idx with
                            | Ok ref => Some ref
                            | Throw _ => None
                            end) l).
  - apply list_fmap_ext. intros i ref _. apply (same_names _ _ Hreg).
  - induction l as [|idx l IH]; csimpl; [done|].
    by rewrite (sameRegistry_contactWithSensor st s idx Hreg), IH.
Qed.

Lemma removalCalls_frame st s names :
  sameRegistry st s -> removalCalls s names = removalCalls st names.
Proof.
  intros Hreg. unfold removalCalls, removeContactLogEntries, logEntries.
  by rewrite (same_odometryName _ _ Hreg).
Qed.

(** The third loop of [updateContacts]: its calls. *)
Lemma logRemovedContacts_effects l st calls :
  (forall idx, idx ∈ l -> resolved st idx) ->
  forEach logRemovedContact l (st, calls)
  = Ok (st, calls ++ removalCalls st (namesAmong st l)).
Proof.
  revert calls. induction l as [|idx l IH]; intros calls Hl.
  - cbn. by rewrite app_nil_r.
  - destruct (Hl idx) as (ref & Href & _); [left|].
    assert (Hstep : logRemovedContact idx (st, calls)
                    = Ok (st, calls ++ removeContactLogEntries st (name_ (get st ref))))
      by (unfold logRemovedContact; by rewrite Href).
    cbn [forEach]. rewrite Hstep. cbn [mbind Result_bind].
    rewrite IH by (intros; apply Hl; by right).
    unfold removalCalls, namesAmong. csimpl. rewrite Href. csimpl.
    by rewrite <- app_assoc.
Qed.

(** One cycle: the calls that [updateContacts] makes, and the reference
    kinematics that it leaves. *)
Lemma updateContacts_effects ctl st :
  wellFormed st ->
  exists st',
    updateContacts ctl st
    = Ok (st',
          Robot_posW (fbPose_ st') :: Robot_forwardKinematics
          :: anchoringCalls st (odometryRobot_ st')
               (newlySetAmong st (contactsFound st))
          ++ removalCalls st (namesAmong st (removedContacts st)))
    /\ sameRegistry st st'
    /\ agree surface st st' /\ agree wasAlreadySet_ st st'
    /\ odometryRobot_ st' = mkRobot (fbPose_ st') (fbPose_ st')
    /\ (forall k, k ∈ newlySetAmong st (contactsFound st) ->
                  worldRefKine_ (get st' k) = anchor ctl (forceSensor ctl k) st')
    /\ (forall k, k ∉ newlySetAmong st (contactsFound st) ->
                  worldRefKine_ (get st' k) = worldRefKine_ (get st k)).
Proof.
  intros Hwf.
  assert (Hfound : forall idx, idx ∈ contactsFound st -> resolved st idx)
    by (intros idx Hidx; apply Hwf, elem_of_app; by left).
  assert (Hremoved : forall idx, idx ∈ removedContacts st -> resolved st idx)
    by (intros idx Hidx; apply Hwf, elem_of_app; by right).
  destruct (updateContacts_Ok ctl st Hwf)
    as (st2 & sums & _ & _ & _ & Hsrc & _ & _ & _ & _ & _ & _ & _ & _ & _ & Hloop).
  unfold updateContacts.
  destruct (selectForOrientationOdometry st) as [st1|]; [|done].
  cbn [mbind Result_bind] in Hloop |- *. rewrite Hloop. cbn [mbind Result_bind].
  cbv zeta.
  destruct (updatePose_sameRegistry ctl sums st2) as (Hreg3 & Hagree3).
  set (st3 := updatePose ctl sums st2) in *.
  set (st4 := set_odometryRobot
                (forwardKinematics
                   (odometryRobot_
                      (set_odometryRobot (set_posW (fbPose_ st3) (odometryRobot_ st3))
                         st3)))
                (set_odometryRobot (set_posW (fbPose_ st3) (odometryRobot_ st3)) st3)).
  pose proof Hsrc as (Hreg2 & _ & _ & Hsurface2 & Hwas2 & Href2 & _).
  assert (Hreg4 : sameRegistry st st4).
  { eapply sameRegistry_trans; [done|]. eapply sameRegistry_trans; [done|].
    by constructor. }
  assert (Hget4 : forall k, get st4 k = get st3 k) by done.
  destruct (setFoundContacts_effects ctl (contactsFound st4) st4
              [Robot_posW (fbPose_ st4); Robot_forwardKinematics])
    as (st5 & Hloop2 & (Hreg5 & [Hfb5 Hrobot5] & Hagree5 & Hori5) & Hnew5 & Hold5).
  { intros idx Hidx. apply (sameRegistry_resolved _ _ _ Hreg4), Hfound.
    by rewrite <- (same_contactsFound _ _ Hreg4). }
  change (forEach (setFoundContact ctl) (contactsFound st4)
            (st4, [Robot_posW (fbPose_ st4); Robot_forwardKinematics])
          = Ok (st5, [Robot_posW (fbPose_ st4); Robot_forwardKinematics]
                     ++ anchoringCalls st4 (odometryRobot_ st4)
                          (newlySetAmong st4 (contactsFound st4))))
    in Hloop2.
  rewrite Hloop2. cbn [mbind Result_bind fst].
  pose proof (sameRegistry_trans _ _ _ Hreg4 Hreg5) as Hreg.
  rewrite logRemovedContacts_effects.
  2:{ intros idx Hidx. apply (sameRegistry_resolved _ _ _ Hreg), Hremoved.
      by rewrite <- (same_removedContacts _ _ Hreg). }
  assert (Hwas4 : agree wasAlreadySet_ st st4).
  { intros k. rewrite Hget4, <- (Hwas2 k). exact (f_equal wasAlreadySet_ (Hagree3 k)). }
  assert (Hnames : newlySetAmong st4 (contactsFound st4)
                   = newlySetAmong st (contactsFound st)).
  { rewrite (same_contactsFound _ _ Hreg4). by apply newlySetAmong_frame. }
  rewrite Hnames in *.
  assert (Hfields5 : agree surface st4 st5 /\ agree wasAlreadySet_ st4 st5)
    by (split; intros k; by destruct (kept_fields st4 st5 k Hagree5)).
  destruct Hfields5 as [Hsurface5 Hwas5].
  assert (Hsurface4 : agree surface st st4).
  { intros k. rewrite Hget4, <- (Hsurface2 k). exact (f_equal surface (Hagree3 k)). }
  exists st5. rewrite (anchoringCalls_frame st st4) by done.
  rewrite (namesAmong_frame st st5), (removalCalls_frame st st5) by done.
  rewrite (same_removedContacts _ _ Hreg), Hfb5, Hrobot5.
  split; [done|]. split; [done|].
  split; [by eapply agree_trans|]. split; [by eapply agree_trans|].
  split; [done|]. split.
  - intros k Hk. rewrite (Hnew5 k Hk). symmetry.
    apply anchor_frame; [done|by split|done].
  - intros k Hk. rewrite (Hold5 k Hk), Hget4, <- (Href2 k).
    exact (f_equal worldRefKine_ (Hagree3 k)).
Qed.
End CycleEffects.

Section CycleTheorems.
Import Eigen LeggedOdometry Odometry.
Context {K : Double} {so : StateObservation K}.
Implicit Types (st s : t K) (ref : string) (c : LoContactWithSensor K).

(** C10: within one call of [updateContacts], the pose [fbPose_] is written
    to the odometry robot and its forward kinematics is computed before
    anything else is called, in particular before [setNewContact]; neither
    is called again; [setNewContact] is called for the found contacts that
    were not already set, and every such call sees an odometry robot whose
    floating-base pose, and whose body poses, are those of the pose
    [fbPose_] of this cycle.  Hence the reference kinematics
    [worldRefKine_] that such a contact has after the cycle are the ones
    that [setNewContact] computes in the odometry robot placed at the pose
    [fbPose_] of this cycle: the pose of the parent body of the sensor
    (detection from thresholds) or of the surface of the contact (detection
    from surfaces) that forward kinematics yields for that pose; the
    odometry robot that the cycle started with plays no role in them. *)
Theorem updateContacts_anchors_on_fused_pose ctl st :
  wellFormed st ->
  exists st' rest,
    updateContacts ctl st
    = Ok (st', Robot_posW (fbPose_ st') :: Robot_forwardKinematics :: rest)
    /\ (forall call, call ∈ rest ->
          call <> Robot_forwardKinematics /\ forall p, call <> Robot_posW p)
    /\ omap setNewContactSensor rest = newlySetAmong st (contactsFound st)
    /\ (forall sensor r,
          SetNewContact sensor r ∈ rest ->
          posW r = fbPose_ st' /\ mbc_base r = fbPose_ st'
          /\ forall body, bodyPosW ctl r body = fk_bodyPosW ctl (fbPose_ st') body)
    /\ (forall k, k ∈ newlySetAmong st (contactsFound st) ->
          let fused := fbPose_ st' in
          let worldNewContactKine :=
            if detectionFromThreshold_ st then
              let worldBody := fk_bodyPosW ctl fused (sensor_parentBody ctl k) in
              let worldNewContactKineOdometryRobot :=
                kine_mul
                  (mkKinematics (translation worldBody) (transpose (rotation worldBody)))
                  (mkKinematics (translation (sensor_X_p_f ctl k))
                     (transpose (rotation (sensor_X_p_f ctl k)))) in
              mkKinematics (position worldNewContactKineOdometryRobot)
                (orientation worldNewContactKineOdometryRobot)
            else
              let worldSurfacePose := fk_surfacePose ctl fused (surface (get st k)) in
              mkKinematics (translation worldSurfacePose)
                (transpose (rotation worldSurfacePose)) in
          worldRefKine_ (get st' k)
          = (if odometry6d_ st then worldNewContactKine
             else set_position (set_z d0 (position worldNewContactKine))
                    worldNewContactKine)
          /\ worldRefKine_ (get st' k)
             = anchor ctl (forceSensor ctl k)
                 (set_odometryRobot (mkRobot fused fused) st)).
Proof.
  intros Hwf.
  destruct (updateContacts_Ok ctl st Hwf)
    as (st2 & sums & st' & rest & Hrun & _ & _ & Hrobot & _ & _ & _ & _
        & Hseen & Hsensors & Hcalls & _).
  destruct (updateContacts_effects ctl st Hwf)
    as (st'' & Hrun' & Hreg & Hsurface & _ & _ & Hnew & _).
  rewrite Hrun in Hrun'. injection Hrun' as <- _.
  exists st', rest. split; [done|]. split; [done|]. split; [done|]. split.
  - intros sensor r Hr. rewrite (Hseen sensor r Hr), Hrobot. by repeat split.
  - intros k Hk. cbv zeta.
    assert (Hanchor : worldRefKine_ (get st' k)
                      = anchor ctl (forceSensor ctl k)
                          (set_odometryRobot (mkRobot (fbPose_ st') (fbPose_ st')) st)).
    { rewrite (Hnew k Hk). unfold anchor.
      rewrite (same_detectionFromThreshold _ _ Hreg), (same_odometry6d _ _ Hreg),
        Hrobot, (Hsurface (fs_name (forceSensor ctl k))).
      by destruct st. }
    split; [|done]. rewrite Hanchor. unfold anchor, bodyPosW, surfacePose.
    by destruct st.
Qed.

(** X12: The calls of one cycle.  On a well-formed state [updateContacts] makes
    these calls, in this order, and no other: the pose [fbPose_] is written
    to the odometry robot and its forward kinematics is computed; for each
    found contact that was not already set, in the order of
    [contactsFound_], [setNewContact] is called and the three log entries of
    the contact are added; then, for each removed contact, in the order of
    [removedContacts_], its three log entries are removed. *)
Theorem updateContacts_trace ctl st :
  wellFormed st ->
  exists st',
    updateContacts ctl st
    = Ok (st',
          Robot_posW (fbPose_ st') :: Robot_forwardKinematics
          :: anchoringCalls st (odometryRobot_ st')
               (newlySetAmong st (contactsFound st))
          ++ removalCalls st (namesAmong st (removedContacts st))).
Proof.
  intros Hwf. destruct (updateContacts_effects ctl st Hwf) as (st' & Hrun & _).
  by exists st'.
Qed.

(** X13: The anchors after one cycle.  On a well-formed state, [updateContacts]
    leaves the reference kinematics of every contact as they were, except
    those of the found contacts that were not already set, which become the
    kinematics of the contact in the odometry robot placed at the pose
    [fbPose_] of this cycle (with height zero in flat odometry); it never
    writes the names, the surfaces and the flags [wasAlreadySet_]. *)
Theorem updateContacts_anchors ctl st :
  wellFormed st ->
  exists st' calls,
    updateContacts ctl st = Ok (st', calls)
    /\ odometryRobot_ st' = mkRobot (fbPose_ st') (fbPose_ st')
    /\ (forall k, k ∈ newlySetAmong st (contactsFound st) ->
          worldRefKine_ (get st' k) = anchor ctl (forceSensor ctl k) st'
          /\ (odometry6d_ st = false ->
              vz (position (worldRefKine_ (get st' k))) = d0))
    /\ (forall k, k ∉ newlySetAmong st (contactsFound st) ->
          worldRefKine_ (get st' k) = worldRefKine_ (get st k))
    /\ agree name_ st st' /\ agree surface st st' /\ agree wasAlreadySet_ st st'.
Proof.
  intros Hwf.
  destruct (updateContacts_effects ctl st Hwf)
    as (st' & Hrun & Hreg & Hsurface & Hwas & Hrobot & Hnew & Hold).
  eexists _, _. split; [done|]. split; [done|]. split; [|split; [done|]].
  - intros k Hk. split; [by apply Hnew|]. intros H6d. rewrite (Hnew k Hk).
    unfold anchor. rewrite (same_odometry6d _ _ Hreg), H6d. done.
  - split; [|done]. intros k. apply (same_names _ _ Hreg).
Qed.

(** X20: One call of [run]: the odometry robot takes the configuration and the
    pose of the real robot (what the previous cycle left in it plays no
    role), the contacts are detected, and, when the detection leaves a
    well-formed state, [updateContacts] and [updateFbKinematics] run without
    throwing; the pose that [run] outputs is [fbPose_], which is also the
    pose of the odometry robot at the end of the cycle. *)
Theorem run_spec
    (findContacts : MCController K -> LeggedOdometryContactsManager K ->
                    LeggedOdometryContactsManager K)
    ctl st :
  let copied :=
    set_odometryRobot (mkRobot (realRobot_posW ctl) (realRobot_posW ctl)) st in
  let detected :=
    set_contactsManager (findContacts ctl (contactsManager_ copied)) copied in
  wellFormed detected ->
  exists st' calls,
    updateContacts ctl detected = Ok (st', calls)
    /\ run findContacts ctl st = Ok (st', calls, updateFbKinematics ctl st')
    /\ pose (updateFbKinematics ctl st') = fbPose_ st'
    /\ posW (odometryRobot_ st') = fbPose_ st'
    /\ forall r, run findContacts ctl (set_odometryRobot r st) = run findContacts ctl st.
Proof.
  intros copied detected Hwf.
  destruct (updateContacts_Ok ctl detected Hwf)
    as (st2 & sums & st' & rest & Hrun & _ & _ & Hrobot & _).
  eexists _, _. split; [done|]. split; [|split; [|split]].
  - unfold run. cbv zeta.
    match goal with
    | |- context [updateContacts ctl ?s] => change s with detected
    end.
    by rewrite Hrun.
  - unfold updateFbKinematics. rewrite Hrobot. simpl. by destruct (fbPose_ st').
  - by rewrite Hrobot.
  - done.
Qed.
End CycleTheorems.

(** ** The orientation after one cycle *)

Section Yaw.
Import Eigen LeggedOdometry Odometry.
Context {K : Double} {so : StateObservation K}.
Implicit Types (st s : t K) (ref : string) (c : LoContactWithSensor K).

(** Without yaw estimation the first loop of [updateContacts] never finds the
    orientation updatable. *)
Lemma fuseContacts_without_yaw ctl l s sums s' sums' :
  withNaiveYawEstimation_ s = false ->
  forEach (fuseContact ctl) l (s, sums) = Ok (s', sums') ->
  orientationUpdatable sums' = orientationUpdatable sums.
Proof.
  revert s sums. induction l as [|idx l IH]; intros s sums Hyaw.
  - by intros [= <- <-].
  - cbn [forEach].
    destruct (fuseContact ctl idx (s, sums)) as [[s1 sums1]|] eqn:Hstep; [|done].
    cbn [mbind Result_bind]. intros Hloop.
    assert (Hstep1 : withNaiveYawEstimation_ s1 = false
                     /\ orientationUpdatable sums1 = orientationUpdatable sums).
    { revert Hstep. unfold fuseContact.
      destruct (contactWithSensor s idx) as [ref|]; simpl; [|done].
      destruct (wasAlreadySet_ (get s ref)); [|by intros [= <- <-]].
      destruct (getContactKinematics_frame ctl ref s) as ((Hreg & _) & _).
      destruct (getContactKinematics ctl ref s) as [kine s0]. simpl in Hreg.
      assert (Hyaw0 : withNaiveYawEstimation_ s0 = false)
        by by rewrite (same_withNaiveYawEstimation _ _ Hreg).
      rewrite Hyaw0. simpl. by intros [= <- <-]. }
    destruct Hstep1 as [Hyaw1 <-]. by apply (IH s1 sums1).
Qed.

(** X14: Without yaw estimation ([withNaiveYawEstimation_] false),
    [updateContacts] never writes the rotation of [fbPose_]: on a
    well-formed state it returns, and the rotation is the one of the
    previous cycle, whatever the contacts. *)
Theorem updateContacts_keeps_rotation ctl st :
  wellFormed st -> withNaiveYawEstimation_ st = false ->
  exists st' calls,
    updateContacts ctl st = Ok (st', calls)
    /\ rotation (fbPose_ st') = rotation (fbPose_ st).
Proof.
  intros Hwf Hyaw.
  assert (Hfound : forall idx, idx ∈ contactsFound st -> resolved st idx)
    by (intros idx Hidx; apply Hwf, elem_of_app; by left).
  destruct (selectForOrientationOdometry_Ok st Hfound)
    as (st1 & Hsel & (Hreg1 & _) & _).
  destruct (updateContacts_Ok ctl st Hwf)
    as (st2 & sums & st' & rest & Hrun & Hsrc & Hfb & _ & _ & _ & _ & _ & _ & _
        & _ & Hloop).
  rewrite Hsel in Hloop. cbn [mbind Result_bind] in Hloop.
  apply fuseContacts_without_yaw in Hloop;
    [|by rewrite (same_withNaiveYawEstimation _ _ Hreg1)].
  eexists _, _. split; [done|]. rewrite Hfb.
  destruct Hsrc as (_ & [<- _] & _). unfold updatePose.
  destruct (positionUpdatable sums); [|done]. by rewrite Hloop.
Qed.

(** X15: With yaw estimation and one contact in the set of the selection, a
    maintained contact, the rotation of [fbPose_] after [updateContacts] is
    the transpose of the orientation of the floating base that this contact
    yields, [worldRefKine_.orientation * contactOrientation^T
    * posW.rotation^T], once its yaw is merged with the tilt of the real
    robot. *)
Theorem updateContacts_yaw_of_single_contact ctl st st1 ref :
  wellFormed st -> withNaiveYawEstimation_ st = true ->
  selectForOrientationOdometry st = Ok st1 ->
  oriOdometryContacts st1 = [ref] ->
  ref ∈ maintainedContacts st ->
  exists st' calls,
    updateContacts ctl st = Ok (st', calls)
    /\ rotation (fbPose_ st')
       = transpose
           (mergeRoll1Pitch1WithYaw2AxisAgnostic
              (transpose (rotation (realRobot_posW ctl)))
              (orientationCandidate ctl st ref)).
Proof.
  intros Hwf Hyaw Hsel Hset Hmaintained.
  assert (Hfound : forall idx, idx ∈ contactsFound st -> resolved st idx)
    by (intros idx Hidx; apply Hwf, elem_of_app; by left).
  destruct (selectForOrientationOdometry_Ok st Hfound) as (st1' & Hsel' & Hframe & _).
  rewrite Hsel in Hsel'. injection Hsel' as <-.
  destruct (updateContacts_orientation ctl st st1 Hwf Hyaw Hsel)
    as (st' & calls & Hrun & Hrot).
  - by rewrite Hset.
  - intros x Hx. rewrite Hset in Hx. apply list_elem_of_singleton in Hx as ->.
    unfold orientationSources. apply list_elem_of_filter. split.
    + by apply (selectForOrientationOdometry_single st).
    + by rewrite (maintainedAmong_sources _ _ _ (selectionFrame_sameSources _ _ Hframe)).
  - eexists _, _. split; [done|]. by rewrite Hrot, Hset.
Qed.

End Yaw.

(** ** The selection with pairwise distinct forces, with real numbers *)

Section RealSelection.
Import Eigen LeggedOdometry Odometry.
Local Existing Instance real.
Local Open Scope R_scope.
Implicit Types (st : t real) (ref : string).

(** X11: The selection when the forces are pairwise distinct.  When every found
    identifier designates a contact, and the found contacts without [Hand]
    in their name ("eligible") have pairwise distinct force norms, the set
    holds, by increasing force, the two eligible contacts of highest force
    (all of them when there are less than two); an eligible contact has its
    flag [useForOrientation_] set if and only if it is in the set. *)
Theorem selectForOrientationOdometry_two_highest st :
  (forall idx, idx ∈ contactsFound st -> resolved st idx) ->
  NoDup (force st <$> eligibleContacts st) ->
  exists st',
    selectForOrientationOdometry st = Ok st'
    /\ length (oriOdometryContacts st') = Nat.min 2 (length (eligibleContacts st))
    /\ ascendingForces st (oriOdometryContacts st')
    /\ (forall x, x ∈ oriOdometryContacts st' -> x ∈ eligibleContacts st)
    /\ (forall x y, x ∈ eligibleContacts st -> x ∉ oriOdometryContacts st' ->
                    y ∈ oriOdometryContacts st' -> force st x < force st y)
    /\ (forall x, x ∈ eligibleContacts st ->
                  (useForOrientation_ (get st' x) = true
                   <-> x ∈ oriOdometryContacts st')).
Proof.
  intros Hfound Hnodup.
  destruct (selectForOrientationOdometry_ascending st Hfound)
    as (st' & Hsel & _ & Hsorted & Hflagged & Hfrom & Hdistinct).
  destruct (Hdistinct Hnodup) as [Hlen Hothers].
  destruct (selectForOrientationOdometry_Ok st Hfound) as (st'' & Hsel' & Hframe & _).
  rewrite Hsel in Hsel'. injection Hsel' as <-.
  exists st'. split; [done|]. split; [done|]. split; [|split; [done|split]].
  - unfold ascendingForces in *. clear -Hsorted Hframe.
    induction Hsorted as [|x refs Hl IH Hall]; constructor; [done|].
    eapply Forall_impl; [done|]. intros y Hy. simpl in *.
    by rewrite <- !(selectionFrame_force st st').
  - intros x y Hx Hnot Hy. by apply (Hothers x Hx Hnot).
  - intros x Hx. split.
    + intros Hflag. destruct (decide (x ∈ oriOdometryContacts st')) as [|Hnot]; [done|].
      destruct (Hothers x Hx Hnot) as [Hcleared _]. congruence.
    + intros Hin. by apply Hflagged.
Qed.

End RealSelection.

(** ** The statements applied to concrete inputs *)

(** A manager to which C8 applies: two contacts were added to the freshly
    constructed manager, and the second one is added again. *)
Lemma addContactToManager_idempotent_witness :
  let add :=
    ContactsManager.addContactToManager (LeggedOdometry.newContact (K:=binary64)) in
  let m := (add (add ContactsManager.empty "LeftFoot" "LeftFootCenter").1
              "RightFoot" "RightFootCenter").1 in
  ContactsManager.reachable LeggedOdometry.newContact m
  /\ ContactsManager.listContacts_ m !! "RightFoot" <> None
  /\ (add m "RightFoot" "").1 = m
  /\ Odometry.sequentialIds (add m "RightFoot" "").1.
Proof.
  intros add m.
  assert (Hreach : ContactsManager.reachable LeggedOdometry.newContact m)
    by (do 2 apply ContactsManager.reachable_add; apply ContactsManager.reachable_empty).
  assert (Hsome : ContactsManager.listContacts_ m !! "RightFoot" <> None) by done.
  destruct (addContactToManager_idempotent m "RightFoot" "" "")
    as (_ & _ & Hsame & Hseq).
  split; [done|]. split; [done|]. split.
  - exact (Hsame Hsome).
  - exact (proj1 (Hseq Hreach)).
Defined.

Ltac solve_wellFormed :=
  let idx := fresh "idx" in
  let Hidx := fresh "Hidx" in
  intros idx Hidx; cbn in Hidx;
  repeat (apply elem_of_cons in Hidx as [->|Hidx];
          [eexists; split; [vm_compute; reflexivity|vm_compute; eexists; reflexivity]|]);
  by apply elem_of_nil in Hidx.

Lemma wellFormed_twoFeet {K : Double} : Odometry.wellFormed (Inputs.twoFeet (K:=K)).
Proof. solve_wellFormed. Defined.

Lemma wellFormed_noMaintainedContact {K : Double} :
  Odometry.wellFormed (Inputs.noMaintainedContact (K:=K)).
Proof. solve_wellFormed. Defined.

Lemma wellFormed_freshRightFoot {K : Double} :
  Odometry.wellFormed (Inputs.freshRightFoot (K:=K)).
Proof. solve_wellFormed. Defined.

Section Binary64Witnesses.
Local Existing Instance binary64.
Local Open Scope float_scope.


(** C3 applies to the state without maintained contact. *)
Lemma updateContacts_held_witness :
  exists st' calls,
    LeggedOdometry.updateContacts (so:=Inputs.standIn) Inputs.ctl
      (Inputs.noMaintainedContact (K:=binary64)) = Ok (st', calls)
    /\ LeggedOdometry.fbPose_ st'
       = LeggedOdometry.fbPose_ (Inputs.noMaintainedContact (K:=binary64)).
Proof.
  destruct (updateContacts_held (so:=Inputs.standIn) Inputs.ctl
              (Inputs.noMaintainedContact (K:=binary64)))
    as (st' & calls & Hrun & Hheld & _).
  - apply wellFormed_noMaintainedContact.
  - intros ref Href. vm_compute in Href.
    apply elem_of_cons in Href as [->|Href]; [reflexivity|].
    by apply elem_of_nil in Href.
  - by exists st', calls.
Defined.

(** C7 applies to the foot found in flat odometry. *)
Lemma setNewContact_flat_witness :
  exists st',
    LeggedOdometry.setNewContact (so:=Inputs.standIn) Inputs.ctl
      (forceSensor Inputs.ctl Inputs.leftFoot)
      (Inputs.noMaintainedContact (K:=binary64)) = Ok st'
    /\ Eigen.vz (position
                   (LeggedOdometry.worldRefKine_ (LeggedOdometry.get st' Inputs.leftFoot)))
       = 0%float.
Proof.
  destruct (setNewContact_flat (so:=Inputs.standIn) Inputs.ctl
              (forceSensor Inputs.ctl Inputs.leftFoot)
              (Inputs.noMaintainedContact (K:=binary64)))
    as (st' & Hrun & _ & Hz).
  - reflexivity.
  - vm_compute. eexists; reflexivity.
  - by exists st'.
Defined.

(** C10 applies to the maintained left foot and the right foot set during
    this cycle: the cycle starts with the floating base at [(0, 0, 1)], the
    fusion places it at [(0, 1, 0)], and the right foot is anchored at the
    pose of its body for that pose. *)
Lemma updateContacts_anchors_on_fused_pose_witness :
  exists st' rest,
    LeggedOdometry.updateContacts (so:=Inputs.standIn) Inputs.ctl
      (Inputs.freshRightFoot (K:=binary64))
    = Ok (st', LeggedOdometry.Robot_posW (LeggedOdometry.fbPose_ st')
               :: LeggedOdometry.Robot_forwardKinematics :: rest)
    /\ omap Odometry.setNewContactSensor rest = [Inputs.rightFoot]
    /\ translation (posW (LeggedOdometry.odometryRobot_
                            (Inputs.freshRightFoot (K:=binary64))))
       = Eigen.V3 (K:=binary64) 0 0 1
    /\ translation (LeggedOdometry.fbPose_ st') = Eigen.V3 (K:=binary64) 0 1 0
    /\ position (LeggedOdometry.worldRefKine_ (LeggedOdometry.get st' Inputs.rightFoot))
       = Eigen.V3 (K:=binary64) 0 1 0.
Proof.
  destruct (updateContacts_anchors_on_fused_pose (so:=Inputs.standIn) Inputs.ctl
              (Inputs.freshRightFoot (K:=binary64)))
    as (st' & rest & Hrun & _ & Hsensors & _ & Hanchor).
  - apply wellFormed_freshRightFoot.
  - destruct (Hanchor Inputs.rightFoot) as [Hkine _]; [vm_compute; left|].
    assert (Hfused : translation (LeggedOdometry.fbPose_ st')
                     = Eigen.V3 (K:=binary64) 0 1 0).
    { pose proof Hrun as Hrun'. vm_compute in Hrun'. by injection Hrun' as <- _. }
    exists st', rest. split; [done|]. split; [by rewrite Hsensors|].
    split; [reflexivity|]. split; [done|].
    rewrite Hkine. cbv zeta. destruct (LeggedOdometry.fbPose_ st') as [r p].
    simpl in Hfused. subst p. vm_compute. reflexivity.
Defined.

(** [updateContacts_orientation] applies to the two maintained feet with
    forces 2 and 1: the selection leaves both in the set, the right foot
    first, and the orientation is the one of [meanOri] with the sum of the
    two forces. *)
Lemma updateContacts_orientation_two_feet :
  exists st1 st' calls,
    LeggedOdometry.selectForOrientationOdometry (Inputs.twoFeet (K:=binary64)) = Ok st1
    /\ LeggedOdometry.oriOdometryContacts st1 = [Inputs.rightFoot; Inputs.leftFoot]
    /\ LeggedOdometry.updateContacts (so:=Inputs.standIn) Inputs.ctl Inputs.twoFeet
       = Ok (st', calls)
    /\ rotation (LeggedOdometry.fbPose_ st')
       = Eigen.transpose
           (mergeRoll1Pitch1WithYaw2AxisAgnostic (StateObservation:=Inputs.standIn)
              (Eigen.transpose (rotation (realRobot_posW Inputs.ctl)))
              (LeggedOdometry.meanOri (so:=Inputs.standIn)
                 (Odometry.orientationCandidate (so:=Inputs.standIn) Inputs.ctl
                    Inputs.twoFeet Inputs.rightFoot)
                 (Odometry.orientationCandidate (so:=Inputs.standIn) Inputs.ctl
                    Inputs.twoFeet Inputs.leftFoot)
                 (Odometry.measuredForce (so:=Inputs.standIn) Inputs.ctl
                    Inputs.twoFeet Inputs.rightFoot)
                 (0 + Odometry.measuredForce (so:=Inputs.standIn) Inputs.ctl
                        Inputs.twoFeet Inputs.leftFoot
                  + Odometry.measuredForce (so:=Inputs.standIn) Inputs.ctl
                      Inputs.twoFeet Inputs.rightFoot)%float)).
Proof.
  assert (Hsel : exists st1,
             LeggedOdometry.selectForOrientationOdometry (Inputs.twoFeet (K:=binary64))
             = Ok st1
             /\ LeggedOdometry.oriOdometryContacts st1
                = [Inputs.rightFoot; Inputs.leftFoot]
             /\ Odometry.orientationSources st1
                  (LeggedOdometry.contactsFound (Inputs.twoFeet (K:=binary64)))
                = [Inputs.leftFoot; Inputs.rightFoot]).
  { eexists. split; [vm_compute; reflexivity|]. split; vm_compute; reflexivity. }
  destruct Hsel as (st1 & Hsel & Hset & Hsources).
  destruct (updateContacts_orientation (so:=Inputs.standIn) Inputs.ctl
              (Inputs.twoFeet (K:=binary64)) st1)
    as (st' & calls & Hrun & Hrot).
  - apply wellFormed_twoFeet.
  - reflexivity.
  - exact Hsel.
  - by rewrite Hset.
  - intros ref Href. rewrite Hset in Href. rewrite Hsources.
    apply elem_of_cons in Href as [->|Href]; [right; left|].
    apply elem_of_cons in Href as [->|Href]; [left|]. by apply elem_of_nil in Href.
  - exists st1, st', calls. split; [done|]. split; [done|]. split; [done|].
    rewrite Hrot, Hset, Hsources. reflexivity.
Qed.

End Binary64Witnesses.

(** ** The further properties applied to concrete inputs *)

Lemma wellFormed_oneFoot {K : Double} : Odometry.wellFormed (Inputs.oneFoot (K:=K)).
Proof. solve_wellFormed. Defined.

Lemma wellFormed_withoutYaw {K : Double} :
  Odometry.wellFormed (Inputs.withoutYaw (K:=K)).
Proof. solve_wellFormed. Defined.

Section RealInstances.
Local Existing Instance real.
Local Open Scope R_scope.

(** The two feet with forces 2 and 1: their identifiers, their names and
    their forces. *)
Lemma resolved_twoFeet :
  forall idx, idx ∈ LeggedOdometry.contactsFound (Inputs.twoFeet (K:=real)) ->
              Odometry.resolved (Inputs.twoFeet (K:=real)) idx.
Proof.
  intros idx Hidx. apply wellFormed_twoFeet. apply elem_of_app. by left.
Defined.

Lemma forces_twoFeet :
  Odometry.eligibleContacts (Inputs.twoFeet (K:=real))
  = [Inputs.leftFoot; Inputs.rightFoot]
  /\ Odometry.force Inputs.twoFeet Inputs.leftFoot = 2
  /\ Odometry.force Inputs.twoFeet Inputs.rightFoot = 1.
Proof.
  split; [vm_compute; reflexivity|]. split; vm_compute; lra.
Defined.

(** X11 applies to the two feet with forces 2 and 1. *)
Lemma selectForOrientationOdometry_two_highest_witness :
  exists st',
    LeggedOdometry.selectForOrientationOdometry (Inputs.twoFeet (K:=real)) = Ok st'
    /\ length (LeggedOdometry.oriOdometryContacts st') = 2%nat.
Proof.
  destruct forces_twoFeet as (Heligible & Hleft & Hright).
  destruct (selectForOrientationOdometry_two_highest (Inputs.twoFeet (K:=real)))
    as (st' & Hrun & Hlen & _).
  - apply resolved_twoFeet.
  - rewrite Heligible. cbn [fmap list_fmap]. rewrite Hleft, Hright.
    apply NoDup_cons. split; [|apply NoDup_singleton].
    intros Hin%list_elem_of_singleton. lra.
  - exists st'. split; [done|]. by rewrite Hlen, Heligible.
Defined.



End RealInstances.

Section Binary64Instances.
Local Existing Instance binary64.
Import ContactsManager.

(** X1 applies to the manager to which two contacts were added. *)
Lemma getNameFromIdx_getIdxFromName_witness :
  let add := addContactToManager (LeggedOdometry.newContact (K:=binary64)) in
  let m := (add (add ContactsManager.empty "LeftFoot" "LeftFootCenter").1
              "RightFoot" "RightFootCenter").1 in
  getNameFromIdx m 1 = Ok "RightFoot"
  /\ getIdxFromName LeggedOdometry.id_ m "RightFoot" = Ok 1
  /\ contactByIdx m 1 = contact m "RightFoot".
Proof.
  intros add m.
  assert (Hreach : reachable LeggedOdometry.newContact m)
    by (do 2 apply reachable_add; apply reachable_empty).
  assert (Hname : getNameFromIdx m 1 = Ok "RightFoot") by reflexivity.
  destruct (getNameFromIdx_getIdxFromName m "RightFoot" 1 Hreach) as [Hiff Hsame].
  split; [done|]. split; [by apply Hiff|]. by apply Hsame.
Defined.

(** X2 applies to the manager to which two contacts were added: the
    identifiers in use are 0 and 1. *)
Lemma contactByIdx_bounds_witness :
  let add := addContactToManager (LeggedOdometry.newContact (K:=binary64)) in
  let m := (add (add ContactsManager.empty "LeftFoot" "LeftFootCenter").1
              "RightFoot" "RightFootCenter").1 in
  (exists name, contactByIdx m 1 = Ok name)
  /\ contactByIdx m 2 = Throw out_of_range
  /\ contactByIdx m (-1) = Throw out_of_range.
Proof.
  intros add m.
  assert (Hreach : reachable LeggedOdometry.newContact m)
    by (do 2 apply reachable_add; apply reachable_empty).
  assert (Hidx : idx_ m = 2) by reflexivity.
  destruct (contactByIdx_bounds m Hreach) as (Hin & Hout & _).
  split; [|split].
  - destruct (Hin 1) as (name & _ & Hname); [lia|]. by exists name.
  - apply Hout. lia.
  - apply Hout. lia.
Defined.

(** X6 applies to the foot found in flat odometry. *)
Lemma setNewContact_idempotent_witness :
  exists st',
    LeggedOdometry.setNewContact (so:=Inputs.standIn) Inputs.ctl
      (forceSensor Inputs.ctl Inputs.leftFoot)
      (Inputs.noMaintainedContact (K:=binary64)) = Ok st'
    /\ LeggedOdometry.setNewContact (so:=Inputs.standIn) Inputs.ctl
         (forceSensor Inputs.ctl Inputs.leftFoot) st' = Ok st'.
Proof.
  destruct (setNewContact_Ok (so:=Inputs.standIn) Inputs.ctl
              (forceSensor Inputs.ctl Inputs.leftFoot)
              (Inputs.noMaintainedContact (K:=binary64)))
    as (st' & Hrun & _).
  - vm_compute. eexists; reflexivity.
  - exists st'. split; [done|]. exact (setNewContact_idempotent _ _ _ _ Hrun).
Defined.

(** X10 applies to the two feet and the removed hand: the flag of the hand
    is left as it was. *)
Lemma selectForOrientationOdometry_writes_flags_witness :
  exists st',
    LeggedOdometry.selectForOrientationOdometry (Inputs.twoFeet (K:=binary64)) = Ok st'
    /\ LeggedOdometry.useForOrientation_ (LeggedOdometry.get st' Inputs.leftHand)
       = LeggedOdometry.useForOrientation_
           (LeggedOdometry.get (Inputs.twoFeet (K:=binary64)) Inputs.leftHand).
Proof.
  destruct (selectForOrientationOdometry_writes_flags (Inputs.twoFeet (K:=binary64)))
    as (st' & Hrun & _ & _ & _ & Hflags).
  - intros idx Hidx. cbn in Hidx.
    repeat (apply elem_of_cons in Hidx as [->|Hidx]; [vm_compute; eexists; reflexivity|]).
    by apply elem_of_nil in Hidx.
  - exists st'. split; [done|]. apply Hflags. intros Hin. vm_compute in Hin.
    repeat (apply elem_of_cons in Hin as [Hin|Hin]; [discriminate|]).
    by apply elem_of_nil in Hin.
Defined.

(** X12 applies to the state with a foot set during this cycle and a
    removed hand. *)
Lemma updateContacts_trace_witness :
  exists st',
    LeggedOdometry.updateContacts (so:=Inputs.standIn) Inputs.ctl
      (Inputs.noMaintainedContact (K:=binary64))
    = Ok (st',
          LeggedOdometry.Robot_posW (LeggedOdometry.fbPose_ st')
          :: LeggedOdometry.Robot_forwardKinematics
          :: LeggedOdometry.SetNewContact Inputs.leftFoot (LeggedOdometry.odometryRobot_ st')
          :: LeggedOdometry.addContactLogEntries Inputs.noMaintainedContact Inputs.leftFoot
          ++ LeggedOdometry.removeContactLogEntries Inputs.noMaintainedContact
               Inputs.leftHand).
Proof.
  destruct (updateContacts_trace (so:=Inputs.standIn) Inputs.ctl
              (Inputs.noMaintainedContact (K:=binary64)))
    as (st' & Hrun).
  - apply wellFormed_noMaintainedContact.
  - exists st'. rewrite Hrun. reflexivity.
Defined.

(** X13 applies to the same state: the foot gets its anchor, the hand keeps
    its reference kinematics. *)
Lemma updateContacts_anchors_witness :
  exists st' calls,
    LeggedOdometry.updateContacts (so:=Inputs.standIn) Inputs.ctl
      (Inputs.noMaintainedContact (K:=binary64)) = Ok (st', calls)
    /\ LeggedOdometry.worldRefKine_ (LeggedOdometry.get st' Inputs.leftFoot)
       = Odometry.anchor (so:=Inputs.standIn) Inputs.ctl
           (forceSensor Inputs.ctl Inputs.leftFoot) st'
    /\ LeggedOdometry.worldRefKine_ (LeggedOdometry.get st' Inputs.leftHand)
       = LeggedOdometry.worldRefKine_
           (LeggedOdometry.get (Inputs.noMaintainedContact (K:=binary64))
              Inputs.leftHand).
Proof.
  destruct (updateContacts_anchors (so:=Inputs.standIn) Inputs.ctl
              (Inputs.noMaintainedContact (K:=binary64)))
    as (st' & calls & Hrun & _ & Hnew & Hold & _).
  - apply wellFormed_noMaintainedContact.
  - exists st', calls. split; [done|]. split.
    + apply Hnew. vm_compute. left.
    + apply Hold. intros Hin. vm_compute in Hin.
      repeat (apply elem_of_cons in Hin as [Hin|Hin]; [discriminate|]).
      by apply elem_of_nil in Hin.
Defined.

(** X20 applies to a detection that leaves the contacts as they are. *)
Lemma run_spec_witness :
  exists st' calls,
    LeggedOdometry.run (so:=Inputs.standIn) (fun _ m => m) Inputs.ctl
      (Inputs.noMaintainedContact (K:=binary64))
    = Ok (st', calls, LeggedOdometry.updateFbKinematics Inputs.ctl st')
    /\ LeggedOdometry.pose (LeggedOdometry.updateFbKinematics Inputs.ctl st')
       = LeggedOdometry.fbPose_ st'.
Proof.
  destruct (run_spec (so:=Inputs.standIn) (fun _ m => m) Inputs.ctl
              (Inputs.noMaintainedContact (K:=binary64)))
    as (st' & calls & _ & Hrun & Hpose & _).
  - solve_wellFormed.
  - by exists st', calls.
Defined.

(** X14 applies to the maintained foot without yaw estimation. *)
Lemma updateContacts_keeps_rotation_witness :
  exists st' calls,
    LeggedOdometry.updateContacts (so:=Inputs.standIn) Inputs.ctl
      (Inputs.withoutYaw (K:=binary64)) = Ok (st', calls)
    /\ rotation (LeggedOdometry.fbPose_ st')
       = rotation (LeggedOdometry.fbPose_ (Inputs.withoutYaw (K:=binary64))).
Proof.
  destruct (updateContacts_keeps_rotation (so:=Inputs.standIn) Inputs.ctl
              (Inputs.withoutYaw (K:=binary64)))
    as (st' & calls & Hrun & Hrot).
  - apply wellFormed_withoutYaw.
  - reflexivity.
  - by exists st', calls.
Defined.

(** X15 applies to the single maintained foot. *)
Lemma updateContacts_yaw_of_single_contact_witness :
  exists st' calls,
    LeggedOdometry.updateContacts (so:=Inputs.standIn) Inputs.ctl
      (Inputs.oneFoot (K:=binary64)) = Ok (st', calls)
    /\ rotation (LeggedOdometry.fbPose_ st')
       = Eigen.transpose
           (mergeRoll1Pitch1WithYaw2AxisAgnostic (StateObservation:=Inputs.standIn)
              (Eigen.transpose (rotation (realRobot_posW Inputs.ctl)))
              (Odometry.orientationCandidate (so:=Inputs.standIn) Inputs.ctl
                 Inputs.oneFoot Inputs.leftFoot)).
Proof.
  assert (Hsel : exists st1,
             LeggedOdometry.selectForOrientationOdometry (Inputs.oneFoot (K:=binary64))
             = Ok st1
             /\ LeggedOdometry.oriOdometryContacts st1 = [Inputs.leftFoot]).
  { eexists. split; vm_compute; reflexivity. }
  destruct Hsel as (st1 & Hsel & Hset).
  destruct (updateContacts_yaw_of_single_contact (so:=Inputs.standIn) Inputs.ctl
              (Inputs.oneFoot (K:=binary64)) st1 Inputs.leftFoot)
    as (st' & calls & Hrun & Hrot).
  - apply wellFormed_oneFoot.
  - reflexivity.
  - exact Hsel.
  - exact Hset.
  - vm_compute. left.
  - by exists st', calls.
Defined.

End Binary64Instances.
